(** * PBR map derivation: a shallow embedding of [utils/textureUtils.ts],
      [services/geminiService.ts] and [App.tsx : processAllMaps].

    JavaScript numbers are IEEE-754 binary64 values.  The arithmetic the
    program uses is collected in the interface [Arith]; the program text is
    written once over that interface.  Two instances are given:

    - [Float64]: Rocq's primitive binary64 floats, i.e. the arithmetic the
      program really runs on.  Everything computes in this instance.
    - [Exact]: the real numbers; it serves only to say which real quantity
      a formula of the program stands for.

    Statements about real quantities of the program that runs (norms, error
    bounds) are made in [Float64], through the real number [B2R] a finite
    double stands for and the specification of the primitive operations.

    Loop counters, coordinates and array indices are integer-valued numbers
    far below 2^53; they are modelled by [nat] and [Z]. *)

From Stdlib Require Import ZArith QArith Qround Reals Lia Lra Psatz String Ascii.
From Stdlib Require Import PrimFloat Uint63 FloatAxioms FloatOps SpecFloat.
From stdpp Require Import base list.

Local Open Scope Z_scope.

(** ** The arithmetic of JavaScript numbers *)

Class Arith := {
  num  : Type;
  ofZ  : Z -> num;             (* an integer-valued number *)
  NaN  : num;                  (* what arithmetic on [undefined] yields *)
  nadd : num -> num -> num;
  nsub : num -> num -> num;
  nmul : num -> num -> num;
  ndiv : num -> num -> num;
  nsqrt : num -> num;          (* Math.sqrt *)
  nlt  : num -> num -> bool;   (* x < y  *)
  neq  : num -> num -> bool;   (* x == y on numbers *)
}.

Declare Scope num_scope.
Delimit Scope num_scope with J.
Bind Scope num_scope with num.
Infix "+" := nadd : num_scope.
Infix "-" := nsub : num_scope.
Infix "*" := nmul : num_scope.
Infix "/" := ndiv : num_scope.
Infix "<?" := nlt : num_scope.
Infix "=?" := neq : num_scope.

Section Numbers.
Context {A : Arith}.

(** A decimal literal of the source, such as [0.5], [1.2] or [765.0]:
    the quotient of two integers.  In [Float64] the division is correctly
    rounded, so the result is the double nearest to the decimal, which is
    how JavaScript reads the literal. *)
Definition lit (q : Q) : num := (ofZ (Qnum q) / ofZ (Zpos (Qden q)))%J.

Definition nle (x y : num) : bool := (x <? y)%J || (x =? y)%J.
Definition ngt (x y : num) : bool := (y <? x)%J.

Definition isNaN (x : num) : bool := negb (x =? x)%J.

(** ToBoolean on a number: [0], [-0] and [NaN] are falsy. *)
Definition truthy (x : num) : bool := negb (isNaN x || (x =? lit 0)%J).

(** [x || d] on numbers. *)
Definition or_else (x d : num) : num := if truthy x then x else d.

Definition is_neg_zero (x : num) : bool :=
  (x =? lit 0)%J && (lit 1 / x <? lit 0)%J.

(** Math.max and Math.min of two arguments: NaN is contagious and
    [+0] counts as larger than [-0]. *)
Definition Math_max (a b : num) : num :=
  if isNaN a || isNaN b then NaN
  else if (a <? b)%J then b
  else if (b <? a)%J then a
  else if is_neg_zero a then b else a.

Definition Math_min (a b : num) : num :=
  if isNaN a || isNaN b then NaN
  else if (a <? b)%J then a
  else if (b <? a)%J then b
  else if is_neg_zero a then a else b.

(** [floor_bits k acc x]: the largest integer [acc + j], [0 <= j < 2^k],
    that is at most [x]; found by bisection on the bits of [j]. *)
Fixpoint floor_bits (k : nat) (acc : Z) (x : num) : Z :=
  match k with
  | O => acc
  | S k' =>
      let c := acc + 2 ^ Z.of_nat k' in
      if nle (ofZ c) x then floor_bits k' c x else floor_bits k' acc x
  end.

(** ToUint8Clamp of ECMA-262, the conversion applied by every store into
    a [Uint8ClampedArray]: NaN becomes 0, the value is clamped to
    [0, 255] and rounded to the nearest integer, ties to even. *)
Definition ToUint8Clamp (x : num) : Z :=
  if isNaN x then 0
  else if nle x (ofZ 0) then 0
  else if nle (ofZ 255) x then 255
  else
    let f := floor_bits 8 0 x in
    let half := (ofZ f + lit 0.5)%J in
    if (half <? x)%J then f + 1
    else if (x <? half)%J then f
    else if Z.even f then f else f + 1.
End Numbers.

Arguments lit {A} q%_Q.

(** *** IEEE-754 binary64 *)

Definition float_ofZ (z : Z) : float :=
  if z <? 0 then PrimFloat.opp (of_uint63 (Uint63.of_Z (- z)))
  else of_uint63 (Uint63.of_Z z).

#[export] Instance Float64 : Arith := {|
  num := float;
  ofZ := float_ofZ;
  NaN := PrimFloat.nan;
  nadd := PrimFloat.add;
  nsub := PrimFloat.sub;
  nmul := PrimFloat.mul;
  ndiv := PrimFloat.div;
  nsqrt := PrimFloat.sqrt;
  nlt := PrimFloat.ltb;
  neq := PrimFloat.eqb;
|}.

(** *** Exact real arithmetic *)

#[export] Instance Exact : Arith | 10 := {|
  num := R;
  ofZ := IZR;
  NaN := 0%R;                  (* never produced: see [getZ_in_range] *)
  nadd := Rplus;
  nsub := Rminus;
  nmul := Rmult;
  ndiv := Rdiv;
  nsqrt := R_sqrt.sqrt;
  nlt := fun x y => if Rlt_dec x y then true else false;
  neq := fun x y => if Req_dec_T x y then true else false;
|}.

(** ** Typed arrays and image data *)

Record ImageData := mkImageData {
  width  : nat;
  height : nat;
  data   : list Z;             (* Uint8ClampedArray, RGBA, row-major *)
}.

Section TypedArrays.
Context {A : Arith}.

(** [a[i]] read as a number; an index outside the array reads
    [undefined], which arithmetic turns into NaN. *)
Definition get (a : list Z) (i : nat) : num :=
  match a !! i with
  | Some b => ofZ b
  | None => NaN
  end.

Definition getZ (a : list Z) (i : Z) : num :=
  if i <? 0 then NaN else get a (Z.to_nat i).

(** [a[i] = v]; a store outside a typed array is ignored. *)
Definition set (a : list Z) (i : nat) (v : num) : list Z :=
  <[ i := ToUint8Clamp v ]> a.
End TypedArrays.

(** [for (let i = 0; i < n; i++)] and [for (let i = 0; i < n; i += 4)],
    threading the state the body mutates. *)
Definition for_range {St : Type} (n : nat) (body : nat -> St -> St) (s : St) : St :=
  fold_left (fun s i => body i s) (seq 0 n) s.

Definition for_stride4 {St : Type} (n : nat) (body : nat -> St -> St) (s : St) : St :=
  fold_left (fun s i => body i s)
            (List.map (fun k => (4 * k)%nat) (seq 0 ((n + 3) / 4)%nat)) s.

(** ** utils/textureUtils.ts

    [loadImage], [drawImage] and [getImageData] decode the source image;
    the generators below start from the decoded [ImageData].  Each returns
    the pixels it puts on its canvas (the PNG encoding is not modelled). *)

Section TextureUtils.
Context {A : Arith}.

(** Grayscale value with basic noise reduction (average of neighbours). *)
Definition getSmoothHeight (width height : nat) (data : list Z) (x y : Z) : num :=
  let '(total, count) :=
    fold_left (fun '(total, count) ox =>
      fold_left (fun '(total, count) oy =>
        let nx := Z.max 0 (Z.min (Z.of_nat width - 1) (x + ox)) in
        let ny := Z.max 0 (Z.min (Z.of_nat height - 1) (y + oy)) in
        let px := (nx + ny * Z.of_nat width) * 4 in
        ((total + (getZ data px + getZ data (px + 1) + getZ data (px + 2)) / lit 765.0)%J,
         count + 1))
        [-1; 0; 1] (total, count))
      [-1; 0; 1] (lit 0, 0) in
  (total / ofZ count)%J.

Definition generateNormalMap (img : ImageData) (strength : num) : ImageData :=
  let data := data img in
  let width := width img in
  let height := height img in
  let outData := replicate (4 * (width * height)) 0 in
  let outData :=
    for_range height (fun y outData =>
      for_range width (fun x outData =>
        let idx := ((y * width + x) * 4)%nat in
        let hL := getSmoothHeight width height data (Z.of_nat x - 1) (Z.of_nat y) in
        let hR := getSmoothHeight width height data (Z.of_nat x + 1) (Z.of_nat y) in
        let hU := getSmoothHeight width height data (Z.of_nat x) (Z.of_nat y - 1) in
        let hD := getSmoothHeight width height data (Z.of_nat x) (Z.of_nat y + 1) in
        let dx := ((hL - hR) * strength)%J in
        let dy := ((hU - hD) * strength)%J in
        let dz := lit 1.0 in
        let len := nsqrt (dx * dx + dy * dy + dz * dz)%J in
        let outData := set outData idx (((dx / len) * lit 0.5 + lit 0.5) * lit 255)%J in
        let outData := set outData (idx + 1) (((dy / len) * lit 0.5 + lit 0.5) * lit 255)%J in
        let outData := set outData (idx + 2) (((dz / len) * lit 0.5 + lit 0.5) * lit 255)%J in
        set outData (idx + 3) (lit 255))
        outData)
      outData in
  mkImageData width height outData.

Definition generateRoughnessMap (img : ImageData) (multiplier : num) : ImageData :=
  let data := data img in
  let data :=
    for_stride4 (length data) (fun i data =>
      let avg := ((get data i + get data (i + 1) + get data (i + 2)) / lit 3)%J in
      let val := ((lit 255 - avg) * multiplier)%J in
      let val := (((val / lit 255 - lit 0.5) * lit 1.5 + lit 0.5) * lit 255)%J in
      let v := Math_min (lit 255) (Math_max (lit 0) val) in
      set (set (set data (i + 2) v) (i + 1) v) i v)
      data in
  mkImageData (width img) (height img) data.

Definition generateAOMap (img : ImageData) : ImageData :=
  let data := data img in
  let data :=
    for_stride4 (length data) (fun i data =>
      let avg := ((get data i + get data (i + 1) + get data (i + 2)) / lit 3)%J in
      let val := if (avg <? lit 100)%J then ((avg / lit 100) * lit 255)%J else lit 255 in
      set (set (set data (i + 2) val) (i + 1) val) i val)
      data in
  mkImageData (width img) (height img) data.

(** [fillRect(0, 0, w, h)] with an opaque [rgb(r,g,b)] fill style on a
    fresh [w] x [h] canvas: every pixel becomes [(r, g, b, 255)]. *)
Definition fillRect (w h : nat) (r g b : Z) : list Z :=
  List.concat (replicate (w * h) [r; g; b; 255]).

Definition generateMetalnessMap (img : ImageData) (isMetal : bool) : ImageData :=
  let width := width img in
  let height := height img in
  let val := if isMetal then 255 else 0 in
  mkImageData width height (fillRect width height val val val).

Definition generateHeightMap (img : ImageData) : ImageData :=
  let data := data img in
  let data :=
    for_stride4 (length data) (fun i data =>
      let avg := ((get data i + get data (i + 1) + get data (i + 2)) / lit 3)%J in
      let val := (((avg / lit 255 - lit 0.5) * lit 1.2 + lit 0.5) * lit 255)%J in
      let v := Math_min (lit 255) (Math_max (lit 0) val) in
      set (set (set data (i + 2) v) (i + 1) v) i v)
      data in
  mkImageData (width img) (height img) data.
End TextureUtils.

(** ** services/geminiService.ts : analyzeTextureMetadata *)

(** Values that [JSON.parse] can return. An object is the list of its
    properties, one entry per key. *)
#[warnings="-register-all"]
Inductive JsValue {A : Arith} : Type :=
| JNull
| JBoolean (b : bool)
| JNumber (n : num)
| JString (s : string)
| JArray (items : list JsValue)
| JObject (props : list (string * JsValue)).

(** A thrown [Error] with its [message]. *)
Record JsError := mkError { message : string }.

(** [response.text] of a reply, with what [JSON.parse] makes of it. *)
Inductive ResponseText {A : Arith} : Type :=
| NoText                                (* [undefined] or the empty string *)
| Text (parsed : option JsValue).       (* [None]: JSON.parse throws *)

(** The outcome of the awaited [ai.models.generateContent] call. *)
Inductive ServiceResult {A : Arith} : Type :=
| ServiceFailed (err : JsError)         (* the promise rejects *)
| ServiceReplied (text : ResponseText).

Record Metadata {A : Arith} := mkMetadata {
  suggestedRoughness : num;
  suggestedMetalness : num;
}.
Arguments mkMetadata {A} _ _.

Section GeminiService.
Context {A : Arith}.

Fixpoint assoc (k : string) (props : list (string * JsValue)) : option JsValue :=
  match props with
  | [] => None
  | (k', v) :: rest => if String.eqb k k' then Some v else assoc k rest
  end.

(** [data.k]: [None] stands for the TypeError thrown on [null];
    [Some None] for [undefined]. *)
Definition getProp (data : JsValue) (k : string) : option (option JsValue) :=
  match data with
  | JNull => None
  | JObject props => Some (assoc k props)
  | _ => Some None
  end.

(** [typeof v === 'number' ? v : d] *)
Definition number_or (v : option JsValue) (d : num) : num :=
  match v with
  | Some (JNumber n) => n
  | _ => d
  end.

(** [JSON.parse(text || '{}')] *)
Definition parse_text (text : ResponseText) : option JsValue :=
  match text with
  | NoText => Some (JObject [])
  | Text parsed => parsed
  end.

Definition analyzeTextureMetadata (response : ServiceResult) : JsError + Metadata :=
  match response with
  | ServiceFailed err => inl err        (* awaited outside the [try] block *)
  | ServiceReplied text =>
      let defaults := mkMetadata (lit 0.6) (lit 0.0) in
      inr match parse_text text with
          | None => defaults
          | Some data =>
              match getProp data "suggestedRoughness", getProp data "suggestedMetalness" with
              | Some r, Some m => mkMetadata (number_or r (lit 0.6)) (number_or m (lit 0.0))
              | _, _ => defaults
              end
          end
  end.
End GeminiService.

(** ** App.tsx : processAllMaps

    A data URL is modelled by the image it encodes.  The awaited metadata
    analysis is the only step of [processAllMaps] that can fail in this
    model; the five generators are given a decoded image and succeed. *)

Record PBRMaps := mkMaps {
  albedo    : option ImageData;
  normal    : option ImageData;
  roughness : option ImageData;
  metalness : option ImageData;
  ao        : option ImageData;
  height_   : option ImageData;   (* [height]; the name is [ImageData]'s *)
}.

Record MaterialSettings {A : Arith} := mkSettings {
  repeat : num;
  normalScale : num;
  roughnessIntensity : num;
  metalnessIntensity : num;
  displacementScale : num;
}.

Arguments mkSettings {A} _ _ _ _ _.

Record AppState {A : Arith} := mkState {
  maps : PBRMaps;
  settings : MaterialSettings;
  isGenerating : bool;
  error : option string;
  showKeyPrompt : bool;
}.

Arguments mkState {A} _ _ _ _ _.

(** [s.includes(sub)] *)
Definition includes (s sub : string) : bool :=
  match String.index 0 sub s with
  | Some _ => true
  | None => false
  end.

Section App.
Context {A : Arith}.

Definition processAllMaps (st : AppState) (albedoUrl : ImageData)
           (response : ServiceResult) : AppState :=
  let st := mkState (maps st) (settings st) true None (showKeyPrompt st) in
  let st :=
    match analyzeTextureMetadata response with
    | inr metadata =>
        let normal := generateNormalMap albedoUrl (lit 2.5) in
        let roughness :=
          generateRoughnessMap albedoUrl
            (or_else (suggestedRoughness metadata) (lit 0.6) * lit 1.2)%J in
        let metalness :=
          generateMetalnessMap albedoUrl
            (ngt (or_else (suggestedMetalness metadata) (lit 0)) (lit 0.5)) in
        let ao := generateAOMap albedoUrl in
        let height := generateHeightMap albedoUrl in
        let prev := settings st in
        mkState
          (mkMaps (Some albedoUrl) (Some normal) (Some roughness)
                  (Some metalness) (Some ao) (Some height))
          (mkSettings (repeat prev) (normalScale prev)
                      (or_else (suggestedRoughness metadata) (lit 0.6))
                      (or_else (suggestedMetalness metadata) (lit 0))
                      (displacementScale prev))
          (isGenerating st) (error st) (showKeyPrompt st)
    | inl err =>
        if includes (message err) "leaked" || includes (message err) "403" then
          mkState (maps st) (settings st) (isGenerating st)
                  (Some "API Key Terblokir (Leaked). Silakan buat API Key baru di Google AI Studio!"%string)
                  true
        else
          mkState (maps st) (settings st) (isGenerating st)
                  (Some (if String.eqb (message err) "" then "Failed processing high-quality maps."%string
                         else message err))
                  (showKeyPrompt st)
    end in
  mkState (maps st) (settings st) false (error st) (showKeyPrompt st).

(** The state of [App] before anything was generated. *)
Definition initialState : AppState :=
  mkState (mkMaps None None None None None None)
          (mkSettings (lit 1) (lit 1.2) (lit 0.8) (lit 0.2) (lit 0.08))
          false None false.
End App.

(** ** Per-pixel descriptions of the generators

    What each generator is claimed to compute for one pixel, written with
    two-dimensional coordinates and channel values instead of loops and
    flat indices. *)

Section PixelSpec.
Context {A : Arith}.

(** Channel [c] of the pixel at column [x], row [y]. *)
Definition channel (img : ImageData) (x y c : nat) : option Z :=
  data img !! (4 * (y * width img + x) + c)%nat.

Definition channel0 (img : ImageData) (x y c : nat) : Z :=
  default 0 (channel img x y c).

(** Luminance of a pixel, scaled to [0, 1]. *)
Definition luminance (r g b : Z) : num :=
  ((ofZ r + ofZ g + ofZ b) / lit 765.0)%J.

(** A coordinate clamped to [0, n-1]. *)
Definition clamp_coord (n : nat) (c : Z) : nat :=
  Z.to_nat (Z.max 0 (Z.min (Z.of_nat n - 1) c)).

Definition lum_at (img : ImageData) (p : Z * Z) : num :=
  let cx := clamp_coord (width img) (fst p) in
  let cy := clamp_coord (height img) (snd p) in
  luminance (channel0 img cx cy 0) (channel0 img cx cy 1) (channel0 img cx cy 2).

(** The 3x3 neighbourhood of [(x, y)]. *)
Definition neighbourhood (x y : Z) : list (Z * Z) :=
  [ (x - 1, y - 1); (x - 1, y); (x - 1, y + 1);
    (x,     y - 1); (x,     y); (x,     y + 1);
    (x + 1, y - 1); (x + 1, y); (x + 1, y + 1) ].

Definition mean (l : list num) : num :=
  (fold_left nadd l (lit 0) / ofZ (Z.of_nat (length l)))%J.

Definition smooth_height (img : ImageData) (x y : Z) : num :=
  mean (List.map (lum_at img) (neighbourhood x y)).

(** The normalised vector [(dx, dy, dz) / |(dx, dy, dz)|]. *)
Definition normal_vector (img : ImageData) (strength : num) (x y : Z)
  : num * num * num :=
  let hL := smooth_height img (x - 1) y in
  let hR := smooth_height img (x + 1) y in
  let hU := smooth_height img x (y - 1) in
  let hD := smooth_height img x (y + 1) in
  let dx := ((hL - hR) * strength)%J in
  let dy := ((hU - hD) * strength)%J in
  let dz := lit 1.0 in
  let len := nsqrt (dx * dx + dy * dy + dz * dz)%J in
  ((dx / len)%J, (dy / len)%J, (dz / len)%J).

(** A component [v] stored as [(v * 0.5 + 0.5) * 255] in an 8-bit channel. *)
Definition encode (v : num) : Z :=
  ToUint8Clamp ((v * lit 0.5 + lit 0.5) * lit 255)%J.

Definition mean_rgb (r g b : Z) : num :=
  ((ofZ r + ofZ g + ofZ b) / lit 3)%J.

Definition clamp_0_255 (v : num) : num :=
  Math_min (lit 255) (Math_max (lit 0) v).

Definition roughness_value (r g b : Z) (multiplier : num) : num :=
  let avg := mean_rgb r g b in
  let val := ((lit 255 - avg) * multiplier)%J in
  let val := (((val / lit 255 - lit 0.5) * lit 1.5 + lit 0.5) * lit 255)%J in
  clamp_0_255 val.

Definition height_value (r g b : Z) : num :=
  let avg := mean_rgb r g b in
  let val := (((avg / lit 255 - lit 0.5) * lit 1.2 + lit 0.5) * lit 255)%J in
  clamp_0_255 val.

(** The common shape of the three grayscale loops: one value computed
    from the pixel's colour channels and stored into all three. *)
Definition gray_step (f : num -> num -> num -> num) (i : nat) (d : list Z) : list Z :=
  let v := f (get d i) (get d (i + 1)%nat) (get d (i + 2)%nat) in
  set (set (set d (i + 2)%nat v) (i + 1)%nat v) i v.

Definition gray_prefix (f : num -> num -> num -> num) (n : nat) (d : list Z) : list Z :=
  fold_left (fun s i => gray_step f i s) (List.map (fun k => (4 * k)%nat) (seq 0 n)) d.

(** The shape of the normal map's inner loop body: four stores at the
    index of pixel [(x, y)], of values that do not depend on the output
    array. *)
Definition store4 (w : nat) (F0 F1 F2 F3 : nat -> nat -> num)
           (y x : nat) (o : list Z) : list Z :=
  let idx := ((y * w + x) * 4)%nat in
  set (set (set (set o idx (F0 x y)) (idx + 1)%nat (F1 x y))
           (idx + 2)%nat (F2 x y)) (idx + 3)%nat (F3 x y).

Definition stored4 (F0 F1 F2 F3 : nat -> nat -> num) (x y c : nat) : Z :=
  match c with
  | 0%nat => ToUint8Clamp (F0 x y)
  | 1%nat => ToUint8Clamp (F1 x y)
  | 2%nat => ToUint8Clamp (F2 x y)
  | _ => ToUint8Clamp (F3 x y)
  end.
End PixelSpec.

(** ** Exact reference values and exhaustive checks

    A grayscale generator reads a pixel only through the sum of its three
    colour bytes, an integer in [0, 765]; what it stores can therefore be
    tabulated. *)

(** avg/100 * 255 for avg = s/3, as a rational number. *)
Definition ao_exact (s : Z) : Q := (inject_Z s / 3 / 100 * 255)%Q.

(** Rounding to the nearest integer, halves upwards (Math.round) and halves
    to the even neighbour. *)
Definition round_half_up (q : Q) : Z := Qfloor (q + (1 # 2))%Q.

Definition round_half_even (q : Q) : Z :=
  let f := Qfloor q in
  match (q - inject_Z f ?= (1 # 2))%Q with
  | Lt => f
  | Gt => f + 1
  | Eq => if Z.even f then f else f + 1
  end.

Section Tabulation.
Context {A : Arith}.

(** The ambient-occlusion value as a function of the channel sum. *)
Definition ao_of_sum (t : num) : num :=
  let avg := (t / lit 3)%J in
  if (avg <? lit 100)%J then ((avg / lit 100) * lit 255)%J else lit 255.
End Tabulation.

Definition bytes : list Z := seqZ 0 256.

(** Adding two, then three, channel bytes as doubles gives the double of
    their integer sum. *)
Definition sum2_check : bool :=
  forallb (fun r => forallb (fun g =>
    PrimFloat.Leibniz.eqb (float_ofZ r + float_ofZ g)%float (float_ofZ (r + g))) bytes) bytes.

Definition sum3_check : bool :=
  forallb (fun t => forallb (fun b =>
    PrimFloat.Leibniz.eqb (float_ofZ t + float_ofZ b)%float (float_ofZ (t + b))) bytes)
    (seqZ 0 511).

(** In binary64 the luminance [s / 765] of the code and the two-step
    [s / 3 / 255] are equal or adjacent doubles. *)
Definition luminance_ulp_check_at (s : Z) : bool :=
  let a := (float_ofZ s / lit (A:=Float64) 765.0)%float in
  let c := (float_ofZ s / lit (A:=Float64) 3 / lit (A:=Float64) 255)%float in
  PrimFloat.Leibniz.eqb c a || PrimFloat.Leibniz.eqb c (next_up a)
  || PrimFloat.Leibniz.eqb c (next_down a).

Definition luminance_ulp_check : bool := forallb luminance_ulp_check_at (seqZ 0 766).

(** What the ambient-occlusion generator stores for channel sum [s], in
    binary64. *)
Definition ao_byte (s : Z) : Z := ToUint8Clamp (ao_of_sum (A:=Float64) (float_ofZ s)).

Definition ao_check_at (s : Z) : bool :=
  let v := ao_byte s in
  if s <? 300 then
    (Z.abs (20 * v - 17 * s) <=? 10)
    && ((s mod 20 =? 10) || (v =? round_half_up (ao_exact s)))
  else v =? 255.

Definition ao_check : bool := forallb ao_check_at (seqZ 0 766).

(** ** Decoding a normal map *)

(** The component a stored byte [c] decodes to, (c/255 - 0.5) * 2, and the
    Euclidean norm of the vector a pixel decodes to. *)
Definition decode (c : Z) : R := ((IZR c / 255 - 1 / 2) * 2)%R.

Definition decoded_norm (r g b : Z) : R :=
  R_sqrt.sqrt ((decode r)² + (decode g)² + (decode b)²).

(** ** What a reply says *)

Section MetadataSpec.
Context {A : Arith}.

(** The number a reply carries under key [k], if it carries one. *)
Definition numeric_field (text : ResponseText) (k : string) : option num :=
  match parse_text text with
  | Some (JObject props) =>
      match assoc k props with
      | Some (JNumber n) => Some n
      | _ => None
      end
  | _ => None
  end.
End MetadataSpec.

(** ** Channel sums and tables of the roughness and height maps *)

(** Every byte of an image is a byte. *)
Definition bytes_ok (img : ImageData) : Prop :=
  Forall (fun b => 0 <= b <= 255) (data img).

(** R + G + B of the pixel at column [x], row [y]. *)
Definition pixel_sum (img : ImageData) (x y : nat) : Z :=
  channel0 img x y 0 + channel0 img x y 1 + channel0 img x y 2.

Section Tabulation2.
Context {A : Arith}.

(** The height and roughness values as functions of the channel sum. *)
Definition height_of_sum (t : num) : num :=
  let avg := (t / lit 3)%J in
  let val := (((avg / lit 255 - lit 0.5) * lit 1.2 + lit 0.5) * lit 255)%J in
  Math_min (lit 255) (Math_max (lit 0) val).

Definition roughness_of_sum (multiplier t : num) : num :=
  let avg := (t / lit 3)%J in
  let val := ((lit 255 - avg) * multiplier)%J in
  let val := (((val / lit 255 - lit 0.5) * lit 1.5 + lit 0.5) * lit 255)%J in
  Math_min (lit 255) (Math_max (lit 0) val).

(** The smoothed height of an image all of whose pixels have channel
    sum [s]: the mean of nine equal luminances. *)
Definition flat_height (s : Z) : num :=
  mean (replicate 9 (ofZ s / lit 765.0)%J).
End Tabulation2.

(** What the height and roughness generators store for channel sum [s],
    in binary64. *)
Definition height_byte (s : Z) : Z :=
  ToUint8Clamp (height_of_sum (A:=Float64) (float_ofZ s)).

Definition roughness_byte (multiplier : float) (s : Z) : Z :=
  ToUint8Clamp (roughness_of_sum (A:=Float64) multiplier (float_ofZ s)).

Definition ao_shape_check_at (s : Z) : bool :=
  let v := ao_byte s in
  (v <=? ao_byte (s + 1)) && (s <=? 3 * v) && Bool.eqb (v =? 0) (s =? 0).

Definition ao_shape_check : bool := forallb ao_shape_check_at (seqZ 0 765).

Definition height_check_at (s : Z) : bool :=
  let v := height_byte s in
  (v <=? height_byte (s + 1))
  && (if s <=? 64 then v =? 0
      else if 701 <=? s then v =? 255
      else (0 <? v) && (v <? 255) && (Z.abs (10 * v - (4 * s - 255)) <=? 5)).

Definition height_check : bool := forallb height_check_at (seqZ 0 766).

Definition roughness_check_at (s : Z) : bool :=
  let v := roughness_byte (lit 1.0) s in
  let v' := roughness_byte (lit 0.6 * lit 1.2)%float s in
  (roughness_byte (lit 1.0) (s + 1) <=? v)
  && (roughness_byte (lit 0.6 * lit 1.2)%float (s + 1) <=? v')
  && (if s <=? 128 then v =? 255
      else if 637 <=? s then v =? 0
      else (0 <? v) && (v <? 255) && (Z.abs (4 * v - (1275 - 2 * s)) <=? 2))
  && (v' <=? 212) && Bool.eqb (v' =? 0) (587 <=? s).

Definition roughness_check : bool := forallb roughness_check_at (seqZ 0 766).

Definition flat_check : bool :=
  forallb (fun s =>
    PrimFloat.Leibniz.eqb
      (flat_height (A:=Float64) s - flat_height (A:=Float64) s)%float 0%float)
    (seqZ 0 766).

(** Pixel [k] of [img] has the colour bytes [r g b] and alpha [a]. *)
Definition pixel_at (img : ImageData) (k : nat) (r g b a : Z) : Prop :=
  data img !! (4 * k)%nat = Some r /\ data img !! (4 * k + 1)%nat = Some g /\
  data img !! (4 * k + 2)%nat = Some b /\ data img !! (4 * k + 3)%nat = Some a /\
  0 <= r <= 255 /\ 0 <= g <= 255 /\ 0 <= b <= 255.

(** ** services/geminiService.ts : generateBaseTexture

    The reply of the awaited image-generation call is modelled by the parts
    of its first candidate, [response.candidates[0].content.parts]. *)

(** [inlineData] of a part: both fields are optional in the reply. *)
Record Blob := mkBlob {
  blob_data : option string;         (* [data], base64 text *)
  mimeType : option string;
}.

Record Part := mkPart {
  inlineData : option Blob;
  text : option string;
}.

(** A value spliced into a template literal: [undefined] reads "undefined". *)
Definition template_value (v : option string) : string :=
  match v with
  | Some s => s
  | None => "undefined"
  end.

Definition dataUrl (d : string) : string := ("data:image/png;base64," ++ d)%string.

(** The loop over the parts: the first part that has an [inlineData] object
    is returned, whether or not that object has [data]. *)
Fixpoint firstInline (parts : list Part) : JsError + string :=
  match parts with
  | [] => inl (mkError "Failed to generate HD texture image.")
  | part :: rest =>
      match inlineData part with
      | Some blob => inr (dataUrl (template_value (blob_data blob)))
      | None => firstInline rest
      end
  end.

Definition generateBaseTexture (reply : JsError + list Part) : JsError + string :=
  match reply with
  | inl err => inl err
  | inr parts => firstInline parts
  end.

(** [s.split(sep)] for a one-character separator. *)
Fixpoint split_on (sep : ascii) (s : string) : list string :=
  match s with
  | EmptyString => [EmptyString]
  | String c rest =>
      if Ascii.eqb c sep then EmptyString :: split_on sep rest
      else match split_on sep rest with
           | hd :: tl => String c hd :: tl
           | [] => [String c EmptyString]
           end
  end.

(** [imageUrl.split(',')[1]], the payload [analyzeTextureMetadata] sends;
    [None] is [undefined]. *)
Definition inlinePayload (imageUrl : string) : option string :=
  split_on "," imageUrl !! 1%nat.

(** ** App.tsx : handleGenerate and the export button *)

Section AppHandlers.
Context {A : Arith}.

(** [base] is the outcome of the awaited [generateBaseTexture(prompt)], the
    data URL being modelled by the image it encodes. *)
Definition handleGenerate (st : AppState) (prompt : string)
           (base : JsError + ImageData) (response : ServiceResult) : AppState :=
  if String.eqb prompt "" then st
  else
    let st := mkState (maps st) (settings st) true None (showKeyPrompt st) in
    match base with
    | inr albedoUrl => processAllMaps st albedoUrl response
    | inl err =>
        let st :=
          if includes (message err) "leaked" || includes (message err) "403" then
            mkState (maps st) (settings st) (isGenerating st)
                    (Some "API Key Terblokir (Leaked). Silakan buat API Key baru di Google AI Studio!"%string)
                    true
          else if includes (message err) "Requested entity was not found" then
            mkState (maps st) (settings st) (isGenerating st) (error st) true
          else
            mkState (maps st) (settings st) (isGenerating st)
                    (Some (if String.eqb (message err) "" then "Generation failed."%string
                           else message err))
                    (showKeyPrompt st) in
        mkState (maps st) (settings st) false (error st) (showKeyPrompt st)
    end.
End AppHandlers.

Inductive MapType := Albedo | Normal | Roughness | Metalness | Ao | Height.

Definition mapKey (m : MapType) : string :=
  match m with
  | Albedo => "albedo" | Normal => "normal" | Roughness => "roughness"
  | Metalness => "metalness" | Ao => "ao" | Height => "height"
  end.

(** [maps[m]] *)
Definition getMap (maps : PBRMaps) (m : MapType) : option ImageData :=
  match m with
  | Albedo => albedo maps | Normal => normal maps | Roughness => roughness maps
  | Metalness => metalness maps | Ao => ao maps | Height => height_ maps
  end.

(** [s.toUpperCase()] on ASCII text. *)
Definition upper (c : ascii) : ascii :=
  let n := nat_of_ascii c in
  if (97 <=? n)%nat && (n <=? 122)%nat then ascii_of_nat (n - 32) else c.

Fixpoint toUpperCase (s : string) : string :=
  match s with
  | EmptyString => EmptyString
  | String c rest => String (upper c) (toUpperCase rest)
  end.

(** [downloadMap(url, name)]: the downloads it starts, each a link target
    with its file name. *)
Definition downloadMap (url : option ImageData) (name : string)
  : list (ImageData * string) :=
  match url with
  | None => []
  | Some u => [(u, ("PBR_" ++ name ++ ".png")%string)]
  end.

(** The click handler of the EXPORT ALL button. *)
Definition exportAll (maps : PBRMaps) : list (ImageData * string) :=
  flat_map (fun m =>
              match getMap maps m with
              | Some u => downloadMap (Some u) (toUpperCase (mapKey m))
              | None => []
              end)
           [Albedo; Normal; Roughness; Metalness; Ao; Height].

(** ** App.tsx : checkKey *)

(** The AI Studio bridge [window.aistudio] as [checkKey] meets it. *)
Inductive Bridge :=
| NoBridge                           (* [window.aistudio] is undefined *)
| BridgeFails                        (* [hasSelectedApiKey] throws or rejects *)
| BridgeReports (hasKey : bool).

(** The value [checkKey] gives to [setShowKeyPrompt]; [envKey] is
    [process.env.API_KEY], [None] when undefined. *)
Definition checkKey (envKey : option string) (aistudio : Bridge) : bool :=
  let usable :=
    match envKey with
    | Some k =>
        negb (String.eqb k "") && negb (String.eqb k "undefined")
        && (10 <? String.length k)%nat
    | None => false
    end in
  if usable then false
  else match aistudio with
       | BridgeReports hasKey => negb hasKey
       | NoBridge => true
       | BridgeFails => true
       end.

(** ** The real number a double stands for *)

Definition bpow (e : Z) : R := powerRZ 2 e.

Definition SF2R (f : spec_float) : R :=
  match f with
  | S754_finite s m e => ((if s then -1 else 1) * (IZR (Z.pos m) * bpow e))%R
  | _ => 0%R
  end.

Definition SFfinite (f : spec_float) : bool :=
  match f with
  | S754_finite _ _ _ | S754_zero _ => true
  | _ => false
  end.

(** The value of a finite double, and the test for being one (neither NaN
    nor an infinity). *)
Definition B2R (x : float) : R := SF2R (Prim2SF x).
Definition is_finite (x : float) : bool := SFfinite (Prim2SF x).

(** The relative and the absolute error unit of the binary64 operations. *)
Definition eps : R := bpow (-52).
Definition eta : R := bpow (-1074).

(** [f] is the finite double of value [n / 2^k]. *)
Definition SF_dyadic (f : spec_float) (n k : Z) : bool :=
  match f with
  | S754_zero _ => n =? 0
  | S754_finite s m e =>
      if e <? 0 then cond_Zopp s (Z.pos m) * 2 ^ k =? n * 2 ^ (- e)
      else cond_Zopp s (Z.pos m) * 2 ^ e * 2 ^ k =? n
  | _ => false
  end.

Definition is_dyadic (x : float) (n k : Z) : bool := SF_dyadic (Prim2SF x) n k.

(** The integers the program converts to doubles are converted exactly. *)
Definition ofZ_check : bool := forallb (fun c => is_dyadic (float_ofZ c) c 0) (seqZ 0 766).

(** The luminance of every channel sum is a finite double in [0, 1]. *)
Definition luminance_range_check : bool :=
  forallb (fun s =>
    let l := (float_ofZ s / lit (A:=Float64) 765.0)%float in
    is_finite l && nle (A:=Float64) (lit 0) l && nle (A:=Float64) l (lit 1))
    (seqZ 0 766).

(** The largest strength for which the normal map is analysed: 2^500. *)
Definition max_strength : float := 0x1p500%float.

(** * Properties *)

(** ** Exhaustive checks over a range *)

Lemma forallb_seqZ (P : Z -> bool) m n x :
  forallb P (seqZ m n) = true -> m <= x < m + n -> P x = true.
Proof.
  intros Hall Hx. rewrite forallb_forall in Hall. apply Hall.
  apply list_elem_of_In, elem_of_seqZ. exact Hx.
Qed.

(** The decimal literals of the source, read by [lit] in binary64, are the
    doubles that the literals denote. *)
#[warnings="-inexact-float"]
Lemma lit_float_literals :
  lit (A:=Float64) 0.5 = 0.5%float /\ lit (A:=Float64) 1.5 = 1.5%float /\
  lit (A:=Float64) 1.2 = 1.2%float /\ lit (A:=Float64) 0.6 = 0.6%float /\
  lit (A:=Float64) 2.5 = 2.5%float /\ lit (A:=Float64) 1.0 = 1%float /\
  lit (A:=Float64) 765.0 = 765%float /\ lit (A:=Float64) 255 = 255%float /\
  lit (A:=Float64) 100 = 100%float /\ lit (A:=Float64) 3 = 3%float /\
  lit (A:=Float64) 0 = 0%float /\ lit (A:=Float64) 0.0 = 0%float.
Proof. repeat split; reflexivity. Qed.

(** ** The store conversion *)

Section ClampFacts.
Context {A : Arith}.

Lemma floor_bits_range k acc (x : num) :
  acc <= floor_bits k acc x <= acc + 2 ^ Z.of_nat k - 1.
Proof.
  revert acc; induction k as [|k IH]; intros acc.
  - simpl. lia.
  - cbn [floor_bits]. rewrite Nat2Z.inj_succ, Z.pow_succ_r by lia.
    assert (0 < 2 ^ Z.of_nat k) by (apply Z.pow_pos_nonneg; lia).
    destruct (nle _ x); [specialize (IH (acc + 2 ^ Z.of_nat k))|specialize (IH acc)]; lia.
Qed.

Lemma floor_bits_top k acc (x : num) :
  (0 < k)%nat ->
  floor_bits k acc x = acc + 2 ^ Z.of_nat k - 1 ->
  nle (ofZ (acc + 2 ^ Z.of_nat k - 1)) x = true.
Proof.
  revert acc; induction k as [|k IH]; intros acc Hk; [lia|].
  cbn [floor_bits]. rewrite Nat2Z.inj_succ, Z.pow_succ_r by lia.
  assert (0 < 2 ^ Z.of_nat k) by (apply Z.pow_pos_nonneg; lia).
  destruct (nle (ofZ (acc + 2 ^ Z.of_nat k)) x) eqn:E; intros Hf.
  - destruct k as [|k].
    + change (Z.of_nat 0) with 0 in *. rewrite Z.pow_0_r in *.
      replace (acc + 2 * 1 - 1) with (acc + 1) by lia. exact E.
    + replace (acc + 2 * 2 ^ Z.of_nat (S k) - 1)
        with (acc + 2 ^ Z.of_nat (S k) + 2 ^ Z.of_nat (S k) - 1) by lia.
      apply IH; lia.
  - pose proof (floor_bits_range k acc x). lia.
Qed.

(** Whatever is stored, the array holds a byte afterwards. *)
Lemma ToUint8Clamp_range (x : num) : 0 <= ToUint8Clamp x <= 255.
Proof.
  unfold ToUint8Clamp.
  destruct (isNaN x); [lia|].
  destruct (nle x (ofZ 0)); [lia|].
  destruct (nle (ofZ 255) x) eqn:E255; [lia|].
  pose proof (floor_bits_range 8 0 x) as Hr.
  assert (floor_bits 8 0 x <> 255) as Hne.
  { intros Hf. pose proof (floor_bits_top 8 0 x ltac:(lia) Hf) as Ht.
    change (0 + 2 ^ Z.of_nat 8 - 1) with 255 in Ht. congruence. }
  change (0 + 2 ^ Z.of_nat 8 - 1) with 255 in Hr.
  repeat match goal with |- context [if ?c then _ else _] => destruct c end; lia.
Qed.
End ClampFacts.

(** ** The grayscale loops *)

Section GrayLoop.
Context {A : Arith} (f : num -> num -> num -> num).

Lemma get_Some (d : list Z) i b : d !! i = Some b -> get d i = ofZ b.
Proof. unfold get. intros ->. reflexivity. Qed.

Lemma set_length (d : list Z) i (v : num) : length (set d i v) = length d.
Proof. apply length_insert. Qed.

Lemma set_lookup_ne (d : list Z) i j (v : num) : i <> j -> set d i v !! j = d !! j.
Proof. apply list_lookup_insert_ne. Qed.

Lemma set_lookup_eq (d : list Z) i (v : num) :
  (i < length d)%nat -> set d i v !! i = Some (ToUint8Clamp v).
Proof. apply list_lookup_insert_eq. Qed.

Lemma gray_step_length i d : length (gray_step f i d) = length d.
Proof. unfold gray_step. rewrite !set_length. reflexivity. Qed.

Lemma gray_step_other i d j :
  (j < i \/ i + 3 <= j)%nat -> gray_step f i d !! j = d !! j.
Proof.
  intros Hj. unfold gray_step. rewrite !set_lookup_ne by lia. reflexivity.
Qed.

Lemma gray_prefix_S n d :
  gray_prefix f (S n) d = gray_step f (4 * n) (gray_prefix f n d).
Proof.
  unfold gray_prefix. rewrite seq_S, List.map_app, fold_left_app. reflexivity.
Qed.

Lemma gray_prefix_length n d : length (gray_prefix f n d) = length d.
Proof.
  induction n as [|n IH]; [reflexivity|].
  rewrite gray_prefix_S, gray_step_length. exact IH.
Qed.

(** Pixels the loop has not reached yet are untouched. *)
Lemma gray_prefix_above n d j :
  (4 * n <= j)%nat -> gray_prefix f n d !! j = d !! j.
Proof.
  induction n as [|n IH]; intros Hj; [reflexivity|].
  rewrite gray_prefix_S, gray_step_other by lia. apply IH. lia.
Qed.

(** Alpha channels are never written. *)
Lemma gray_prefix_alpha n d k :
  gray_prefix f n d !! (4 * k + 3)%nat = d !! (4 * k + 3)%nat.
Proof.
  induction n as [|n IH]; [reflexivity|].
  rewrite gray_prefix_S. unfold gray_step.
  rewrite !set_lookup_ne by lia. exact IH.
Qed.

(** A pixel the loop has passed holds the value computed from its old
    colour channels, in all three of them. *)
Lemma gray_prefix_pixel n d k r g b c :
  (k < n)%nat -> (c < 3)%nat ->
  d !! (4 * k)%nat = Some r ->
  d !! (4 * k + 1)%nat = Some g ->
  d !! (4 * k + 2)%nat = Some b ->
  gray_prefix f n d !! (4 * k + c)%nat
    = Some (ToUint8Clamp (f (ofZ r) (ofZ g) (ofZ b))).
Proof.
  intros Hk Hc Hr Hg Hb.
  induction n as [|n IH]; [lia|].
  rewrite gray_prefix_S.
  destruct (decide (k = n)) as [->|Hne].
  - unfold gray_step.
    rewrite (get_Some _ (4 * n) r), (get_Some _ (4 * n + 1) g),
      (get_Some _ (4 * n + 2) b)
      by (rewrite gray_prefix_above by lia; assumption).
    pose proof (lookup_lt_Some _ _ _ Hb) as Hlen.
    assert (c = 0 \/ c = 1 \/ c = 2)%nat as [->|[->| ->]] by lia.
    + rewrite Nat.add_0_r. apply set_lookup_eq.
      rewrite !set_length, gray_prefix_length. lia.
    + rewrite set_lookup_ne by lia. apply set_lookup_eq.
      rewrite !set_length, gray_prefix_length. lia.
    + rewrite !set_lookup_ne by lia. apply set_lookup_eq.
      rewrite gray_prefix_length. lia.
  - rewrite gray_step_other by lia. apply IH. lia.
Qed.

(** The whole loop over an array of [len] bytes. *)
Lemma for_stride4_gray d :
  for_stride4 (length d) (gray_step f) d = gray_prefix f ((length d + 3) / 4) d.
Proof. reflexivity. Qed.

Lemma gray_loop_pixel d k r g b a :
  d !! (4 * k)%nat = Some r ->
  d !! (4 * k + 1)%nat = Some g ->
  d !! (4 * k + 2)%nat = Some b ->
  d !! (4 * k + 3)%nat = Some a ->
  let v := ToUint8Clamp (f (ofZ r) (ofZ g) (ofZ b)) in
  let d' := for_stride4 (length d) (gray_step f) d in
  d' !! (4 * k)%nat = Some v /\ d' !! (4 * k + 1)%nat = Some v /\
  d' !! (4 * k + 2)%nat = Some v /\ d' !! (4 * k + 3)%nat = Some a.
Proof.
  intros Hr Hg Hb Ha v d'. subst d'. rewrite for_stride4_gray.
  pose proof (lookup_lt_Some _ _ _ Ha) as Hlen.
  assert (k < (length d + 3) / 4)%nat as Hk.
  { apply Nat.div_le_lower_bound; lia. }
  repeat split.
  - rewrite <- (Nat.add_0_r (4 * k)). eapply gray_prefix_pixel; eauto.
  - eapply gray_prefix_pixel; eauto.
  - eapply gray_prefix_pixel; eauto.
  - rewrite gray_prefix_alpha. exact Ha.
Qed.
End GrayLoop.

(** ** Roughness and height maps *)

(** C5: for every pixel [k] of the input, with colour channels [r g b] and
    alpha [a], and every multiplier, the roughness generator computes
    avg = mean(R,G,B), val = (255 - avg) * multiplier,
    val = ((val/255 - 0.5) * 1.5 + 0.5) * 255, clamps it to [0,255]
    ([roughness_value]) and stores that one value, as a byte, in R, G and B;
    the alpha channel keeps its input value. *)
Theorem generateRoughnessMap_pixel {A : Arith} (img : ImageData) (multiplier : num)
    (k : nat) (r g b a : Z) :
  data img !! (4 * k)%nat = Some r ->
  data img !! (4 * k + 1)%nat = Some g ->
  data img !! (4 * k + 2)%nat = Some b ->
  data img !! (4 * k + 3)%nat = Some a ->
  let out := data (generateRoughnessMap img multiplier) in
  let v := ToUint8Clamp (roughness_value r g b multiplier) in
  0 <= v <= 255 /\
  out !! (4 * k)%nat = Some v /\ out !! (4 * k + 1)%nat = Some v /\
  out !! (4 * k + 2)%nat = Some v /\ out !! (4 * k + 3)%nat = Some a.
Proof.
  intros Hr Hg Hb Ha out v. split; [apply ToUint8Clamp_range|].
  exact (gray_loop_pixel
           (fun R G B =>
              clamp_0_255 ((((lit 255 - (R + G + B) / lit 3) * multiplier / lit 255
                             - lit 0.5) * lit 1.5 + lit 0.5) * lit 255)%J)
           (data img) k r g b a Hr Hg Hb Ha).
Qed.

Lemma generateRoughnessMap_pixel_witness :
  let img := mkImageData 1 1 [10; 20; 30; 255] in
  let out := data (generateRoughnessMap (A:=Float64) img (lit 0.72)) in
  let v := ToUint8Clamp (roughness_value (A:=Float64) 10 20 30 (lit 0.72)) in
  0 <= v <= 255 /\
  out !! 0%nat = Some v /\ out !! 1%nat = Some v /\
  out !! 2%nat = Some v /\ out !! 3%nat = Some 255.
Proof.
  exact (generateRoughnessMap_pixel (A:=Float64) (mkImageData 1 1 [10; 20; 30; 255])
           (lit 0.72) 0 10 20 30 255 eq_refl eq_refl eq_refl eq_refl).
Defined.

(** C6: for every pixel [k] of the input the height generator computes
    avg = mean(R,G,B), val = ((avg/255 - 0.5) * 1.2 + 0.5) * 255, clamps it
    to [0,255] ([height_value]) and stores that one value, as a byte, in R,
    G and B. *)
Theorem generateHeightMap_pixel {A : Arith} (img : ImageData) (k : nat) (r g b a : Z) :
  data img !! (4 * k)%nat = Some r ->
  data img !! (4 * k + 1)%nat = Some g ->
  data img !! (4 * k + 2)%nat = Some b ->
  data img !! (4 * k + 3)%nat = Some a ->
  let out := data (generateHeightMap img) in
  let v := ToUint8Clamp (height_value r g b) in
  0 <= v <= 255 /\
  out !! (4 * k)%nat = Some v /\ out !! (4 * k + 1)%nat = Some v /\
  out !! (4 * k + 2)%nat = Some v /\ out !! (4 * k + 3)%nat = Some a.
Proof.
  intros Hr Hg Hb Ha out v. split; [apply ToUint8Clamp_range|].
  exact (gray_loop_pixel
           (fun R G B =>
              clamp_0_255 ((((R + G + B) / lit 3 / lit 255 - lit 0.5) * lit 1.2
                            + lit 0.5) * lit 255)%J)
           (data img) k r g b a Hr Hg Hb Ha).
Qed.

Lemma generateHeightMap_pixel_witness :
  let img := mkImageData 1 1 [10; 20; 30; 255] in
  let out := data (generateHeightMap (A:=Float64) img) in
  let v := ToUint8Clamp (height_value (A:=Float64) 10 20 30) in
  0 <= v <= 255 /\
  out !! 0%nat = Some v /\ out !! 1%nat = Some v /\
  out !! 2%nat = Some v /\ out !! 3%nat = Some 255.
Proof.
  exact (generateHeightMap_pixel (A:=Float64) (mkImageData 1 1 [10; 20; 30; 255])
           0 10 20 30 255 eq_refl eq_refl eq_refl eq_refl).
Defined.

(** ** Metalness map *)

Lemma fillRect_length w h r g b : length (fillRect w h r g b) = (4 * (w * h))%nat.
Proof.
  unfold fillRect. induction (w * h)%nat as [|n IH]; [reflexivity|].
  cbn [replicate List.concat]. rewrite length_app, IH. simpl. lia.
Qed.

Lemma fillRect_lookup w h r g b p c :
  (p < w * h)%nat -> (c < 4)%nat ->
  fillRect w h r g b !! (4 * p + c)%nat = [r; g; b; 255] !! c.
Proof.
  unfold fillRect. generalize (w * h)%nat as n. intros n; revert p.
  induction n as [|n IH]; intros p Hp Hc; [lia|].
  cbn [replicate List.concat].
  destruct p as [|p].
  - rewrite lookup_app_l by (simpl; lia). reflexivity.
  - rewrite lookup_app_r by (simpl; lia).
    replace (4 * S p + c - length [r; g; b; 255%Z])%nat with (4 * p + c)%nat
      by (simpl; lia).
    apply IH; lia.
Qed.

(** C4: for every input image and every [isMetal], the metalness map has
    the input's dimensions, every pixel of it is (v, v, v) with v = 255 when
    [isMetal] and v = 0 otherwise (on an opaque alpha), and the result is the
    same for any two inputs of equal dimensions, whatever their pixels. *)
Theorem generateMetalnessMap_uniform (img : ImageData) (isMetal : bool) :
  let out := generateMetalnessMap img isMetal in
  let v := if isMetal then 255 else 0 in
  width out = width img /\ height out = height img /\
  (forall x y, (x < width img)%nat -> (y < height img)%nat ->
     channel out x y 0 = Some v /\ channel out x y 1 = Some v /\
     channel out x y 2 = Some v /\ channel out x y 3 = Some 255) /\
  (forall img', width img' = width img -> height img' = height img ->
     generateMetalnessMap img' isMetal = out).
Proof.
  cbv zeta. repeat split.
  1-4: unfold channel, generateMetalnessMap; cbn [data width height];
       rewrite fillRect_lookup by nia; reflexivity.
  intros img' Hw Hh. unfold generateMetalnessMap. rewrite Hw, Hh. reflexivity.
Qed.

(** ** The normal map *)

Lemma for_range_S {St : Type} n (body : nat -> St -> St) (s : St) :
  for_range (S n) body s = body n (for_range n body s).
Proof. unfold for_range. rewrite seq_S, fold_left_app. reflexivity. Qed.

Section NormalLoop.
Context {A : Arith} (w : nat) (F0 F1 F2 F3 : nat -> nat -> num).

Local Abbreviation store := (store4 w F0 F1 F2 F3).
Local Abbreviation stored := (stored4 F0 F1 F2 F3).

Lemma store_length y x o : length (store y x o) = length o.
Proof. unfold store4. rewrite !set_length. reflexivity. Qed.

Lemma store_other y x o j :
  (j < 4 * (y * w + x) \/ 4 * (y * w + x) + 4 <= j)%nat -> store y x o !! j = o !! j.
Proof. intros Hj. unfold store4. rewrite !set_lookup_ne by lia. reflexivity. Qed.

Lemma store_here y x o c :
  (c < 4)%nat -> (4 * (y * w + x) + c < length o)%nat ->
  store y x o !! (4 * (y * w + x) + c)%nat = Some (stored x y c).
Proof.
  intros Hc Hlen. unfold store4.
  replace ((y * w + x) * 4)%nat with (4 * (y * w + x))%nat by lia.
  destruct c as [|[|[|[|c]]]]; [| | | |lia]; cbn [stored4].
  - rewrite Nat.add_0_r in *. rewrite !set_lookup_ne by lia.
    apply set_lookup_eq. lia.
  - rewrite !set_lookup_ne by lia. apply set_lookup_eq. rewrite set_length. lia.
  - rewrite !set_lookup_ne by lia. apply set_lookup_eq. rewrite !set_length. lia.
  - apply set_lookup_eq. rewrite !set_length. lia.
Qed.

Lemma row_length y n o : length (for_range n (store y) o) = length o.
Proof.
  induction n as [|n IH]; [reflexivity|].
  rewrite for_range_S, store_length. exact IH.
Qed.

Lemma row_other y n o j :
  (j < 4 * (y * w) \/ 4 * (y * w + n) <= j)%nat ->
  for_range n (store y) o !! j = o !! j.
Proof.
  induction n as [|n IH]; intros Hj; [reflexivity|].
  rewrite for_range_S, store_other by lia. apply IH. lia.
Qed.

Lemma row_here y n o x c :
  (x < n)%nat -> (c < 4)%nat -> (4 * (y * w + x) + c < length o)%nat ->
  for_range n (store y) o !! (4 * (y * w + x) + c)%nat = Some (stored x y c).
Proof.
  intros Hx Hc Hlen. induction n as [|n IH]; [lia|].
  rewrite for_range_S.
  destruct (decide (x = n)) as [->|Hne].
  - apply store_here; [assumption|]. rewrite row_length. exact Hlen.
  - rewrite store_other by lia. apply IH. lia.
Qed.

Lemma rows_length m o :
  length (for_range m (fun y o => for_range w (store y) o) o) = length o.
Proof.
  induction m as [|m IH]; [reflexivity|].
  rewrite for_range_S, row_length. exact IH.
Qed.

Lemma rows_here m o x y c :
  (y < m)%nat -> (x < w)%nat -> (c < 4)%nat ->
  (4 * (y * w + x) + c < length o)%nat ->
  for_range m (fun y o => for_range w (store y) o) o !! (4 * (y * w + x) + c)%nat
    = Some (stored x y c).
Proof.
  intros Hy Hx Hc Hlen. induction m as [|m IH]; [lia|].
  rewrite for_range_S.
  destruct (decide (y = m)) as [->|Hne].
  - apply row_here; [assumption..|]. rewrite rows_length. exact Hlen.
  - rewrite row_other by nia. apply IH. lia.
Qed.
End NormalLoop.

Section SmoothHeight.
Context {A : Arith} (img : ImageData).
Hypothesis Hlen : length (data img) = (4 * (width img * height img))%nat.
Hypothesis Hw : (0 < width img)%nat.
Hypothesis Hh : (0 < height img)%nat.

(** Clamping keeps every read of the 3x3 window inside the array. *)
Lemma getZ_in_range (X Y : Z) (c : nat) :
  (c < 3)%nat ->
  let nx := Z.max 0 (Z.min (Z.of_nat (width img) - 1) X) in
  let ny := Z.max 0 (Z.min (Z.of_nat (height img) - 1) Y) in
  getZ (data img) ((nx + ny * Z.of_nat (width img)) * 4 + Z.of_nat c)
  = ofZ (channel0 img (clamp_coord (width img) X) (clamp_coord (height img) Y) c).
Proof.
  intros Hc nx ny. unfold getZ.
  assert (0 <= nx) by (subst nx; lia).
  assert (0 <= ny) by (subst ny; lia).
  destruct (Z.ltb_spec ((nx + ny * Z.of_nat (width img)) * 4 + Z.of_nat c) 0) as [Hneg|_];
    [nia|].
  unfold channel0, channel, get, clamp_coord. fold nx ny.
  replace (Z.to_nat ((nx + ny * Z.of_nat (width img)) * 4 + Z.of_nat c))
    with (4 * (Z.to_nat ny * width img + Z.to_nat nx) + c)%nat by nia.
  assert (Z.to_nat nx < width img)%nat by (subst nx; lia).
  assert (Z.to_nat ny < height img)%nat by (subst ny; lia).
  destruct (lookup_lt_is_Some_2 (data img)
              (4 * (Z.to_nat ny * width img + Z.to_nat nx) + c)%nat) as [b Hb];
    [rewrite Hlen; nia|].
  rewrite Hb. reflexivity.
Qed.

(** The loop of [getSmoothHeight] computes the mean luminance of the
    clamped 3x3 neighbourhood. *)
Lemma getSmoothHeight_mean (X Y : Z) :
  getSmoothHeight (width img) (height img) (data img) X Y = smooth_height img X Y.
Proof.
  unfold getSmoothHeight, smooth_height, mean, neighbourhood.
  cbn [fold_left List.map length fst snd lum_at].
  unfold lum_at, luminance. cbn [fst snd].
  pose proof (fun X Y => getZ_in_range X Y 0 ltac:(lia)) as G0.
  pose proof (fun X Y => getZ_in_range X Y 1 ltac:(lia)) as G1.
  pose proof (fun X Y => getZ_in_range X Y 2 ltac:(lia)) as G2.
  cbv zeta in G0, G1, G2. change (Z.of_nat 0) with 0 in G0.
  change (Z.of_nat 1) with 1 in G1. change (Z.of_nat 2) with 2 in G2.
  setoid_rewrite Z.add_0_r in G0.
  rewrite !G0, !G1, !G2, !Z.add_0_r. reflexivity.
Qed.
End SmoothHeight.

(** Every channel of every output pixel of the normal map, in any
    arithmetic. *)
Lemma generateNormalMap_channels {A : Arith} (img : ImageData) (strength : num)
    (x y : nat) :
  length (data img) = (4 * (width img * height img))%nat ->
  (x < width img)%nat -> (y < height img)%nat ->
  let out := generateNormalMap img strength in
  let v := normal_vector img strength (Z.of_nat x) (Z.of_nat y) in
  channel out x y 0 = Some (encode (fst (fst v))) /\
  channel out x y 1 = Some (encode (snd (fst v))) /\
  channel out x y 2 = Some (encode (snd v)) /\
  channel out x y 3 = Some (ToUint8Clamp (lit 255)).
Proof.
  intros Hlen Hx Hy out v.
  set (gsh := getSmoothHeight (width img) (height img) (data img)).
  set (dx := fun x y : nat =>
         ((gsh (Z.of_nat x - 1)%Z (Z.of_nat y) - gsh (Z.of_nat x + 1)%Z (Z.of_nat y))
          * strength)%J).
  set (dy := fun x y : nat =>
         ((gsh (Z.of_nat x) (Z.of_nat y - 1)%Z - gsh (Z.of_nat x) (Z.of_nat y + 1)%Z)
          * strength)%J).
  set (len := fun x y : nat =>
         nsqrt (dx x y * dx x y + dy x y * dy x y + lit 1.0 * lit 1.0)%J).
  set (F0 := fun x y : nat => (((dx x y / len x y) * lit 0.5 + lit 0.5) * lit 255)%J).
  set (F1 := fun x y : nat => (((dy x y / len x y) * lit 0.5 + lit 0.5) * lit 255)%J).
  set (F2 := fun x y : nat => (((lit 1.0 / len x y) * lit 0.5 + lit 0.5) * lit 255)%J).
  set (F3 := fun _ _ : nat => lit 255).
  assert (forall c, (c < 4)%nat ->
            channel out x y c = Some (stored4 F0 F1 F2 F3 x y c)) as Hch.
  { intros c Hc. unfold channel. subst out. cbn [data width].
    apply (rows_here (width img) F0 F1 F2 F3 (height img)); try assumption.
    rewrite length_replicate. nia. }
  assert (forall X Y, gsh X Y = smooth_height img X Y) as Hg.
  { intros X Y. apply getSmoothHeight_mean; [assumption|lia..]. }
  assert (v = ((dx x y / len x y)%J, (dy x y / len x y)%J, (lit 1.0 / len x y)%J)) as ->.
  { subst v len dx dy. unfold normal_vector. rewrite !Hg. reflexivity. }
  cbn [fst snd]. unfold encode.
  repeat split; rewrite Hch by lia; reflexivity.
Qed.

(** In exact arithmetic the luminance [(R+G+B)/765] of the code is the
    [(R+G+B)/3/255] of the description. *)
Lemma luminance_exact (r g b : Z) :
  luminance (A:=Exact) r g b = (IZR (r + g + b) / 3 / 255)%R.
Proof.
  unfold luminance, lit. cbn. rewrite !plus_IZR. field.
Qed.

Lemma luminance_ulp_check_ok : luminance_ulp_check = true.
Proof. vm_compute. reflexivity. Qed.

(** In binary64 the two agree up to one unit in the last place, for every
    channel sum. *)
Lemma luminance_float_ulp (s : Z) :
  0 <= s <= 765 ->
  let a := (ofZ (Arith:=Float64) s / lit 765.0)%J in
  let c := (ofZ (Arith:=Float64) s / lit 3 / lit 255)%J in
  c = a \/ c = next_up a \/ c = next_down a.
Proof.
  intros Hs a c.
  pose proof (forallb_seqZ _ 0 766 s luminance_ulp_check_ok ltac:(lia)) as H.
  unfold luminance_ulp_check_at in H.
  apply orb_prop in H as [H|H]; [apply orb_prop in H as [H|H]|];
    apply FloatAxioms.Leibniz.eqb_spec in H; auto.
Qed.

(** C1: for every image and every pixel (x, y) of it, the normal map holds,
    in double-precision arithmetic, the bytes of (v * 0.5 + 0.5) * 255 for
    the three components v of (dx, dy, dz) / |(dx, dy, dz)| and alpha 255,
    where dx = (hL - hR) * strength, dy = (hU - hD) * strength, dz = 1.0 and
    hL, hR, hU, hD are the smoothed heights at (x-1,y), (x+1,y), (x,y-1),
    (x,y+1).  The smoothed height [smooth_height] is the mean over the 3x3
    neighbourhood, coordinates clamped to the image, of the luminance
    [luminance], computed as (R+G+B)/765; that is (R+G+B)/3/255 (last
    conjunct, in exact arithmetic; in doubles the two agree to one unit in
    the last place, [luminance_float_ulp]). *)
Theorem generateNormalMap_pixel (img : ImageData) (strength : @num Float64) (x y : nat) :
  length (data img) = (4 * (width img * height img))%nat ->
  (x < width img)%nat -> (y < height img)%nat ->
  let out := generateNormalMap (A:=Float64) img strength in
  let h := smooth_height (A:=Float64) img in
  let X := Z.of_nat x in
  let Y := Z.of_nat y in
  let dx := ((h (X - 1)%Z Y - h (X + 1)%Z Y) * strength)%J in
  let dy := ((h X (Y - 1)%Z - h X (Y + 1)%Z) * strength)%J in
  let dz := lit 1.0 in
  let len := nsqrt (dx * dx + dy * dy + dz * dz)%J in
  (channel out x y 0 = Some (encode (dx / len)%J) /\
   channel out x y 1 = Some (encode (dy / len)%J) /\
   channel out x y 2 = Some (encode (dz / len)%J) /\
   channel out x y 3 = Some 255) /\
  (forall r g b : Z, luminance (A:=Exact) r g b = (IZR (r + g + b) / 3 / 255)%R).
Proof.
  intros Hlen Hx Hy. split.
  - exact (generateNormalMap_channels (A:=Float64) img strength x y Hlen Hx Hy).
  - exact luminance_exact.
Qed.

Lemma generateNormalMap_pixel_witness :
  let img := mkImageData 2 1 [0; 0; 0; 255; 255; 255; 255; 255] in
  let out := generateNormalMap (A:=Float64) img (lit 2.5) in
  channel out 1 0 0 = Some 18 /\ channel out 1 0 1 = Some 128 /\
  channel out 1 0 2 = Some 193 /\ channel out 1 0 3 = Some 255.
Proof.
  exact (proj1
    (generateNormalMap_pixel (mkImageData 2 1 [0; 0; 0; 255; 255; 255; 255; 255])
       (lit (A:=Float64) 2.5) 1 0 eq_refl ltac:(cbn; lia) ltac:(cbn; lia))).
Defined.

(** ** Dimensions *)

Lemma fold_left_preserves {St B : Type} (P : St -> Prop) (f : St -> B -> St) l s :
  (forall s b, P s -> P (f s b)) -> P s -> P (fold_left f l s).
Proof.
  intros Hf. revert s. induction l as [|b l IH]; intros s Hs; [exact Hs|].
  apply IH, Hf, Hs.
Qed.

Lemma generateNormalMap_length {A : Arith} img (strength : num) :
  length (data (generateNormalMap img strength)) = (4 * (width img * height img))%nat.
Proof.
  unfold generateNormalMap, for_range. cbn [data].
  apply (fold_left_preserves
           (fun o : list Z => length o = (4 * (width img * height img))%nat));
    [|apply length_replicate].
  intros o y Ho.
  apply (fold_left_preserves
           (fun o : list Z => length o = (4 * (width img * height img))%nat));
    [|exact Ho].
  intros o' x Ho'. rewrite !set_length. exact Ho'.
Qed.

Lemma for_stride4_length {A : Arith} (body : nat -> list Z -> list Z) d :
  (forall i o, length (body i o) = length o) ->
  length (for_stride4 (length d) body d) = length d.
Proof.
  intros Hb. unfold for_stride4.
  apply (fold_left_preserves (fun o : list Z => length o = length d)); [|reflexivity].
  intros o i Ho. rewrite Hb. exact Ho.
Qed.

(** C7: for every input image of dimensions W x H, each of the five
    derived maps (normal, roughness, ambient occlusion, metalness, height)
    has width W, height H, and holds 4 * W * H bytes. *)
Theorem derived_maps_dimensions {A : Arith} (img : ImageData)
    (strength multiplier : num) (isMetal : bool) :
  length (data img) = (4 * (width img * height img))%nat ->
  Forall (fun m : ImageData =>
            width m = width img /\ height m = height img /\
            length (data m) = (4 * (width img * height img))%nat)
         [ generateNormalMap img strength;
           generateRoughnessMap img multiplier;
           generateAOMap img;
           generateMetalnessMap img isMetal;
           generateHeightMap img ].
Proof.
  intros Hlen.
  repeat (constructor; [split; [reflexivity|split; [reflexivity|]]|]);
    [| | | | |constructor].
  - apply generateNormalMap_length.
  - unfold generateRoughnessMap. cbn [data]. rewrite for_stride4_length; [exact Hlen|].
    intros i o. rewrite !set_length. reflexivity.
  - unfold generateAOMap. cbn [data]. rewrite for_stride4_length; [exact Hlen|].
    intros i o. rewrite !set_length. reflexivity.
  - apply fillRect_length.
  - unfold generateHeightMap. cbn [data]. rewrite for_stride4_length; [exact Hlen|].
    intros i o. rewrite !set_length. reflexivity.
Qed.

Lemma derived_maps_dimensions_witness :
  let img := mkImageData 2 1 [0; 0; 0; 255; 255; 255; 255; 255] in
  Forall (fun m : ImageData =>
            width m = 2%nat /\ height m = 1%nat /\ length (data m) = 8%nat)
         [ generateNormalMap (A:=Float64) img (lit 2.5);
           generateRoughnessMap (A:=Float64) img (lit 0.72);
           generateAOMap (A:=Float64) img;
           generateMetalnessMap img false;
           generateHeightMap (A:=Float64) img ].
Proof.
  exact (derived_maps_dimensions (A:=Float64)
           (mkImageData 2 1 [0; 0; 0; 255; 255; 255; 255; 255])
           (lit 2.5) (lit 0.72) false eq_refl).
Defined.

(** ** The flat white image *)

(** C9: for the flat white 4x4 image the normal map generator with
    strength 2.5 yields the pixel (128, 128, 255, 255) at every position. *)
Theorem generateNormalMap_flat_white :
  let img := mkImageData 4 4 (replicate 64 255) in
  let out := generateNormalMap (A:=Float64) img (lit 2.5) in
  width out = 4%nat /\ height out = 4%nat /\
  data out = List.concat (replicate 16 [128; 128; 255; 255]) /\
  forall x y, (x < 4)%nat -> (y < 4)%nat ->
    channel out x y 0 = Some 128 /\ channel out x y 1 = Some 128 /\
    channel out x y 2 = Some 255 /\ channel out x y 3 = Some 255.
Proof.
  cbv zeta.
  assert (data (generateNormalMap (A:=Float64) (mkImageData 4 4 (replicate 64 255)) (lit 2.5))
          = List.concat (replicate 16 [128; 128; 255; 255])) as Hd
    by (vm_compute; reflexivity).
  split; [reflexivity|]. split; [reflexivity|]. split; [exact Hd|].
  intros x y Hx Hy. unfold channel. rewrite Hd.
  change (width (generateNormalMap _ _)) with 4%nat.
  change (List.concat (replicate 16 [128; 128; 255; 255]))
    with (fillRect 4 4 128 128 255).
  rewrite !fillRect_lookup by lia. repeat split; reflexivity.
Qed.

(** ** Ambient occlusion *)

Lemma sum2_check_ok : sum2_check = true.
Proof. vm_compute. reflexivity. Qed.

Lemma sum3_check_ok : sum3_check = true.
Proof. vm_compute. reflexivity. Qed.

Lemma ao_check_ok : ao_check = true.
Proof. vm_compute. reflexivity. Qed.

(** The sum of three channel bytes is exact in binary64. *)
Lemma float_sum_bytes (r g b : Z) :
  0 <= r <= 255 -> 0 <= g <= 255 -> 0 <= b <= 255 ->
  (ofZ (Arith:=Float64) r + ofZ g + ofZ b)%J = ofZ (r + g + b).
Proof.
  intros Hr Hg Hb. cbn [ofZ nadd Float64].
  pose proof (forallb_seqZ _ 0 256 g
                (forallb_seqZ _ 0 256 r sum2_check_ok ltac:(lia)) ltac:(lia)) as H2.
  apply FloatAxioms.Leibniz.eqb_spec in H2. rewrite H2.
  pose proof (forallb_seqZ _ 0 256 b
                (forallb_seqZ _ 0 511 (r + g) sum3_check_ok ltac:(lia)) ltac:(lia)) as H3.
  apply FloatAxioms.Leibniz.eqb_spec in H3. exact H3.
Qed.

Lemma ao_byte_spec (s : Z) :
  0 <= s <= 765 ->
  (300 <= s -> ao_byte s = 255) /\
  (s < 300 ->
     Z.abs (20 * ao_byte s - 17 * s) <= 10 /\
     (s mod 20 <> 10 -> ao_byte s = round_half_up (ao_exact s))).
Proof.
  intros Hs.
  pose proof (forallb_seqZ _ 0 766 s ao_check_ok ltac:(lia)) as Hc.
  unfold ao_check_at in Hc.
  destruct (Z.ltb_spec s 300) as [Hlt|Hge].
  - apply andb_prop in Hc as [Hnear Hround].
    split; [lia|]. intros _. split; [lia|].
    intros Hne. apply orb_prop in Hround as [Htie|Heq]; lia.
  - split; [intros _; lia|lia].
Qed.

(** C2, as amended: for every pixel [k] of the input, with channel bytes
    [r g b] of sum [s] (so avg = s/3), the ambient-occlusion generator
    stores one value v in R, G and B and keeps alpha.  When avg >= 100,
    v = 255.  When avg < 100, v is an integer nearest to avg/100 * 255
    (|v - 17s/20| <= 1/2); it equals round(avg/100 * 255) unless that value
    lies exactly halfway between two integers (s = 10 modulo 20). *)
Theorem generateAOMap_pixel (img : ImageData) (k : nat) (r g b a : Z) :
  data img !! (4 * k)%nat = Some r ->
  data img !! (4 * k + 1)%nat = Some g ->
  data img !! (4 * k + 2)%nat = Some b ->
  data img !! (4 * k + 3)%nat = Some a ->
  0 <= r <= 255 -> 0 <= g <= 255 -> 0 <= b <= 255 ->
  let out := data (generateAOMap (A:=Float64) img) in
  let s := r + g + b in
  let v := ao_byte s in
  (out !! (4 * k)%nat = Some v /\ out !! (4 * k + 1)%nat = Some v /\
   out !! (4 * k + 2)%nat = Some v /\ out !! (4 * k + 3)%nat = Some a) /\
  (300 <= s -> v = 255) /\
  (s < 300 ->
     Z.abs (20 * v - 17 * s) <= 10 /\
     (s mod 20 <> 10 -> v = round_half_up (ao_exact s))).
Proof.
  intros Hr Hg Hb Ha Br Bg Bb out s v. split.
  - pose proof (gray_loop_pixel (A:=Float64)
                  (fun R G B => ao_of_sum (R + G + B)%J)
                  (data img) k r g b a Hr Hg Hb Ha) as H.
    cbv beta zeta in H. rewrite (float_sum_bytes r g b Br Bg Bb) in H. exact H.
  - apply ao_byte_spec. lia.
Qed.

Lemma generateAOMap_pixel_witness :
  let out := data (generateAOMap (A:=Float64) (mkImageData 1 1 [23; 23; 24; 255])) in
  (out !! 0%nat = Some 59 /\ out !! 1%nat = Some 59 /\
   out !! 2%nat = Some 59 /\ out !! 3%nat = Some 255) /\
  Z.abs (20 * 59 - 17 * 70) <= 10.
Proof.
  pose proof (generateAOMap_pixel (mkImageData 1 1 [23; 23; 24; 255]) 0 23 23 24 255
                eq_refl eq_refl eq_refl eq_refl
                ltac:(lia) ltac:(lia) ltac:(lia)) as [Hout [_ Hlow]].
  split; [exact Hout|]. exact (proj1 (Hlow ltac:(lia))).
Defined.

(** C2, as stated, fails.  For the pixel (10, 0, 0), avg/100 * 255 is 8.5,
    in exact arithmetic and as a double; round, read as Math.round, gives 9,
    but the store into the clamped 8-bit array rounds the half to the even
    neighbour and the generator outputs 8.  For the pixel (70, 0, 0),
    avg/100 * 255 is exactly 59.5, which rounds to 60 whichever way halves
    go, but the double computed for it is 59.49999999999999 and the
    generator outputs 59. *)
Lemma generateAOMap_not_round :
  data (generateAOMap (A:=Float64) (mkImageData 1 1 [10; 0; 0; 255])) = [8; 8; 8; 255] /\
  ao_of_sum (A:=Float64) (ofZ 10) = lit 8.5 /\
  (ao_exact 10 == 17 # 2)%Q /\
  round_half_up (ao_exact 10) = 9 /\
  data (generateAOMap (A:=Float64) (mkImageData 1 1 [70; 0; 0; 255])) = [59; 59; 59; 255] /\
  (ao_of_sum (A:=Float64) (ofZ 70) <? lit 59.5)%J = true /\
  (ao_exact 70 == 119 # 2)%Q /\
  round_half_up (ao_exact 70) = 60 /\ round_half_even (ao_exact 70) = 60.
Proof. vm_compute. repeat split; congruence. Qed.

(** ** Unit vectors, and a normal that is not one *)

Section RealAnalysis.
Local Open Scope R_scope.
Lemma Rabs_le_bounds (x a : R) : Rabs x <= a -> - a <= x <= a.
Proof. unfold Rabs. destruct (Rcase_abs x); lra. Qed.


End RealAnalysis.



(** ** Metadata analysis and its fallback *)

(** A reply never makes [analyzeTextureMetadata] throw: each field is the
    number the reply carries, or its default. *)
Lemma analyzeTextureMetadata_replied {A : Arith} (text : ResponseText) :
  analyzeTextureMetadata (ServiceReplied text)
  = inr (mkMetadata
           match numeric_field text "suggestedRoughness" with
           | Some n => n
           | None => lit 0.6
           end
           match numeric_field text "suggestedMetalness" with
           | Some n => n
           | None => lit 0.0
           end).
Proof.
  unfold analyzeTextureMetadata, numeric_field.
  destruct (parse_text text) as [[| | | | |props]|]; try reflexivity.
  cbn [getProp number_or].
  destruct (assoc "suggestedRoughness" props) as [[]|];
    destruct (assoc "suggestedMetalness" props) as [[]|]; reflexivity.
Qed.

Lemma or_else_roughness_default : or_else (A:=Float64) (lit 0.6) (lit 0.6) = lit 0.6.
Proof. reflexivity. Qed.

Lemma or_else_roughness_zero : or_else (A:=Float64) (lit 0.0) (lit 0.6) = lit 0.6.
Proof. reflexivity. Qed.

Lemma or_else_metalness_zero : or_else (A:=Float64) (lit 0.0) (lit 0) = lit 0.
Proof. reflexivity. Qed.

Lemma not_metal_by_default : ngt (A:=Float64) (lit 0) (lit 0.5) = false.
Proof. reflexivity. Qed.

(** C3, as amended: when the reply of the metadata analysis is malformed
    (its text is not JSON, or carries no numeric suggestedRoughness and no
    numeric suggestedMetalness), [processAllMaps] does not fail: it reports
    no error and produces all five maps with suggested roughness 0.6, so
    roughness multiplier 0.6 * 1.2, and metal flag false, and sets the
    roughness and metalness intensities to 0.6 and 0.  When the service call
    itself fails, the failure is reported and no map or setting changes. *)
Theorem malformed_metadata_defaults (st : AppState (A:=Float64)) (albedoUrl : ImageData) :
  (forall text,
     numeric_field text "suggestedRoughness" = None ->
     numeric_field text "suggestedMetalness" = None ->
     let st' := processAllMaps st albedoUrl (ServiceReplied text) in
     error st' = None /\
     maps st' = mkMaps (Some albedoUrl)
                       (Some (generateNormalMap (A:=Float64) albedoUrl (lit 2.5)))
                       (Some (generateRoughnessMap (A:=Float64) albedoUrl
                                (lit 0.6 * lit 1.2)%J))
                       (Some (generateMetalnessMap albedoUrl false))
                       (Some (generateAOMap (A:=Float64) albedoUrl))
                       (Some (generateHeightMap (A:=Float64) albedoUrl)) /\
     roughnessIntensity (settings st') = lit (A:=Float64) 0.6 /\
     metalnessIntensity (settings st') = lit (A:=Float64) 0) /\
  (forall err,
     let st' := processAllMaps st albedoUrl (ServiceFailed err) in
     maps st' = maps st /\ settings st' = settings st /\ error st' <> None).
Proof.
  split.
  - intros text Hr Hm st'. subst st'. unfold processAllMaps.
    rewrite analyzeTextureMetadata_replied, Hr, Hm.
    cbn [suggestedRoughness suggestedMetalness maps settings error
         roughnessIntensity metalnessIntensity].
    rewrite or_else_roughness_default, or_else_metalness_zero, not_metal_by_default.
    repeat split; reflexivity.
  - intros err st'. subst st'. unfold processAllMaps.
    cbn [analyzeTextureMetadata].
    destruct (includes (message err) "leaked" || includes (message err) "403");
      cbn [maps settings error]; repeat split; discriminate.
Qed.

Lemma malformed_metadata_defaults_witness :
  let albedoUrl := mkImageData 1 1 [10; 20; 30; 255] in
  let st' := processAllMaps (A:=Float64) initialState albedoUrl (ServiceReplied (Text None)) in
  error st' = None /\
  roughness (maps st') = Some (mkImageData 1 1 [190; 190; 190; 255]) /\
  metalness (maps st') = Some (mkImageData 1 1 [0; 0; 0; 255]).
Proof.
  destruct (proj1 (malformed_metadata_defaults initialState
                     (mkImageData 1 1 [10; 20; 30; 255]))
                  (Text None) eq_refl eq_refl) as (He & Hm & _ & _).
  cbv zeta. rewrite Hm. split; [exact He|]. split; vm_compute; reflexivity.
Defined.

(** C3, as stated, fails: when the service call fails (here with the
    message "fetch failed") no map is produced and the error is reported
    instead; and on a malformed reply the roughness generator runs with
    multiplier 0.6 * 1.2, whose map differs from the one for multiplier 0.6
    (byte 190 instead of 148 for the pixel (10, 20, 30)). *)
Lemma service_failure_not_defaulted :
  let albedoUrl := mkImageData 1 1 [10; 20; 30; 255] in
  let failed := processAllMaps (A:=Float64) initialState albedoUrl
                  (ServiceFailed (mkError "fetch failed")) in
  let malformed := processAllMaps (A:=Float64) initialState albedoUrl
                     (ServiceReplied (Text None)) in
  maps failed = mkMaps None None None None None None /\
  error failed = Some "fetch failed"%string /\
  roughness (maps malformed) = Some (mkImageData 1 1 [190; 190; 190; 255]) /\
  generateRoughnessMap (A:=Float64) albedoUrl (lit 0.6)
    = mkImageData 1 1 [148; 148; 148; 255].
Proof. vm_compute. repeat split; reflexivity. Qed.

Lemma numeric_field_object {A : Arith} (props : list (string * JsValue)) (k : string) :
  numeric_field (Text (Some (JObject props))) k
  = match assoc k props with
    | Some (JNumber n) => Some n
    | _ => None
    end.
Proof. reflexivity. Qed.

(** C10: when the analysis succeeds with a suggested roughness of exactly
    0.0, [processAllMaps] uses 0.6 in its place, for the multiplier of the
    roughness generator (0.6 * 1.2) and for the roughness intensity of the
    material settings, and ends in the same state as for a reply without
    that field; a suggested metalness of 0.0 likewise ends in the same state
    as a reply without a metalness. *)
Theorem zero_suggestion_is_fallback (st : AppState (A:=Float64)) (albedoUrl : ImageData)
    (props : list (string * JsValue)) :
  let run p := processAllMaps st albedoUrl (ServiceReplied (Text (Some (JObject p)))) in
  (assoc "suggestedRoughness" props = Some (JNumber (lit 0.0)) ->
     roughness (maps (run props))
       = Some (generateRoughnessMap (A:=Float64) albedoUrl (lit 0.6 * lit 1.2)%J) /\
     roughnessIntensity (settings (run props)) = lit (A:=Float64) 0.6 /\
     forall props',
       assoc "suggestedRoughness" props' = None ->
       assoc "suggestedMetalness" props' = assoc "suggestedMetalness" props ->
       run props' = run props) /\
  (assoc "suggestedMetalness" props = Some (JNumber (lit 0.0)) ->
     forall props',
       assoc "suggestedMetalness" props' = None ->
       assoc "suggestedRoughness" props' = assoc "suggestedRoughness" props ->
       run props' = run props).
Proof.
  intros run. subst run. cbv beta. split.
  - intros Hr. unfold processAllMaps.
    rewrite !analyzeTextureMetadata_replied, !numeric_field_object, Hr.
    cbn [suggestedRoughness suggestedMetalness maps settings roughness
         roughnessIntensity].
    rewrite or_else_roughness_zero.
    split; [reflexivity|]. split; [reflexivity|].
    intros props' Hr' Hm'. unfold processAllMaps.
    rewrite !analyzeTextureMetadata_replied, !numeric_field_object, Hr', Hm'.
    cbn [suggestedRoughness suggestedMetalness].
    rewrite or_else_roughness_default. reflexivity.
  - intros Hm props' Hm' Hr'. unfold processAllMaps.
    rewrite !analyzeTextureMetadata_replied, !numeric_field_object, Hm, Hm', Hr'.
    reflexivity.
Qed.

Lemma zero_suggestion_is_fallback_witness :
  let albedoUrl := mkImageData 1 1 [10; 20; 30; 255] in
  let run p := processAllMaps (A:=Float64) initialState albedoUrl
                 (ServiceReplied (Text (Some (JObject p)))) in
  let props := [("suggestedRoughness"%string, JNumber (lit 0.0));
                ("suggestedMetalness"%string, JNumber (lit 0.0))] in
  roughnessIntensity (settings (run props)) = lit (A:=Float64) 0.6 /\
  run [("suggestedMetalness"%string, JNumber (lit 0.0))] = run props /\
  run [("suggestedRoughness"%string, JNumber (lit 0.0))] = run props.
Proof.
  pose proof (zero_suggestion_is_fallback initialState
                (mkImageData 1 1 [10; 20; 30; 255])
                [("suggestedRoughness"%string, JNumber (lit 0.0));
                 ("suggestedMetalness"%string, JNumber (lit 0.0))]) as [Hr Hm].
  destruct (Hr eq_refl) as (_ & Hi & Hsame).
  split; [exact Hi|]. split.
  - exact (Hsame [("suggestedMetalness"%string, JNumber (lit 0.0))] eq_refl eq_refl).
  - exact (Hm eq_refl [("suggestedRoughness"%string, JNumber (lit 0.0))] eq_refl eq_refl).
Defined.

(** * Further properties *)

(** ** Grayscale maps as tables of the channel sum *)

Lemma steps_monotone (f : Z -> Z) (n : Z) :
  (forall s, 0 <= s < n -> f s <= f (s + 1)) ->
  forall s1 s2, 0 <= s1 <= s2 -> s2 <= n -> f s1 <= f s2.
Proof.
  intros Hstep s1 s2 H12 Hn.
  replace s2 with (s1 + Z.of_nat (Z.to_nat (s2 - s1))) in * by lia.
  induction (Z.to_nat (s2 - s1)) as [|d IH]; [rewrite Z.add_0_r; lia|].
  rewrite Nat2Z.inj_succ in *.
  etransitivity; [apply IH; lia|].
  replace (s1 + Z.succ (Z.of_nat d)) with (s1 + Z.of_nat d + 1) by lia.
  apply Hstep. lia.
Qed.

(** A grayscale loop whose value depends on the channels through their
    sum stores, in binary64, the value for the integer sum. *)
Lemma gray_loop_sum (g : float -> float) img k r gr b a c :
  pixel_at img k r gr b a -> (c < 3)%nat ->
  for_stride4 (length (data img))
    (gray_step (A:=Float64) (fun R G B => g (R + G + B)%float)) (data img)
    !! (4 * k + c)%nat
  = Some (ToUint8Clamp (A:=Float64) (g (float_ofZ (r + gr + b)))).
Proof.
  intros (Hr & Hg & Hb & Ha & Br & Bg & Bb) Hc.
  pose proof (gray_loop_pixel (A:=Float64) (fun R G B => g (R + G + B)%float)
                (data img) k r gr b a Hr Hg Hb Ha) as H.
  cbv beta zeta in H. cbn [ofZ Float64] in H.
  pose proof (float_sum_bytes r gr b Br Bg Bb) as Hs. cbn [ofZ nadd Float64] in Hs.
  rewrite Hs in H. destruct H as (H0 & H1 & H2 & _).
  destruct c as [|[|[|c]]]; [rewrite Nat.add_0_r; exact H0|exact H1|exact H2|lia].
Qed.

Lemma pixel_at_sum img k r g b a : pixel_at img k r g b a -> 0 <= r + g + b <= 765.
Proof. intros (_ & _ & _ & _ & Br & Bg & Bb). lia. Qed.

Lemma ao_shape_check_ok : ao_shape_check = true.
Proof. vm_compute. reflexivity. Qed.

Lemma height_check_ok : height_check = true.
Proof. vm_compute. reflexivity. Qed.

Lemma roughness_check_ok : roughness_check = true.
Proof. vm_compute. reflexivity. Qed.

Lemma generateAOMap_byte img k r g b a c :
  pixel_at img k r g b a -> (c < 3)%nat ->
  data (generateAOMap (A:=Float64) img) !! (4 * k + c)%nat = Some (ao_byte (r + g + b)).
Proof. exact (gray_loop_sum (ao_of_sum (A:=Float64)) img k r g b a c). Qed.

Lemma generateHeightMap_byte img k r g b a c :
  pixel_at img k r g b a -> (c < 3)%nat ->
  data (generateHeightMap (A:=Float64) img) !! (4 * k + c)%nat
  = Some (height_byte (r + g + b)).
Proof. exact (gray_loop_sum (height_of_sum (A:=Float64)) img k r g b a c). Qed.

Lemma generateRoughnessMap_byte img (multiplier : float) k r g b a c :
  pixel_at img k r g b a -> (c < 3)%nat ->
  data (generateRoughnessMap (A:=Float64) img multiplier) !! (4 * k + c)%nat
  = Some (roughness_byte multiplier (r + g + b)).
Proof. exact (gray_loop_sum (roughness_of_sum (A:=Float64) multiplier) img k r g b a c). Qed.

(** X1: ambient occlusion preserves the order of brightness: of two pixels
    (of the same or of two images), the one with the larger channel sum
    never gets the darker output. *)
Theorem generateAOMap_monotone img k r g b a img' k' r' g' b' a' v v' :
  pixel_at img k r g b a -> pixel_at img' k' r' g' b' a' ->
  data (generateAOMap (A:=Float64) img) !! (4 * k)%nat = Some v ->
  data (generateAOMap (A:=Float64) img') !! (4 * k')%nat = Some v' ->
  r + g + b <= r' + g' + b' -> v <= v'.
Proof.
  intros Hp Hp' Hv Hv' Hle.
  rewrite <- (Nat.add_0_r (4 * k)), (generateAOMap_byte _ _ _ _ _ _ 0%nat Hp) in Hv by lia.
  rewrite <- (Nat.add_0_r (4 * k')), (generateAOMap_byte _ _ _ _ _ _ 0%nat Hp') in Hv' by lia.
  injection Hv as <-. injection Hv' as <-.
  apply pixel_at_sum in Hp, Hp'.
  apply (steps_monotone ao_byte 765); [|lia..].
  intros s Hs. pose proof (forallb_seqZ _ 0 765 s ao_shape_check_ok ltac:(lia)) as Hc.
  unfold ao_shape_check_at in Hc. cbv zeta in Hc.
  apply andb_prop in Hc as [Hc _]. apply andb_prop in Hc as [Hc _]. lia.
Qed.

Lemma generateAOMap_monotone_witness :
  let img := mkImageData 2 1 [10; 20; 30; 255; 40; 50; 60; 255] in
  pixel_at img 0 10 20 30 255 /\ pixel_at img 1 40 50 60 255 /\
  data (generateAOMap (A:=Float64) img) !! 0%nat = Some 51 /\
  data (generateAOMap (A:=Float64) img) !! 4%nat = Some 128 /\
  51 <= 128.
Proof.
  intros img.
  assert (pixel_at img 0 10 20 30 255) as P by (repeat split; (reflexivity || lia)).
  assert (pixel_at img 1 40 50 60 255) as P' by (repeat split; (reflexivity || lia)).
  split; [exact P|]. split; [exact P'|]. split; [reflexivity|]. split; [reflexivity|].
  exact (generateAOMap_monotone img 0 10 20 30 255 img 1 40 50 60 255 51 128
           P P' eq_refl eq_refl ltac:(lia)).
Defined.

(** X2: ambient occlusion never darkens a pixel below its mean: the output
    v satisfies R + G + B <= 3 v; it is 0 only for a black pixel and 255
    exactly when the channel sum is at least 300. *)
Theorem generateAOMap_brightens img k r g b a v :
  pixel_at img k r g b a ->
  data (generateAOMap (A:=Float64) img) !! (4 * k)%nat = Some v ->
  r + g + b <= 3 * v /\ (v = 0 <-> r + g + b = 0) /\ (v = 255 <-> 300 <= r + g + b).
Proof.
  intros Hp Hv.
  rewrite <- (Nat.add_0_r (4 * k)), (generateAOMap_byte _ _ _ _ _ _ 0%nat Hp) in Hv by lia.
  injection Hv as <-. apply pixel_at_sum in Hp.
  set (s := r + g + b) in *.
  destruct (ao_byte_spec s Hp) as [Hhi Hlo].
  destruct (Z.eq_dec s 765) as [->|Hne].
  { vm_compute. repeat split; intros; congruence. }
  pose proof (forallb_seqZ _ 0 765 s ao_shape_check_ok ltac:(lia)) as Hc.
  unfold ao_shape_check_at in Hc. cbv zeta in Hc.
  apply andb_prop in Hc as [Hc Hz]. apply andb_prop in Hc as [_ Hb].
  apply Bool.eqb_prop in Hz.
  split; [lia|]. split.
  - split; intros H0.
    + apply Z.eqb_eq. rewrite <- Hz. apply Z.eqb_eq. exact H0.
    + apply Z.eqb_eq. rewrite Hz. apply Z.eqb_eq. exact H0.
  - split; [|exact Hhi]. intros H255.
    destruct (Z_lt_le_dec s 300) as [Hlt|Hge]; [|exact Hge].
    destruct (Hlo Hlt) as [Hnear _]. lia.
Qed.

Lemma generateAOMap_brightens_witness :
  let img := mkImageData 1 1 [120; 90; 100; 255] in
  pixel_at img 0 120 90 100 255 /\
  data (generateAOMap (A:=Float64) img) !! 0%nat = Some 255 /\
  120 + 90 + 100 <= 3 * 255 /\ (255 = 0 <-> 120 + 90 + 100 = 0) /\
  (255 = 255 <-> 300 <= 120 + 90 + 100).
Proof.
  intros img.
  assert (pixel_at img 0 120 90 100 255) as P by (repeat split; (reflexivity || lia)).
  split; [exact P|]. split; [reflexivity|].
  exact (generateAOMap_brightens img 0 120 90 100 255 255 P eq_refl).
Defined.

(** X3: the height map preserves the order of brightness. *)
Theorem generateHeightMap_monotone img k r g b a img' k' r' g' b' a' v v' :
  pixel_at img k r g b a -> pixel_at img' k' r' g' b' a' ->
  data (generateHeightMap (A:=Float64) img) !! (4 * k)%nat = Some v ->
  data (generateHeightMap (A:=Float64) img') !! (4 * k')%nat = Some v' ->
  r + g + b <= r' + g' + b' -> v <= v'.
Proof.
  intros Hp Hp' Hv Hv' Hle.
  rewrite <- (Nat.add_0_r (4 * k)), (generateHeightMap_byte _ _ _ _ _ _ 0%nat Hp) in Hv by lia.
  rewrite <- (Nat.add_0_r (4 * k')), (generateHeightMap_byte _ _ _ _ _ _ 0%nat Hp') in Hv' by lia.
  injection Hv as <-. injection Hv' as <-.
  apply pixel_at_sum in Hp, Hp'.
  apply (steps_monotone height_byte 765); [|lia..].
  intros s Hs. pose proof (forallb_seqZ _ 0 766 s height_check_ok ltac:(lia)) as Hc.
  unfold height_check_at in Hc. cbv zeta in Hc.
  apply andb_prop in Hc as [Hc _]. lia.
Qed.

Lemma generateHeightMap_monotone_witness :
  let img := mkImageData 2 1 [10; 20; 30; 255; 140; 150; 160; 255] in
  pixel_at img 0 10 20 30 255 /\ pixel_at img 1 140 150 160 255 /\
  data (generateHeightMap (A:=Float64) img) !! 0%nat = Some 0 /\
  data (generateHeightMap (A:=Float64) img) !! 4%nat = Some 155 /\
  0 <= 155.
Proof.
  intros img.
  assert (pixel_at img 0 10 20 30 255) as P by (repeat split; (reflexivity || lia)).
  assert (pixel_at img 1 140 150 160 255) as P' by (repeat split; (reflexivity || lia)).
  split; [exact P|]. split; [exact P'|]. split; [reflexivity|]. split; [reflexivity|].
  exact (generateHeightMap_monotone img 0 10 20 30 255 img 1 140 150 160 255 0 155
           P P' eq_refl eq_refl ltac:(lia)).
Defined.

(** X4: the contrast stretch of the height map saturates: the output is 0
    for channel sums up to 64 and 255 from 701 on; in between it is strictly
    between 0 and 255 and an integer nearest to 0.4 (R+G+B) - 25.5. *)
Theorem generateHeightMap_saturates img k r g b a v :
  pixel_at img k r g b a ->
  data (generateHeightMap (A:=Float64) img) !! (4 * k)%nat = Some v ->
  let s := r + g + b in
  (s <= 64 -> v = 0) /\ (701 <= s -> v = 255) /\
  (64 < s < 701 -> 0 < v < 255 /\ Z.abs (10 * v - (4 * s - 255)) <= 5).
Proof.
  intros Hp Hv s.
  rewrite <- (Nat.add_0_r (4 * k)), (generateHeightMap_byte _ _ _ _ _ _ 0%nat Hp) in Hv by lia.
  injection Hv as <-. apply pixel_at_sum in Hp. fold s in Hp |- *.
  pose proof (forallb_seqZ _ 0 766 s height_check_ok ltac:(lia)) as Hc.
  unfold height_check_at in Hc. cbv zeta in Hc.
  apply andb_prop in Hc as [_ Hc].
  destruct (Z.leb_spec s 64); [repeat split; lia|].
  destruct (Z.leb_spec 701 s); [repeat split; lia|].
  apply andb_prop in Hc as [Hc Hn]. apply andb_prop in Hc as [Hc1 Hc2].
  repeat split; lia.
Qed.

Lemma generateHeightMap_saturates_witness :
  let img := mkImageData 1 1 [20; 20; 24; 255] in
  pixel_at img 0 20 20 24 255 /\
  data (generateHeightMap (A:=Float64) img) !! 0%nat = Some 0 /\
  (20 + 20 + 24 <= 64 -> 0 = 0).
Proof.
  intros img.
  assert (pixel_at img 0 20 20 24 255) as P by (repeat split; (reflexivity || lia)).
  split; [exact P|]. split; [reflexivity|].
  exact (proj1 (generateHeightMap_saturates img 0 20 20 24 255 0 P eq_refl)).
Defined.

(** X5: with the default multiplier 1.0 the roughness map reverses the
    order of brightness: of two pixels, the brighter one never gets the
    larger roughness ("crevices are rougher, surfaces are smoother"). *)
Theorem generateRoughnessMap_antitone img k r g b a img' k' r' g' b' a' v v' :
  pixel_at img k r g b a -> pixel_at img' k' r' g' b' a' ->
  data (generateRoughnessMap (A:=Float64) img (lit 1.0)) !! (4 * k)%nat = Some v ->
  data (generateRoughnessMap (A:=Float64) img' (lit 1.0)) !! (4 * k')%nat = Some v' ->
  r + g + b <= r' + g' + b' -> v' <= v.
Proof.
  intros Hp Hp' Hv Hv' Hle.
  rewrite <- (Nat.add_0_r (4 * k)), (generateRoughnessMap_byte _ _ _ _ _ _ _ 0%nat Hp) in Hv by lia.
  rewrite <- (Nat.add_0_r (4 * k')), (generateRoughnessMap_byte _ _ _ _ _ _ _ 0%nat Hp') in Hv' by lia.
  injection Hv as <-. injection Hv' as <-.
  apply pixel_at_sum in Hp, Hp'.
  apply Z.opp_le_mono.
  apply (steps_monotone (fun s => - roughness_byte (lit (A:=Float64) 1.0) s) 765); [|lia..].
  intros s Hs. pose proof (forallb_seqZ _ 0 766 s roughness_check_ok ltac:(lia)) as Hc.
  unfold roughness_check_at in Hc. cbv zeta in Hc.
  repeat (apply andb_prop in Hc as [Hc _]). apply Z.leb_le in Hc.
  apply Z.opp_le_mono in Hc. exact Hc.
Qed.

Lemma generateRoughnessMap_antitone_witness :
  let img := mkImageData 2 1 [10; 20; 30; 255; 140; 150; 160; 255] in
  pixel_at img 0 10 20 30 255 /\ pixel_at img 1 140 150 160 255 /\
  data (generateRoughnessMap (A:=Float64) img (lit 1.0)) !! 0%nat = Some 255 /\
  data (generateRoughnessMap (A:=Float64) img (lit 1.0)) !! 4%nat = Some 94 /\
  94 <= 255.
Proof.
  intros img.
  assert (pixel_at img 0 10 20 30 255) as P by (repeat split; (reflexivity || lia)).
  assert (pixel_at img 1 140 150 160 255) as P' by (repeat split; (reflexivity || lia)).
  split; [exact P|]. split; [exact P'|]. split; [reflexivity|]. split; [reflexivity|].
  exact (generateRoughnessMap_antitone img 0 10 20 30 255 img 1 140 150 160 255 255 94
           P P' eq_refl eq_refl ltac:(lia)).
Defined.

(** X6: with the default multiplier 1.0 the roughness map saturates: the
    output is 255 for channel sums up to 128 and 0 from 637 on; in between
    it is strictly between 0 and 255 and an integer nearest to
    318.75 - 0.5 (R+G+B). *)
Theorem generateRoughnessMap_saturates img k r g b a v :
  pixel_at img k r g b a ->
  data (generateRoughnessMap (A:=Float64) img (lit 1.0)) !! (4 * k)%nat = Some v ->
  let s := r + g + b in
  (s <= 128 -> v = 255) /\ (637 <= s -> v = 0) /\
  (128 < s < 637 -> 0 < v < 255 /\ Z.abs (4 * v - (1275 - 2 * s)) <= 2).
Proof.
  intros Hp Hv s.
  rewrite <- (Nat.add_0_r (4 * k)), (generateRoughnessMap_byte _ _ _ _ _ _ _ 0%nat Hp) in Hv by lia.
  injection Hv as <-. apply pixel_at_sum in Hp. fold s in Hp |- *.
  pose proof (forallb_seqZ _ 0 766 s roughness_check_ok ltac:(lia)) as Hc.
  unfold roughness_check_at in Hc. cbv zeta in Hc.
  change (lit (A:=Float64) 1.0) with 1%float in Hc.
  apply andb_prop in Hc as [Hc _]. apply andb_prop in Hc as [Hc _].
  apply andb_prop in Hc as [_ Hc].
  destruct (Z.leb_spec s 128); [repeat split; lia|].
  destruct (Z.leb_spec 637 s); [repeat split; lia|].
  apply andb_prop in Hc as [Hc Hn]. apply andb_prop in Hc as [Hc1 Hc2].
  repeat split; lia.
Qed.

Lemma generateRoughnessMap_saturates_witness :
  let img := mkImageData 1 1 [250; 250; 250; 255] in
  pixel_at img 0 250 250 250 255 /\
  data (generateRoughnessMap (A:=Float64) img (lit 1.0)) !! 0%nat = Some 0 /\
  (637 <= 250 + 250 + 250 -> 0 = 0).
Proof.
  intros img.
  assert (pixel_at img 0 250 250 250 255) as P by (repeat split; (reflexivity || lia)).
  split; [exact P|]. split; [reflexivity|].
  exact (proj1 (proj2 (generateRoughnessMap_saturates img 0 250 250 250 255 0 P eq_refl))).
Defined.

(** ** Bytes stay bytes *)

Lemma set_bytes {A : Arith} (d : list Z) i (v : num) :
  Forall (fun b => 0 <= b <= 255) d -> Forall (fun b => 0 <= b <= 255) (set d i v).
Proof. intros Hd. apply Forall_insert; [exact Hd|apply ToUint8Clamp_range]. Qed.

(** X7: every byte of every derived map is in [0, 255], whatever the
    strength and the multiplier (NaN and infinities included), provided the
    bytes of the input are. *)
Theorem derived_maps_bytes {A : Arith} (img : ImageData)
    (strength multiplier : num) (isMetal : bool) :
  bytes_ok img ->
  Forall bytes_ok
         [ generateNormalMap img strength;
           generateRoughnessMap img multiplier;
           generateAOMap img;
           generateMetalnessMap img isMetal;
           generateHeightMap img ].
Proof.
  intros Hb. unfold bytes_ok in *.
  repeat (constructor; [|]); [| | | | |constructor].
  - unfold generateNormalMap, for_range. cbn [data].
    apply (fold_left_preserves (Forall (fun b => 0 <= b <= 255))).
    + intros o y Ho.
      apply (fold_left_preserves (Forall (fun b => 0 <= b <= 255))); [|exact Ho].
      intros o' x Ho'. repeat apply set_bytes. exact Ho'.
    + apply Forall_replicate. lia.
  - unfold generateRoughnessMap, for_stride4. cbn [data].
    apply (fold_left_preserves (Forall (fun b => 0 <= b <= 255))); [|exact Hb].
    intros o i Ho. repeat apply set_bytes. exact Ho.
  - unfold generateAOMap, for_stride4. cbn [data].
    apply (fold_left_preserves (Forall (fun b => 0 <= b <= 255))); [|exact Hb].
    intros o i Ho. repeat apply set_bytes. exact Ho.
  - unfold generateMetalnessMap, fillRect. cbn [data].
    induction (width img * height img)%nat as [|n IH]; [constructor|].
    cbn [replicate List.concat]. apply Forall_app. split; [|exact IH].
    destruct isMetal; repeat constructor; lia.
  - unfold generateHeightMap, for_stride4. cbn [data].
    apply (fold_left_preserves (Forall (fun b => 0 <= b <= 255))); [|exact Hb].
    intros o i Ho. repeat apply set_bytes. exact Ho.
Qed.

Lemma derived_maps_bytes_witness :
  let img := mkImageData 2 1 [0; 0; 0; 255; 255; 255; 255; 255] in
  Forall bytes_ok
         [ generateNormalMap (A:=Float64) img PrimFloat.nan;
           generateRoughnessMap (A:=Float64) img PrimFloat.infinity;
           generateAOMap (A:=Float64) img;
           generateMetalnessMap img true;
           generateHeightMap (A:=Float64) img ].
Proof.
  apply (derived_maps_bytes (A:=Float64)
           (mkImageData 2 1 [0; 0; 0; 255; 255; 255; 255; 255])).
  unfold bytes_ok. cbn [data]. repeat constructor; lia.
Defined.

(** ** The normal map sees only brightness *)

Section LuminanceOfSum.
Context (img : ImageData).
Hypothesis Hbytes : bytes_ok img.

Lemma channel0_byte x y c : 0 <= channel0 img x y c <= 255.
Proof.
  unfold channel0, channel.
  destruct (data img !! _) as [b|] eqn:E; cbn; [|lia].
  unfold bytes_ok in Hbytes. rewrite Forall_lookup in Hbytes. exact (Hbytes _ _ E).
Qed.

(** In binary64 the luminance read at a position is that of the channel
    sum of the clamped pixel. *)
Lemma lum_at_sum (p : Z * Z) :
  lum_at (A:=Float64) img p
  = (ofZ (pixel_sum img (clamp_coord (width img) (fst p))
                        (clamp_coord (height img) (snd p))) / lit 765.0)%J.
Proof.
  unfold lum_at, luminance, pixel_sum. cbv zeta.
  rewrite float_sum_bytes by apply channel0_byte. reflexivity.
Qed.
End LuminanceOfSum.

Lemma clamp_coord_in n c : (0 < n)%nat -> (clamp_coord n c < n)%nat.
Proof. unfold clamp_coord. lia. Qed.

(** X8: the normal map depends on the image only through the channel sums
    R + G + B of its pixels: two images of equal dimensions whose pixels have
    equal sums (whatever their hue and alpha) have the same normal map. *)
Theorem normal_map_of_sums (img img' : ImageData) (strength : @num Float64) :
  width img = width img' -> height img = height img' ->
  length (data img) = (4 * (width img * height img))%nat ->
  length (data img') = (4 * (width img * height img))%nat ->
  bytes_ok img -> bytes_ok img' ->
  (forall x y, (x < width img)%nat -> (y < height img)%nat ->
     pixel_sum img x y = pixel_sum img' x y) ->
  generateNormalMap (A:=Float64) img strength = generateNormalMap (A:=Float64) img' strength.
Proof.
  intros Hw Hh Hlen Hlen' Hb Hb' Hsum.
  assert (forall X Y, (0 < width img)%nat -> (0 < height img)%nat ->
            smooth_height (A:=Float64) img X Y = smooth_height (A:=Float64) img' X Y) as Hsm.
  { intros X Y Hw0 Hh0. unfold smooth_height. f_equal.
    apply List.map_ext. intros p.
    rewrite (lum_at_sum img Hb), (lum_at_sum img' Hb'), <- Hw, <- Hh, Hsum;
      [reflexivity|apply clamp_coord_in; assumption..]. }
  assert (data (generateNormalMap (A:=Float64) img strength)
          = data (generateNormalMap (A:=Float64) img' strength)) as Hd.
  { apply list_eq. intros i.
    destruct (decide (i < 4 * (width img * height img))%nat) as [Hi|Hi].
    - set (w := width img) in *. set (h := height img) in *.
      assert (0 < w)%nat as Hw0 by lia. assert (0 < h)%nat as Hh0 by nia.
      set (q := (i / 4)%nat). set (c := (i mod 4)%nat).
      set (y := (q / w)%nat). set (x := (q mod w)%nat).
      assert (i = 4 * (y * w + x) + c)%nat as Hi'.
      { subst x y c q. pose proof (Nat.div_mod_eq i 4).
        pose proof (Nat.div_mod_eq (i / 4) w). lia. }
      assert (c < 4)%nat as Hc by (subst c; apply Nat.mod_upper_bound; lia).
      assert (x < w)%nat as Hx by (subst x; apply Nat.mod_upper_bound; lia).
      assert (y < h)%nat as Hy.
      { subst y q. apply Nat.Div0.div_lt_upper_bound.
        apply Nat.Div0.div_lt_upper_bound. lia. }
      pose proof (generateNormalMap_channels (A:=Float64) img strength x y Hlen Hx Hy) as H1.
      assert (length (data img') = (4 * (width img' * height img'))%nat) as Hlen''
        by (rewrite <- Hw, <- Hh; exact Hlen').
      pose proof (generateNormalMap_channels (A:=Float64) img' strength x y Hlen''
                    ltac:(rewrite <- Hw; exact Hx) ltac:(rewrite <- Hh; exact Hy)) as H2.
      cbv zeta in H1, H2. unfold channel in H1, H2.
      change (width (generateNormalMap img strength)) with w in H1.
      change (width (generateNormalMap img' strength)) with (width img') in H2.
      rewrite <- Hw in H2. fold w in H2.
      assert (normal_vector (A:=Float64) img strength (Z.of_nat x) (Z.of_nat y)
              = normal_vector (A:=Float64) img' strength (Z.of_nat x) (Z.of_nat y)) as Hnv.
      { unfold normal_vector. rewrite !Hsm by assumption. reflexivity. }
      rewrite <- Hnv in H2. rewrite Hi'.
      destruct H1 as (A0 & A1 & A2 & A3), H2 as (B0 & B1 & B2 & B3).
      destruct c as [|[|[|[|c]]]]; [| | | |lia]; congruence.
    - rewrite !lookup_ge_None_2; [reflexivity|..].
      + rewrite generateNormalMap_length, <- Hw, <- Hh. lia.
      + rewrite generateNormalMap_length. lia. }
  unfold generateNormalMap in *. cbn [data] in Hd. rewrite Hd, Hw, Hh. reflexivity.
Qed.

Lemma normal_map_of_sums_witness :
  generateNormalMap (A:=Float64) (mkImageData 1 1 [10; 20; 30; 255]) (lit 2.5)
  = generateNormalMap (A:=Float64) (mkImageData 1 1 [30; 20; 10; 0]) (lit 2.5).
Proof.
  apply (normal_map_of_sums (mkImageData 1 1 [10; 20; 30; 255])
           (mkImageData 1 1 [30; 20; 10; 0]) (lit 2.5));
    try reflexivity.
  - unfold bytes_ok. cbn [data]. repeat constructor; lia.
  - unfold bytes_ok. cbn [data]. repeat constructor; lia.
  - intros x y Hx Hy. cbn [width height] in Hx, Hy.
    assert (x = 0%nat) as -> by lia. assert (y = 0%nat) as -> by lia. reflexivity.
Defined.

(** ** Images of constant brightness *)

Lemma flat_check_ok : flat_check = true.
Proof. vm_compute. reflexivity. Qed.

(** A product that compares equal to zero is one of the two zeros. *)
Lemma float_eqb_zero (z : float) :
  PrimFloat.eqb z 0%float = true -> z = 0%float \/ z = (-0)%float.
Proof.
  intros H. rewrite FloatAxioms.eqb_spec in H.
  pose proof (SF2Prim_Prim2SF z) as Hz.
  destruct (Prim2SF z) as [s|s| |s m e].
  - rewrite <- Hz. destruct s; [right|left]; reflexivity.
  - destruct s; vm_compute in H; discriminate.
  - vm_compute in H; discriminate.
  - destruct s; vm_compute in H; discriminate.
Qed.

(** X9: an image of constant brightness has the flat normal map: if every
    pixel has the same channel sum R + G + B, then for every finite strength
    (0 * strength == 0) every pixel of the normal map is
    (128, 128, 255, 255), whatever the size of the image. *)
Theorem constant_brightness_flat_normal (img : ImageData) (strength : @num Float64)
    (s : Z) (x y : nat) :
  length (data img) = (4 * (width img * height img))%nat ->
  bytes_ok img ->
  (forall x y, (x < width img)%nat -> (y < height img)%nat -> pixel_sum img x y = s) ->
  (lit 0 * strength =? lit 0)%J = true ->
  (x < width img)%nat -> (y < height img)%nat ->
  let out := generateNormalMap (A:=Float64) img strength in
  channel out x y 0 = Some 128 /\ channel out x y 1 = Some 128 /\
  channel out x y 2 = Some 255 /\ channel out x y 3 = Some 255.
Proof.
  intros Hlen Hb Hsum Hfin Hx Hy out.
  assert (0 <= s <= 765) as Hs.
  { rewrite <- (Hsum x y Hx Hy). unfold pixel_sum.
    pose proof (channel0_byte img Hb x y 0). pose proof (channel0_byte img Hb x y 1).
    pose proof (channel0_byte img Hb x y 2). lia. }
  assert (forall X Y, smooth_height (A:=Float64) img X Y = flat_height s) as Hsm.
  { intros X Y. unfold smooth_height, neighbourhood. cbn [List.map].
    rewrite !(lum_at_sum img Hb). rewrite !Hsum by (apply clamp_coord_in; lia).
    reflexivity. }
  pose proof (forallb_seqZ _ 0 766 s flat_check_ok ltac:(lia)) as Hz.
  apply FloatAxioms.Leibniz.eqb_spec in Hz.
  pose proof (generateNormalMap_channels (A:=Float64) img strength x y Hlen Hx Hy) as H.
  cbv zeta in H. fold out in H. unfold normal_vector in H. cbv zeta in H.
  rewrite !Hsm in H. cbn [nsub nmul Float64] in H. rewrite Hz in H.
  cbn [neq nmul Float64] in Hfin. change (lit (A:=Float64) 0) with 0%float in Hfin.
  destruct (float_eqb_zero _ Hfin) as [E|E]; rewrite E in H; exact H.
Qed.

Lemma constant_brightness_flat_normal_witness :
  let img := mkImageData 2 1 [10; 20; 30; 255; 30; 30; 0; 7] in
  let out := generateNormalMap (A:=Float64) img (lit 2.5) in
  channel out 1 0 0 = Some 128 /\ channel out 1 0 1 = Some 128 /\
  channel out 1 0 2 = Some 255 /\ channel out 1 0 3 = Some 255.
Proof.
  apply (constant_brightness_flat_normal
           (mkImageData 2 1 [10; 20; 30; 255; 30; 30; 0; 7]) (lit 2.5) 60 1 0);
    try reflexivity; try (cbn; lia).
  - unfold bytes_ok. cbn [data]. repeat constructor; lia.
  - intros x y Hx Hy. cbn [width height] in Hx, Hy.
    assert (y = 0%nat) as -> by lia.
    assert (x = 0 \/ x = 1)%nat as [-> | ->] by lia; reflexivity.
Defined.

(** ** Falsy numbers *)

Lemma SFcompare_refl_finite s m e :
  SFcompare (S754_finite s m e) (S754_finite s m e) = Some Eq.
Proof.
  unfold SFcompare. destruct s; rewrite Z.compare_refl, Pos.compare_cont_refl; reflexivity.
Qed.

(** A falsy number (0, -0 or NaN) is not greater than one half. *)
Lemma float_falsy_not_gt (m : float) :
  truthy (A:=Float64) m = false -> ngt (A:=Float64) m (lit 0.5) = false.
Proof.
  unfold truthy, isNaN, ngt. cbn [neq nlt Float64].
  change (lit (A:=Float64) 0) with 0%float.
  change (lit (A:=Float64) 0.5) with 0.5%float.
  rewrite !FloatAxioms.eqb_spec, FloatAxioms.ltb_spec.
  destruct (Prim2SF m) as [s|s| |s mm e].
  - intros _. destruct s; reflexivity.
  - destruct s; intros H; vm_compute in H; discriminate.
  - intros _. reflexivity.
  - unfold SFeqb at 1. rewrite SFcompare_refl_finite.
    destruct s; intros H; vm_compute in H; discriminate.
Qed.

(** ** What processAllMaps guarantees *)

(** X11: [processAllMaps] is all or nothing.  It always ends with the busy
    flag cleared and the tiling, normal depth and displacement settings
    untouched, and then either it reports no error and has replaced all six
    maps (the albedo shown is the one processed), or it reports a non-empty
    error message and has changed no map and no setting.  It never lowers
    the key prompt. *)
Theorem processAllMaps_all_or_nothing {A : Arith} (st : AppState)
    (albedoUrl : ImageData) (response : ServiceResult) :
  let st' := processAllMaps st albedoUrl response in
  isGenerating st' = false /\
  repeat (settings st') = repeat (settings st) /\
  normalScale (settings st') = normalScale (settings st) /\
  displacementScale (settings st') = displacementScale (settings st) /\
  (showKeyPrompt st = true -> showKeyPrompt st' = true) /\
  ((error st' = None /\ albedo (maps st') = Some albedoUrl /\
    forall m, getMap (maps st') m <> None)
   \/
   ((exists msg, error st' = Some msg /\ msg <> ""%string) /\
    maps st' = maps st /\ settings st' = settings st)).
Proof.
  unfold processAllMaps. destruct response as [err|text].
  - cbn [analyzeTextureMetadata].
    destruct (includes (message err) "leaked" || includes (message err) "403");
      cbn [isGenerating settings maps error showKeyPrompt];
      repeat (split; [try reflexivity; tauto|]); right;
      (split; [|split; reflexivity]).
    + eexists. split; [reflexivity|discriminate].
    + destruct (String.eqb_spec (message err) "") as [E|E];
        eexists; (split; [reflexivity|]); [discriminate|exact E].
  - rewrite analyzeTextureMetadata_replied.
    cbn [isGenerating settings maps error showKeyPrompt repeat normalScale
         displacementScale albedo].
    repeat (split; [try reflexivity; tauto|]). left.
    split; [reflexivity|]. split; [reflexivity|].
    intros [] ; discriminate.
Qed.

(** X12: the metalness map [processAllMaps] produces is white exactly when
    the suggested metalness is greater than 0.5: a suggestion of 0.5 or
    less, a NaN and a missing suggestion all give the black map.  The
    roughness intensity it sets is never 0 or NaN. *)
Theorem processAllMaps_metal_threshold (st : AppState (A:=Float64))
    (albedoUrl : ImageData) (text : ResponseText) :
  let m := match numeric_field text "suggestedMetalness" with
           | Some n => n
           | None => lit 0.0
           end in
  let st' := processAllMaps st albedoUrl (ServiceReplied text) in
  metalness (maps st') = Some (generateMetalnessMap albedoUrl (lit 0.5 <? m)%J) /\
  truthy (roughnessIntensity (settings st')) = true.
Proof.
  intros m st'. subst st'. unfold processAllMaps.
  rewrite analyzeTextureMetadata_replied. fold m.
  cbn [maps settings metalness roughnessIntensity suggestedRoughness suggestedMetalness].
  split.
  - do 2 f_equal. unfold or_else.
    destruct (truthy m) eqn:E; [reflexivity|].
    rewrite not_metal_by_default. symmetry. exact (float_falsy_not_gt m E).
  - unfold or_else.
    destruct (truthy match numeric_field text "suggestedRoughness" with
                     | Some n => n | None => lit 0.6 end) eqn:E; [exact E|reflexivity].
Qed.

(** X13: each field of the analysis falls back on its own: a reply object
    with a numeric suggestedRoughness but no numeric suggestedMetalness keeps
    the roughness and defaults the metalness to 0, and the other way round
    the roughness defaults to 0.6; a reply that parses to [null] (or to
    anything that is not an object) yields both defaults instead of an
    error. *)
Theorem analyzeTextureMetadata_per_field {A : Arith}
    (props : list (string * JsValue)) (data : JsValue) :
  (forall r, assoc "suggestedRoughness" props = Some (JNumber r) ->
     (forall m, assoc "suggestedMetalness" props <> Some (JNumber m)) ->
     analyzeTextureMetadata (ServiceReplied (Text (Some (JObject props))))
     = inr (mkMetadata r (lit 0.0))) /\
  (forall m, assoc "suggestedMetalness" props = Some (JNumber m) ->
     (forall r, assoc "suggestedRoughness" props <> Some (JNumber r)) ->
     analyzeTextureMetadata (ServiceReplied (Text (Some (JObject props))))
     = inr (mkMetadata (lit 0.6) m)) /\
  ((forall props', data <> JObject props') ->
     analyzeTextureMetadata (ServiceReplied (Text (Some data)))
     = inr (mkMetadata (lit 0.6) (lit 0.0))).
Proof.
  repeat split.
  - intros r Hr Hm. rewrite analyzeTextureMetadata_replied, !numeric_field_object, Hr.
    destruct (assoc "suggestedMetalness" props) as [[]|]; try reflexivity.
    exfalso. eapply Hm. reflexivity.
  - intros m Hm Hr. rewrite analyzeTextureMetadata_replied, !numeric_field_object, Hm.
    destruct (assoc "suggestedRoughness" props) as [[]|]; try reflexivity.
    exfalso. eapply Hr. reflexivity.
  - intros Hd. destruct data; try reflexivity. exfalso. eapply Hd. reflexivity.
Qed.

Lemma analyzeTextureMetadata_per_field_witness :
  analyzeTextureMetadata (A:=Float64)
    (ServiceReplied (Text (Some (JObject [("suggestedRoughness"%string, JNumber (lit 0.3));
                                          ("suggestedMetalness"%string, JString "0.9")]))))
  = inr (mkMetadata (lit 0.3) (lit 0.0)).
Proof.
  apply (proj1 (analyzeTextureMetadata_per_field (A:=Float64)
                  [("suggestedRoughness"%string, JNumber (lit 0.3));
                   ("suggestedMetalness"%string, JString "0.9")] JNull) (lit 0.3) eq_refl).
  intros m. cbn. discriminate.
Defined.

(** X14: when the analysis gives no numeric roughness, the roughness map
    [processAllMaps] produces (multiplier 0.6 * 1.2) is never brighter than
    212, and it is 0 exactly for the pixels whose channel sum is at least
    587. *)
Theorem fallback_roughness_capped (st : AppState (A:=Float64)) (albedoUrl : ImageData)
    (text : ResponseText) (k : nat) (r g b a : Z) (m : ImageData) (v : Z) :
  numeric_field text "suggestedRoughness" = None ->
  pixel_at albedoUrl k r g b a ->
  roughness (maps (processAllMaps st albedoUrl (ServiceReplied text))) = Some m ->
  data m !! (4 * k)%nat = Some v ->
  v <= 212 /\ (v = 0 <-> 587 <= r + g + b).
Proof.
  intros Hr Hp Hm Hv. unfold processAllMaps in Hm.
  rewrite analyzeTextureMetadata_replied, Hr in Hm.
  cbn [maps roughness suggestedRoughness] in Hm.
  rewrite or_else_roughness_default in Hm. injection Hm as <-.
  rewrite <- (Nat.add_0_r (4 * k)),
    (generateRoughnessMap_byte _ _ _ _ _ _ _ 0%nat Hp) in Hv by lia.
  injection Hv as <-. apply pixel_at_sum in Hp.
  pose proof (forallb_seqZ _ 0 766 (r + g + b) roughness_check_ok ltac:(lia)) as Hc.
  unfold roughness_check_at in Hc. cbv zeta in Hc.
  apply andb_prop in Hc as [Hc Hz]. apply andb_prop in Hc as [_ Hcap].
  apply Bool.eqb_prop in Hz. apply Z.leb_le in Hcap.
  match goal with
  | |- ?x <= 212 /\ _ =>
      change (x <= 212) in Hcap; change ((x =? 0) = (587 <=? r + g + b)) in Hz;
      set (v := x) in *
  end.
  destruct (Z.eqb_spec v 0), (Z.leb_spec 587 (r + g + b)); try discriminate; lia.
Qed.

Lemma fallback_roughness_capped_witness :
  let albedoUrl := mkImageData 1 1 [200; 200; 200; 255] in
  let done := processAllMaps (A:=Float64) initialState albedoUrl (ServiceReplied (Text None)) in
  pixel_at albedoUrl 0 200 200 200 255 /\
  roughness (maps done) = Some (mkImageData 1 1 [0; 0; 0; 255]) /\
  0 <= 212 /\ (0 = 0 <-> 587 <= 200 + 200 + 200).
Proof.
  intros albedoUrl done.
  assert (pixel_at albedoUrl 0 200 200 200 255) as P by (repeat split; (reflexivity || lia)).
  split; [exact P|]. split; [reflexivity|].
  exact (fallback_roughness_capped initialState albedoUrl (Text None) 0
           200 200 200 255 (mkImageData 1 1 [0; 0; 0; 255]) 0 eq_refl P eq_refl eq_refl).
Defined.

(** ** Generating the base texture and sending it for analysis *)

(** X15: [generateBaseTexture] returns the data URL of the first part that
    has an [inlineData] object, skipping the parts before it and ignoring the
    parts after it; if that object has no [data], the URL ends in
    "undefined".  When no part has inline data it fails with its own
    message; a failure of the service call is passed on unchanged. *)
Theorem generateBaseTexture_first_inline (before after : list Part) (part : Part)
    (blob : Blob) (err : JsError) :
  Forall (fun p => inlineData p = None) before ->
  (inlineData part = Some blob ->
     generateBaseTexture (inr (before ++ part :: after))
     = inr match blob_data blob with
           | Some d => dataUrl d
           | None => "data:image/png;base64,undefined"%string
           end) /\
  generateBaseTexture (inr before)
    = inl (mkError "Failed to generate HD texture image.") /\
  generateBaseTexture (inl err) = inl err.
Proof.
  intros Hb. repeat split.
  - intros Hd. cbn [generateBaseTexture].
    induction Hb as [|p before Hp _ IH]; cbn [app firstInline].
    + rewrite Hd. destruct (blob_data blob); reflexivity.
    + rewrite Hp. exact IH.
  - cbn [generateBaseTexture].
    induction Hb as [|p before Hp _ IH]; cbn [firstInline]; [reflexivity|].
    rewrite Hp. exact IH.
Qed.

Lemma generateBaseTexture_first_inline_witness :
  generateBaseTexture
    (inr [mkPart None (Some "Here is your texture"%string);
          mkPart (Some (mkBlob None (Some "image/png"%string))) None;
          mkPart (Some (mkBlob (Some "REVG"%string) (Some "image/png"%string))) None])
  = inr "data:image/png;base64,undefined"%string.
Proof.
  apply (proj1 (generateBaseTexture_first_inline
                  [mkPart None (Some "Here is your texture"%string)]
                  [mkPart (Some (mkBlob (Some "REVG"%string) (Some "image/png"%string))) None]
                  (mkPart (Some (mkBlob None (Some "image/png"%string))) None)
                  (mkBlob None (Some "image/png"%string)) (mkError "")
                  ltac:(repeat constructor)) eq_refl).
Defined.

Lemma split_on_no_sep (sep : ascii) (s : string) :
  ~ In sep (list_ascii_of_string s) -> split_on sep s = [s].
Proof.
  induction s as [|c s IH]; intros Hn; [reflexivity|].
  cbn [split_on list_ascii_of_string] in *.
  destruct (Ascii.eqb_spec c sep) as [->|Hne]; [exfalso; apply Hn; left; reflexivity|].
  rewrite IH; [reflexivity|]. intros Hin. apply Hn. right. exact Hin.
Qed.

(** X16: the payload that [analyzeTextureMetadata] cuts out of a data URL,
    [imageUrl.split(',')[1]], is the image data that [generateBaseTexture]
    put into it, provided the data holds no comma (base64 text never does);
    a URL without any comma has no payload ([undefined]). *)
Theorem inlinePayload_round_trip (d url : string) :
  (~ In ","%char (list_ascii_of_string d) -> inlinePayload (dataUrl d) = Some d) /\
  (~ In ","%char (list_ascii_of_string url) -> inlinePayload url = None).
Proof.
  split; intros Hn; unfold inlinePayload.
  - unfold dataUrl. cbn [String.append split_on Ascii.eqb Bool.eqb].
    rewrite (split_on_no_sep _ d Hn). reflexivity.
  - rewrite (split_on_no_sep _ url Hn). reflexivity.
Qed.

Lemma inlinePayload_round_trip_witness :
  inlinePayload (dataUrl "QUJD") = Some "QUJD"%string /\ inlinePayload "QUJD" = None.
Proof.
  destruct (inlinePayload_round_trip "QUJD" "QUJD") as [H1 H2].
  split; [apply H1|apply H2]; cbn; intuition discriminate.
Defined.

(** ** handleGenerate *)

Lemma processAllMaps_ignores_flags {A : Arith} (st : AppState) busy err albedoUrl response :
  processAllMaps (mkState (maps st) (settings st) busy err (showKeyPrompt st))
                 albedoUrl response
  = processAllMaps st albedoUrl response.
Proof. reflexivity. Qed.

Lemma processAllMaps_busy_cleared {A : Arith} (st : AppState) albedoUrl response :
  isGenerating (processAllMaps st albedoUrl response) = false.
Proof. reflexivity. Qed.

(** X17: [handleGenerate] does nothing for an empty prompt.  Otherwise it
    ends with the busy flag cleared; when the base texture was generated it
    ends in the state [processAllMaps] gives for that texture; when the
    generation failed it changes no map and no setting, and the failure is
    always visible: an error message is set or the key prompt is raised (for
    "Requested entity was not found" only the prompt, with no message). *)
Theorem handleGenerate_outcomes {A : Arith} (st : AppState) (prompt : string)
    (base : JsError + ImageData) (response : ServiceResult) :
  let st' := handleGenerate st prompt base response in
  (prompt = ""%string -> st' = st) /\
  (prompt <> ""%string ->
     isGenerating st' = false /\
     match base with
     | inr albedoUrl => st' = processAllMaps st albedoUrl response
     | inl err =>
         maps st' = maps st /\ settings st' = settings st /\
         (error st' <> None \/ showKeyPrompt st' = true) /\
         (includes (message err) "leaked" = false ->
          includes (message err) "403" = false ->
          includes (message err) "Requested entity was not found" = true ->
          error st' = None /\ showKeyPrompt st' = true)
     end).
Proof.
  unfold handleGenerate. split.
  - intros ->. reflexivity.
  - intros Hne. destruct (String.eqb_spec prompt "") as [E|_]; [contradiction|].
    destruct base as [err|albedoUrl].
    + destruct (includes (message err) "leaked") eqn:E1;
        destruct (includes (message err) "403") eqn:E2;
        destruct (includes (message err) "Requested entity was not found") eqn:E3;
        cbn [orb maps settings error showKeyPrompt isGenerating];
        repeat split; try reflexivity; try discriminate;
        try (left; discriminate); try (right; reflexivity).
    + rewrite processAllMaps_ignores_flags. split; [|reflexivity].
      apply (processAllMaps_busy_cleared st albedoUrl response).
Qed.

Lemma handleGenerate_outcomes_witness :
  let st' := handleGenerate (A:=Float64) initialState "rusty iron"
               (inl (mkError "Requested entity was not found.")) (ServiceReplied NoText) in
  isGenerating st' = false /\ error st' = None /\ showKeyPrompt st' = true.
Proof.
  destruct (proj2 (handleGenerate_outcomes (A:=Float64) initialState "rusty iron"
                     (inl (mkError "Requested entity was not found."))
                     (ServiceReplied NoText)) ltac:(discriminate))
    as (Hbusy & _ & _ & _ & Hsilent).
  split; [exact Hbusy|]. apply Hsilent; reflexivity.
Defined.

(** ** Exporting *)

(** X18: after [processAllMaps] has succeeded, EXPORT ALL starts exactly six
    downloads, in this order and under these names, the first being the
    albedo that was processed; after a failed run from the initial state it
    starts none. *)
Theorem exportAll_after_processing {A : Arith} (st : AppState) (albedoUrl : ImageData)
    (text : ResponseText) (err : JsError) :
  let done := processAllMaps st albedoUrl (ServiceReplied text) in
  List.map snd (exportAll (maps done))
  = [ "PBR_ALBEDO.png"; "PBR_NORMAL.png"; "PBR_ROUGHNESS.png";
      "PBR_METALNESS.png"; "PBR_AO.png"; "PBR_HEIGHT.png" ]%string /\
  List.map fst (exportAll (maps done))
  = [ albedoUrl; generateNormalMap albedoUrl (lit 2.5) ]
    ++ match roughness (maps done), metalness (maps done) with
       | Some r, Some m => [r; m]
       | _, _ => []
       end
    ++ [ generateAOMap albedoUrl; generateHeightMap albedoUrl ] /\
  exportAll (maps (processAllMaps initialState albedoUrl (ServiceFailed err))) = [].
Proof.
  cbv zeta. unfold processAllMaps. rewrite analyzeTextureMetadata_replied.
  cbn [maps roughness metalness analyzeTextureMetadata].
  split; [reflexivity|]. split; [reflexivity|].
  destruct (includes (message err) "leaked" || includes (message err) "403"); reflexivity.
Qed.

(** ** Asking for a key *)

(** X19: [checkKey] leaves the key prompt down exactly when the environment
    key is longer than ten characters and is not the text "undefined", or
    else the platform bridge reports a selected key; a usable environment
    key wins whatever the bridge does, and a missing or failing bridge
    raises the prompt. *)
Theorem checkKey_prompt (envKey : option string) (aistudio : Bridge) :
  checkKey envKey aistudio = false <->
  (exists k, envKey = Some k /\ k <> "undefined"%string /\ (10 < String.length k)%nat)
  \/ aistudio = BridgeReports true.
Proof.
  unfold checkKey. split.
  - destruct envKey as [k|].
    + destruct (String.eqb_spec k "") as [E0|E0],
        (String.eqb_spec k "undefined") as [E1|E1],
        (Nat.ltb_spec 10 (String.length k)) as [E2|E2];
        cbn [negb andb];
        try (intros _; left; exists k; auto; fail);
        destruct aistudio as [| |[]]; cbn; intros Hp;
        try discriminate; right; reflexivity.
    + destruct aistudio as [| |[]]; cbn; intros Hp;
        try discriminate; right; reflexivity.
  - intros [(k & -> & Hu & Hl)| ->].
    + destruct (String.eqb_spec k "") as [->|_]; [cbn in Hl; lia|].
      destruct (String.eqb_spec k "undefined") as [E|_]; [contradiction|].
      destruct (Nat.ltb_spec 10 (String.length k)); [reflexivity|lia].
    + destruct (match envKey with Some _ => _ | None => _ end); reflexivity.
Qed.

(** ** Dimensions after a run *)

Lemma gray_maps_length {A : Arith} (img : ImageData) (multiplier : num) :
  length (data (generateRoughnessMap img multiplier)) = length (data img) /\
  length (data (generateAOMap img)) = length (data img) /\
  length (data (generateHeightMap img)) = length (data img).
Proof.
  unfold generateRoughnessMap, generateAOMap, generateHeightMap. cbn [data].
  repeat split; apply for_stride4_length; intros i o; rewrite !set_length; reflexivity.
Qed.

(** X20: after a successful run every map in the state, the albedo
    included, has the dimensions of the processed image and four bytes per
    pixel, so the six textures line up. *)
Theorem processAllMaps_dimensions {A : Arith} (st : AppState) (albedoUrl : ImageData)
    (text : ResponseText) (m : MapType) :
  length (data albedoUrl) = (4 * (width albedoUrl * height albedoUrl))%nat ->
  exists img,
    getMap (maps (processAllMaps st albedoUrl (ServiceReplied text))) m = Some img /\
    width img = width albedoUrl /\ height img = height albedoUrl /\
    length (data img) = (4 * (width albedoUrl * height albedoUrl))%nat.
Proof.
  intros Hlen. unfold processAllMaps. rewrite analyzeTextureMetadata_replied.
  cbn [maps].
  destruct m; cbn [getMap albedo normal roughness metalness ao height_];
    eexists; (split; [reflexivity|]); (split; [reflexivity|]); (split; [reflexivity|]).
  - exact Hlen.
  - apply generateNormalMap_length.
  - rewrite (proj1 (gray_maps_length albedoUrl _)). exact Hlen.
  - apply fillRect_length.
  - rewrite (proj1 (proj2 (gray_maps_length albedoUrl (lit 0)))). exact Hlen.
  - rewrite (proj2 (proj2 (gray_maps_length albedoUrl (lit 0)))). exact Hlen.
Qed.

Lemma processAllMaps_dimensions_witness :
  let albedoUrl := mkImageData 2 1 [0; 0; 0; 255; 255; 255; 255; 255] in
  exists img,
    getMap (maps (processAllMaps (A:=Float64) initialState albedoUrl
                    (ServiceReplied NoText))) Roughness = Some img /\
    width img = 2%nat /\ height img = 1%nat /\ length (data img) = 8%nat.
Proof.
  exact (processAllMaps_dimensions (A:=Float64) initialState
           (mkImageData 2 1 [0; 0; 0; 255; 255; 255; 255; 255]) NoText Roughness eq_refl).
Defined.

(** * Binary64 rounding and the decoded normal vector

    The primitive operations on doubles are specified by the functions of
    [SpecFloat] on triples of sign, mantissa and exponent.  From that
    specification this part derives that every operation of the program on
    finite doubles is faithful: its result is within one unit in the last
    place of the exact result ([mul_faithful], [add_faithful],
    [sub_faithful], [div_faithful], [sqrt_faithful]), and that comparisons
    of finite doubles are those of their values.  The normal map is then
    followed operation by operation. *)

(** ** Mantissas and their number of digits *)

Lemma digits2_pos_size (p : positive) : digits2_pos p = Pos.size p.
Proof. induction p; cbn; congruence. Qed.

Lemma Zdigits2_pos (m : Z) : 0 < m -> 2 ^ (Zdigits2 m - 1) <= m < 2 ^ Zdigits2 m.
Proof.
  destruct m as [|p|p]; try lia. intros _. cbn [Zdigits2].
  rewrite digits2_pos_size.
  pose proof (Pos.size_gt p) as Hgt. pose proof (Pos.size_le p) as Hle.
  apply Pos2Z.pos_lt_pos in Hgt. apply Pos2Z.pos_le_pos in Hle.
  rewrite Pos2Z.inj_pow in Hgt, Hle. change (Z.pos p~0) with (2 * Z.pos p) in Hle.
  assert (2 ^ Z.pos (Pos.size p) = 2 * 2 ^ (Z.pos (Pos.size p) - 1)) as E.
  { rewrite <- Z.pow_succ_r by lia. f_equal. lia. }
  rewrite E in Hle. lia.
Qed.

Lemma Zdigits2_nonneg (m : Z) : 0 <= Zdigits2 m.
Proof. destruct m; cbn; lia. Qed.

Lemma Zdigits2_ge1 (m : Z) : 0 < m -> 1 <= Zdigits2 m.
Proof. destruct m; cbn; lia. Qed.

Lemma Zdigits2_unique (m d : Z) : 2 ^ (d - 1) <= m < 2 ^ d -> 0 < m -> Zdigits2 m = d.
Proof.
  intros [Hlo Hhi] Hm. pose proof (Zdigits2_pos m Hm) as [Hlo' Hhi'].
  pose proof (Zdigits2_ge1 m Hm) as H1.
  assert (0 < d) as Hd.
  { destruct (Z.lt_ge_cases 0 d) as [|Hd]; [assumption|].
    destruct (Z.eq_dec d 0) as [->|]; [cbn in Hhi; lia|].
    rewrite Z.pow_neg_r in Hhi by lia. lia. }
  destruct (Z.lt_trichotomy (Zdigits2 m) d) as [Hlt|[Heq|Hgt]]; [|exact Heq|].
  - assert (2 ^ Zdigits2 m <= 2 ^ (d - 1)) by (apply Z.pow_le_mono_r; lia). lia.
  - assert (2 ^ d <= 2 ^ (Zdigits2 m - 1)) by (apply Z.pow_le_mono_r; lia). lia.
Qed.

Lemma Zdigits2_le (m d : Z) : 0 <= d -> 0 <= m < 2 ^ d -> Zdigits2 m <= d.
Proof.
  intros Hd [Hm Hlt]. destruct (Z.eq_dec m 0) as [->|Hne]; [cbn; lia|].
  pose proof (Zdigits2_pos m ltac:(lia)) as [Hlo _].
  destruct (Z.le_gt_cases (Zdigits2 m) d) as [|Hgt]; [assumption|].
  assert (2 ^ d <= 2 ^ (Zdigits2 m - 1)) by (apply Z.pow_le_mono_r; lia). lia.
Qed.

Lemma Zdigits2_ge (m d : Z) : 2 ^ (d - 1) <= m -> 0 < m -> d <= Zdigits2 m.
Proof.
  intros Hlo Hm. pose proof (Zdigits2_pos m Hm) as [_ Hhi].
  pose proof (Zdigits2_ge1 m Hm).
  destruct (Z.le_gt_cases d (Zdigits2 m)) as [|Hgt]; [assumption|].
  assert (2 ^ Zdigits2 m <= 2 ^ (d - 1)) by (apply Z.pow_le_mono_r; lia). lia.
Qed.

(** Dropping [n] low bits of a mantissa of more than [n] digits. *)
Lemma Zdigits2_div_pow2 (m n : Z) :
  0 < m -> 0 <= n < Zdigits2 m -> Zdigits2 (m / 2 ^ n) = Zdigits2 m - n /\ 0 < m / 2 ^ n.
Proof.
  intros Hm Hn. pose proof (Zdigits2_pos m Hm) as [Hlo Hhi].
  assert (0 < 2 ^ n) as Hp by (apply Z.pow_pos_nonneg; lia).
  assert (2 ^ (Zdigits2 m - n - 1) <= m / 2 ^ n) as Hlo'.
  { apply Z.div_le_lower_bound; [lia|].
    rewrite <- Z.pow_add_r by lia. replace (n + (Zdigits2 m - n - 1)) with (Zdigits2 m - 1) by lia.
    exact Hlo. }
  assert (m / 2 ^ n < 2 ^ (Zdigits2 m - n)) as Hhi'.
  { apply Z.div_lt_upper_bound; [lia|].
    rewrite <- Z.pow_add_r by lia. replace (n + (Zdigits2 m - n)) with (Zdigits2 m) by lia.
    exact Hhi. }
  assert (0 < 2 ^ (Zdigits2 m - n - 1)) by (apply Z.pow_pos_nonneg; lia).
  split; [|lia]. apply Zdigits2_unique; [|lia]. split; assumption.
Qed.

(** ** Shifting a mantissa right *)

Lemma shr_1_m (mrs : shr_record) : 0 <= shr_m mrs -> shr_m (shr_1 mrs) = shr_m mrs / 2.
Proof.
  destruct mrs as [m r s]. cbn [shr_m]. intros Hm.
  destruct m as [|[p|p|]|p]; cbn [shr_1 shr_m]; try lia; try reflexivity;
    first [apply Z.div_unique with (r := 1); lia | apply Z.div_unique with (r := 0); lia].
Qed.

Lemma iter_shr_1_m (p : positive) (mrs : shr_record) :
  0 <= shr_m mrs -> shr_m (SpecFloat.iter_pos shr_1 p mrs) = shr_m mrs / 2 ^ Z.pos p.
Proof.
  revert mrs. induction p as [p IH|p IH|]; intros mrs Hm; cbn [SpecFloat.iter_pos].
  - assert (0 <= shr_m (shr_1 mrs)) as H1 by (rewrite shr_1_m by assumption; apply Z.div_pos; lia).
    assert (0 <= shr_m (SpecFloat.iter_pos shr_1 p (shr_1 mrs))) as H2
      by (rewrite IH by assumption; apply Z.div_pos; [lia|apply Z.pow_pos_nonneg; lia]).
    rewrite IH by assumption. rewrite IH by assumption. rewrite shr_1_m by assumption.
    rewrite !Z.div_div by (try apply Z.pow_pos_nonneg; lia).
    f_equal. change 2 with (2 ^ 1) at 1. rewrite <- !Z.pow_add_r by lia. f_equal. lia.
  - assert (0 <= shr_m (SpecFloat.iter_pos shr_1 p mrs)) as H2
      by (rewrite IH by assumption; apply Z.div_pos; [lia|apply Z.pow_pos_nonneg; lia]).
    rewrite IH by assumption. rewrite IH by assumption.
    rewrite !Z.div_div by (try apply Z.pow_pos_nonneg; lia).
    f_equal. rewrite <- !Z.pow_add_r by lia. f_equal. lia.
  - rewrite shr_1_m by assumption. reflexivity.
Qed.

Lemma shr_record_of_loc_m (m : Z) (l : location) : shr_m (shr_record_of_loc m l) = m.
Proof. destruct l as [|[]]; reflexivity. Qed.

(** [shr_fexp] drops [fexp (digits + e) - e] bits when that is positive. *)
Lemma shr_fexp_m (m e : Z) (l : location) :
  0 <= m ->
  let n := Z.max 0 (fexp prec emax (Zdigits2 m + e) - e) in
  shr_m (fst (shr_fexp prec emax m e l)) = m / 2 ^ n /\
  snd (shr_fexp prec emax m e l) = e + n.
Proof.
  intros Hm n. unfold shr_fexp, shr. subst n.
  destruct (fexp prec emax (Zdigits2 m + e) - e) as [|p|p] eqn:E; cbn [fst snd].
  - rewrite shr_record_of_loc_m. cbn. rewrite Z.div_1_r. lia.
  - rewrite iter_shr_1_m by (rewrite shr_record_of_loc_m; exact Hm).
    rewrite shr_record_of_loc_m. rewrite Z.max_r by lia. split; reflexivity.
  - rewrite shr_record_of_loc_m. rewrite Z.max_l by lia. cbn. rewrite Z.div_1_r. lia.
Qed.

Lemma round_nearest_even_cases (m : Z) (l : location) :
  round_nearest_even m l = m \/ round_nearest_even m l = m + 1.
Proof. destruct l as [|[]]; cbn; auto. destruct (Z.even m); auto. Qed.

Lemma fexp_eq (z : Z) : fexp prec emax z = Z.max (z - 53) (-1074).
Proof. reflexivity. Qed.

(** ** The shape of a rounded result

    [binary_round_aux] on a mantissa that needs no padding yields the
    mantissa cut down to the target exponent, or its successor, in
    canonical form. *)
Lemma binary_round_aux_shape (s : bool) (m e : Z) (l : location) :
  0 <= m -> e <= fexp prec emax (Zdigits2 m + e) ->
  exists m2 m3 e3 : Z,
    let e1 := fexp prec emax (Zdigits2 m + e) in
    let m1 := m / 2 ^ (e1 - e) in
    (m2 = m1 \/ m2 = m1 + 1) /\
    e1 <= e3 /\ m3 * 2 ^ (e3 - e1) = m2 /\ 0 <= m3 /\
    (m3 = 0 \/ e3 = fexp prec emax (Zdigits2 m3 + e3)) /\
    binary_round_aux prec emax s m e l
    = match m3 with
      | Z0 => S754_zero s
      | Zpos p => if e3 <=? emax - prec then S754_finite s p e3 else S754_infinity s
      | Zneg _ => S754_nan
      end.
Proof.
  intros Hm Hn. cbv zeta.
  assert (exists e1, e1 = fexp prec emax (Zdigits2 m + e)) as [e1 He1def] by eauto.
  rewrite <- He1def in *.
  assert (e1 = Z.max (Zdigits2 m + e - 53) (-1074)) as Hfe1 by (rewrite He1def; reflexivity).
  unfold binary_round_aux.
  pose proof (shr_fexp_m m e l Hm) as [Hm1 He1]. cbv zeta in Hm1, He1.
  rewrite <- He1def in Hm1, He1. rewrite Z.max_r in Hm1, He1 by lia.
  replace (e + (e1 - e)) with e1 in He1 by lia.
  destruct (shr_fexp prec emax m e l) as [mrs' e'] eqn:E1. cbn [fst snd] in Hm1, He1.
  subst e'.
  assert (exists m1, m1 = m / 2 ^ (e1 - e)) as [m1 Hm1def] by eauto.
  rewrite <- Hm1def in *.
  assert (0 <= m1) as Hm1pos
    by (rewrite Hm1def; apply Z.div_pos; [lia|apply Z.pow_pos_nonneg; lia]).
  assert (exists m2, m2 = round_nearest_even (shr_m mrs') (loc_of_shr_record mrs'))
    as [m2 Hm2def] by eauto.
  rewrite <- Hm2def.
  assert (m2 = m1 \/ m2 = m1 + 1) as Hm2
    by (rewrite Hm2def, <- Hm1; apply round_nearest_even_cases).
  assert (0 <= m2) as Hm2pos by lia.
  pose proof (shr_fexp_m m2 e1 loc_Exact Hm2pos) as [Hm3 He3]. cbv zeta in Hm3, He3.
  destruct (shr_fexp prec emax m2 e1 loc_Exact) as [mrs'' e''] eqn:E2.
  cbn [fst snd] in Hm3, He3.
  rewrite fexp_eq in Hm3, He3.
  assert (exists n2, n2 = Z.max 0 (Z.max (Zdigits2 m2 + e1 - 53) (-1074) - e1))
    as [n2 Hn2def] by eauto.
  rewrite <- Hn2def in Hm3, He3.
  exists m2, (shr_m mrs''), e''.
  split; [exact Hm2|].
  (* digits of m1 *)
  assert ((m1 = 0 /\ e1 = -1074) \/ (0 < m1 /\ Zdigits2 m1 + e1 = Zdigits2 m + e)) as Hd1.
  { destruct (Z.eq_dec m 0) as [Hm0|Hm0].
    { left. subst m. cbn [Zdigits2] in *. split; [|lia].
      rewrite Hm1def. apply Z.div_0_l. apply Z.pow_nonzero; lia. }
    assert (0 < m) as Hmpos by lia.
    pose proof (Zdigits2_pos m Hmpos) as [_ Hhi].
    pose proof (Zdigits2_ge1 m Hmpos) as Hd1.
    destruct (Z.lt_ge_cases (e1 - e) (Zdigits2 m)) as [Hlt|Hge].
    - right. pose proof (Zdigits2_div_pow2 m (e1 - e) Hmpos ltac:(lia)) as [Hd Hp].
      rewrite <- Hm1def in Hd, Hp. lia.
    - left. split; [|lia]. rewrite Hm1def. apply Z.div_small.
      assert (2 ^ Zdigits2 m <= 2 ^ (e1 - e)) by (apply Z.pow_le_mono_r; lia). lia. }
  (* the second shift is by at most one bit, and exact *)
  assert ((n2 = 0 /\ (m2 = 0 \/ e1 = Z.max (Zdigits2 m2 + e1 - 53) (-1074)))
          \/ (n2 = 1 /\ exists k, 1 <= k /\ m2 = 2 ^ k /\ Zdigits2 m2 = k + 1)) as Hn2.
  { destruct Hd1 as [[H0 He]|[Hpos Hd]].
    - destruct Hm2 as [->| ->]; rewrite H0 in *.
      + cbn [Zdigits2] in *. left. lia.
      + change (Zdigits2 (0 + 1)) with 1 in *. left. lia.
    - destruct Hm2 as [->| ->].
      + left. lia.
      + pose proof (Zdigits2_pos m1 Hpos) as [Hlo Hhi].
        pose proof (Zdigits2_ge1 m1 Hpos) as Hge1.
        destruct (Z.eq_dec (m1 + 1) (2 ^ Zdigits2 m1)) as [Hpow|Hnp].
        * assert (Zdigits2 (m1 + 1) = Zdigits2 m1 + 1) as Hd2.
          { apply Zdigits2_unique; [|lia]. rewrite Hpow.
            replace (Zdigits2 m1 + 1 - 1) with (Zdigits2 m1) by lia.
            split; [lia|]. apply Z.pow_lt_mono_r; lia. }
          rewrite Hd2 in *.
          destruct (Z.eq_dec n2 0) as [Hz|Hnz]; [left; lia|].
          right. split; [lia|]. exists (Zdigits2 m1). repeat split; lia.
        * assert (Zdigits2 (m1 + 1) = Zdigits2 m1) as Hd2.
          { apply Zdigits2_unique; [|lia]. split; lia. }
          rewrite Hd2 in *. left. lia. }
  assert (shr_m mrs'' * 2 ^ (e'' - e1) = m2 /\ 0 <= shr_m mrs'' /\
          (shr_m mrs'' = 0 \/ e'' = fexp prec emax (Zdigits2 (shr_m mrs'') + e'')))
    as (Hval & Hpos3 & Hcan).
  { rewrite Hm3, He3. rewrite fexp_eq.
    destruct Hn2 as [[-> Hc]|(-> & k & Hk & Hpow & Hdk)].
    - rewrite Z.add_0_r, Z.sub_diag, Z.pow_0_r.
      rewrite Z.div_1_r, Z.mul_1_r.
      split; [reflexivity|]. split; [exact Hm2pos|]. exact Hc.
    - replace (e1 + 1 - e1) with 1 by lia. rewrite Hpow.
      assert (2 ^ k / 2 ^ 1 = 2 ^ (k - 1)) as Hq.
      { replace k with (1 + (k - 1)) at 1 by lia. rewrite Z.pow_add_r by lia.
        rewrite Z.mul_comm, Z.div_mul by lia. reflexivity. }
      rewrite Hq. split.
      { replace k with ((k - 1) + 1) at 2 by lia. rewrite Z.pow_add_r by lia. reflexivity. }
      assert (0 < 2 ^ (k - 1)) as Hp by (apply Z.pow_pos_nonneg; lia).
      split; [lia|]. right.
      assert (Zdigits2 (2 ^ (k - 1)) = k) as Hdd.
      { apply Zdigits2_unique; [|lia]. split; [lia|]. apply Z.pow_lt_mono_r; lia. }
      rewrite Hdd. rewrite Hdk in Hn2def. lia. }
  split; [lia|]. split; [exact Hval|]. split; [exact Hpos3|]. split; [exact Hcan|].
  reflexivity.
Qed.

(** ** Powers of two *)

Section Bpow.
Local Open Scope R_scope.

Lemma bpow_pos (e : Z) : 0 < bpow e.
Proof. apply powerRZ_lt. lra. Qed.

Lemma bpow_add (a b : Z) : bpow (a + b) = bpow a * bpow b.
Proof. apply powerRZ_add. lra. Qed.

Lemma bpow_IZR (n : Z) : (0 <= n)%Z -> bpow n = IZR (2 ^ n).
Proof.
  intros Hn. destruct n as [|p|p]; [reflexivity| |lia].
  unfold bpow. symmetry. apply Zpower_pos_powerRZ.
Qed.

Lemma bpow_le (a b : Z) : (a <= b)%Z -> bpow a <= bpow b.
Proof.
  intros Hab. replace b with (a + (b - a))%Z by lia. rewrite bpow_add.
  rewrite (bpow_IZR (b - a)) by lia.
  assert (1 <= IZR (2 ^ (b - a))) as H1.
  { apply IZR_le. assert (0 < 2 ^ (b - a))%Z by (apply Z.pow_pos_nonneg; lia). lia. }
  pose proof (bpow_pos a). nra.
Qed.

Lemma bpow_lt (a b : Z) : (a < b)%Z -> bpow a < bpow b.
Proof.
  intros Hab. replace b with (a + (b - a))%Z by lia. rewrite bpow_add.
  rewrite (bpow_IZR (b - a)) by lia.
  assert (2 <= IZR (2 ^ (b - a))) as H1.
  { apply IZR_le. replace (b - a)%Z with (1 + (b - a - 1))%Z by lia.
    rewrite Z.pow_add_r by lia.
    assert (0 < 2 ^ (b - a - 1))%Z by (apply Z.pow_pos_nonneg; lia). lia. }
  pose proof (bpow_pos a). nra.
Qed.

Lemma bpow_succ (a : Z) : bpow (a + 1) = 2 * bpow a.
Proof. rewrite bpow_add. change (bpow 1) with (2 * 1). lra. Qed.

Lemma eps_val : eps = / 4503599627370496.
Proof.
  unfold eps. replace (-52)%Z with (- (52))%Z by reflexivity.
  unfold bpow. rewrite powerRZ_neg'. f_equal.
  change (powerRZ 2 52) with (bpow 52). rewrite bpow_IZR by lia. reflexivity.
Qed.

Lemma eps_bounds : 0 < eps <= 1 / 4000000000000000.
Proof. rewrite eps_val. lra. Qed.

Lemma eta_pos : 0 < eta.
Proof. apply bpow_pos. Qed.

Lemma eta_le_eps_bpow : eta <= eps * bpow (-1022).
Proof. unfold eta, eps. rewrite <- bpow_add. apply bpow_le. lia. Qed.

Lemma eta_small : eta <= eps * / 1000000.
Proof.
  eapply Rle_trans; [apply eta_le_eps_bpow|].
  assert (bpow (-1022) <= bpow (-20)) as H by (apply bpow_le; lia).
  assert (bpow (-20) = / 1048576) as E.
  { replace (-20)%Z with (- (20))%Z by reflexivity. unfold bpow. rewrite powerRZ_neg'. f_equal.
    change (powerRZ 2 20) with (bpow 20). rewrite bpow_IZR by lia. reflexivity. }
  pose proof eps_bounds. rewrite E in H. nra.
Qed.
End Bpow.

Section Rounding.
Local Open Scope R_scope.

(** A real number [x] that lies between two neighbouring multiples of
    [2^e], the lower one having mantissa [m], is rounded to a double within
    one unit in the last place, as long as it is below [2^1023]. *)
Lemma binary_round_aux_faithful (s : bool) (m e : Z) (l : location) (x : R) :
  (0 <= m)%Z -> (e <= fexp prec emax (Zdigits2 m + e))%Z ->
  IZR m * bpow e <= x < IZR (m + 1) * bpow e ->
  x <= bpow 1023 ->
  exists y : R,
    0 <= y /\ Rabs (y - x) <= eps * x + eta /\
    SFfinite (binary_round_aux prec emax s m e l) = true /\
    SF2R (binary_round_aux prec emax s m e l) = (if s then -1 else 1) * y /\
    (forall G k : Z, (-1074 <= k)%Z -> x < bpow (k + 53) ->
       IZR G * bpow k <= x -> IZR G * bpow k <= y).
Proof.
  intros Hm Hn Hx Hbig.
  destruct (binary_round_aux_shape s m e l Hm Hn) as (m2 & m3 & e3 & H).
  cbv zeta in H. destruct H as (Hm2 & He3 & Hval & Hm3 & Hcan & Hres).
  rewrite fexp_eq in *.
  assert (exists e1, e1 = Z.max (Zdigits2 m + e - 53) (-1074)) as [e1 He1] by eauto.
  rewrite <- He1 in *.
  assert (exists m1, m1 = (m / 2 ^ (e1 - e))%Z) as [m1 Hm1] by eauto.
  rewrite <- Hm1 in *.
  assert (0 < 2 ^ (e1 - e))%Z as Hp by (apply Z.pow_pos_nonneg; lia).
  assert (m1 * 2 ^ (e1 - e) <= m < (m1 + 1) * 2 ^ (e1 - e))%Z as Hdiv.
  { pose proof (Z.div_mod m (2 ^ (e1 - e)) ltac:(lia)) as Hdm.
    pose proof (Z.mod_pos_bound m (2 ^ (e1 - e)) Hp) as Hmod.
    rewrite <- Hm1 in Hdm. nia. }
  assert (0 <= m1)%Z as Hm1pos by (rewrite Hm1; apply Z.div_pos; lia).
  assert (bpow e1 = IZR (2 ^ (e1 - e)) * bpow e) as Hbe.
  { rewrite <- bpow_IZR by lia. rewrite <- bpow_add. f_equal. lia. }
  pose proof (bpow_pos e) as Hpe. pose proof (bpow_pos e1) as Hpe1.
  assert (IZR m1 * bpow e1 <= x < IZR (m1 + 1) * bpow e1) as Hx1.
  { rewrite Hbe. destruct Hdiv as [Hd1 Hd2].
    apply IZR_le in Hd1. assert (m + 1 <= (m1 + 1) * 2 ^ (e1 - e))%Z as Hd2' by lia.
    apply IZR_le in Hd2'. rewrite mult_IZR in Hd1, Hd2'. split; nra. }
  set (y := IZR m2 * bpow e1).
  assert (IZR m3 * bpow e3 = y) as Hy.
  { subst y. rewrite <- Hval. rewrite mult_IZR. rewrite <- bpow_IZR by lia.
    rewrite Rmult_assoc. rewrite <- bpow_add. do 2 f_equal. lia. }
  assert (0 <= y) as Hy0.
  { subst y. apply Rmult_le_pos; [apply IZR_le; lia|lra]. }
  assert (Rabs (y - x) <= bpow e1) as Herr.
  { subst y. apply Rabs_le. rewrite plus_IZR in Hx1.
    destruct Hm2 as [-> | ->]; [|rewrite plus_IZR]; lra. }
  assert (0 <= x) as Hx0.
  { destruct Hx1 as [Hx1 _]. assert (0 <= IZR m1) by (apply IZR_le; lia). nra. }
  assert (bpow e1 <= eps * x + eta) as Hulp.
  { destruct (Z.eq_dec e1 (-1074)%Z) as [->|Hne].
    - unfold eta. pose proof eps_bounds. nra.
    - assert (e1 = Zdigits2 m + e - 53)%Z as He1' by lia.
      assert (0 < m)%Z as Hmpos.
      { destruct (Z.eq_dec m 0%Z) as [->|]; [cbn [Zdigits2] in *; lia|lia]. }
      pose proof (Zdigits2_pos m Hmpos) as [Hlo _].
      pose proof (Zdigits2_ge1 m Hmpos) as Hd1.
      apply IZR_le in Hlo. rewrite <- bpow_IZR in Hlo by lia.
      assert (bpow (e1 + 52) <= x) as Hxlo.
      { replace (e1 + 52)%Z with ((Zdigits2 m - 1) + e)%Z by lia. rewrite bpow_add.
        destruct Hx as [Hx _]. pose proof (bpow_pos (Zdigits2 m - 1)). nra. }
      assert (bpow e1 = eps * bpow (e1 + 52)) as ->.
      { unfold eps. rewrite <- bpow_add. f_equal. lia. }
      pose proof eps_bounds. pose proof eta_pos. nra. }
  assert (forall G k : Z, (-1074 <= k)%Z -> x < bpow (k + 53) ->
            IZR G * bpow k <= x -> IZR G * bpow k <= y) as Hmon.
  { intros G k Hk Hxk HG.
    assert (e1 <= k)%Z as He1k.
    { destruct (Z.eq_dec e1 (-1074)%Z) as [->|Hne]; [exact Hk|].
      assert (e1 = Zdigits2 m + e - 53)%Z as He1' by lia.
      assert (0 < m)%Z as Hmpos.
      { destruct (Z.eq_dec m 0%Z) as [->|]; [cbn [Zdigits2] in *; lia|lia]. }
      pose proof (Zdigits2_pos m Hmpos) as [Hlo _].
      pose proof (Zdigits2_ge1 m Hmpos) as Hd1.
      apply IZR_le in Hlo. rewrite <- bpow_IZR in Hlo by lia.
      assert (bpow (e1 + 52) <= x) as Hxlo.
      { replace (e1 + 52)%Z with ((Zdigits2 m - 1) + e)%Z by lia. rewrite bpow_add.
        destruct Hx as [Hx _]. pose proof (bpow_pos (Zdigits2 m - 1)). nra. }
      destruct (Z.le_gt_cases e1 k) as [|Hgt]; [assumption|exfalso].
      assert (bpow (k + 53) <= bpow (e1 + 52)) by (apply bpow_le; lia). lra. }
    assert (IZR G * bpow k = IZR (G * 2 ^ (k - e1)) * bpow e1) as HGk.
    { rewrite mult_IZR, <- bpow_IZR by lia. rewrite Rmult_assoc, <- bpow_add.
      do 2 f_equal. lia. }
    rewrite HGk in HG |- *.
    assert (G * 2 ^ (k - e1) < m1 + 1)%Z as Hlt.
    { apply lt_IZR. apply Rmult_lt_reg_r with (r := bpow e1); [exact Hpe1|]. lra. }
    subst y. apply Rmult_le_compat_r; [lra|]. apply IZR_le. lia. }
  exists y. split; [exact Hy0|]. split; [lra|].
  rewrite Hres. destruct m3 as [|p|p]; [| |lia].
  - cbn [SFfinite SF2R]. split; [reflexivity|]. split; [|exact Hmon]. rewrite <- Hy. lra.
  - assert (e3 <= emax - prec)%Z as Hfin.
    { change (emax - prec)%Z with 971%Z.
      destruct (Z.le_gt_cases e3 971%Z) as [|Hgt]; [assumption|exfalso].
      destruct Hcan as [Hc|Hc]; [lia|].
      assert (Zdigits2 (Z.pos p) = 53)%Z as Hd3 by lia.
      pose proof (Zdigits2_pos (Z.pos p) ltac:(lia)) as [Hlo _]. rewrite Hd3 in Hlo.
      apply IZR_le in Hlo. rewrite <- bpow_IZR in Hlo by lia.
      assert (bpow 1024 <= y) as Hbig'.
      { rewrite <- Hy. replace 1024%Z with ((53 - 1) + 972)%Z by lia. rewrite bpow_add.
        assert (bpow 972 <= bpow e3) by (apply bpow_le; lia).
        pose proof (bpow_pos 972). pose proof (bpow_pos (53 - 1)).
        apply Rmult_le_compat; lra. }
      change 1024%Z with (1023 + 1)%Z in Hbig'. rewrite bpow_succ in Hbig'.
      apply Rabs_le_bounds in Herr.
      pose proof eps_bounds. pose proof eta_small. pose proof (bpow_pos 1023).
      assert (bpow 0 <= bpow 1023) as H01 by (apply bpow_le; lia).
      change (bpow 0) with 1 in H01. nra. }
    apply Z.leb_le in Hfin. rewrite Hfin. cbn [SFfinite SF2R].
    split; [reflexivity|]. split; [|exact Hmon]. rewrite <- Hy. lra.
Qed.
End Rounding.

(** ** Valid doubles *)

Lemma valid_finite (s : bool) (m : positive) (e : Z) :
  SpecFloat.valid_binary prec emax (S754_finite s m e) = true ->
  e = Z.max (Zdigits2 (Z.pos m) + e - 53) (-1074) /\ e <= 971.
Proof.
  cbn [SpecFloat.valid_binary]. unfold bounded, canonical_mantissa.
  intros H. apply andb_true_iff in H as [Hc He].
  apply Z.eqb_eq in Hc. apply Z.leb_le in He. rewrite fexp_eq in Hc.
  cbn [Zdigits2]. change (emax - prec) with 971 in He. lia.
Qed.

Lemma valid_digits (s : bool) (m : positive) (e : Z) :
  SpecFloat.valid_binary prec emax (S754_finite s m e) = true ->
  1 <= Zdigits2 (Z.pos m) <= 53 /\ -1074 <= e <= 971 /\
  (Zdigits2 (Z.pos m) = 53 \/ e = -1074).
Proof.
  intros H. apply valid_finite in H as [Hc He].
  pose proof (Zdigits2_ge1 (Z.pos m) ltac:(lia)). lia.
Qed.

Section Values.
Local Open Scope R_scope.

Lemma SF2R_finite_abs (s : bool) (m : positive) (e : Z) :
  Rabs (SF2R (S754_finite s m e)) = IZR (Z.pos m) * bpow e.
Proof.
  cbn [SF2R]. pose proof (bpow_pos e). assert (0 < IZR (Z.pos m)) by (apply IZR_lt; lia).
  destruct s.
  - rewrite Rabs_left; nra.
  - rewrite Rabs_right; nra.
Qed.

Lemma SF2R_finite_neq0 (s : bool) (m : positive) (e : Z) : SF2R (S754_finite s m e) <> 0.
Proof.
  intros H. pose proof (SF2R_finite_abs s m e) as Ha. rewrite H, Rabs_R0 in Ha.
  pose proof (bpow_pos e). assert (0 < IZR (Z.pos m)) by (apply IZR_lt; lia). nra.
Qed.

(** A valid double is below [2^1024] in magnitude. *)
Lemma SF2R_bound (f : spec_float) :
  SpecFloat.valid_binary prec emax f = true -> Rabs (SF2R f) < bpow 1024.
Proof.
  destruct f as [s|s| |s m e];
    [cbn [SF2R]; intros _; rewrite Rabs_R0; apply bpow_pos ..|].
  intros Hv. rewrite SF2R_finite_abs.
  pose proof (valid_digits s m e Hv) as (Hd & He & _).
  pose proof (Zdigits2_pos (Z.pos m) ltac:(lia)) as [_ Hhi].
  assert (Z.pos m < 2 ^ 53)%Z as Hm.
  { eapply Z.lt_le_trans; [exact Hhi|]. apply Z.pow_le_mono_r; lia. }
  apply IZR_lt in Hm. rewrite <- bpow_IZR in Hm by lia.
  assert (bpow e <= bpow 971) as Hbe by (apply bpow_le; lia).
  replace 1024%Z with (53 + 971)%Z by lia. rewrite bpow_add.
  pose proof (bpow_pos e). pose proof (bpow_pos 53).
  assert (0 < IZR (Z.pos m)) by (apply IZR_lt; lia). nra.
Qed.
End Values.

(** ** Padding a mantissa *)

Lemma iter_xO (m d : positive) : Z.pos (Pos.iter xO m d) = Z.pos m * 2 ^ Z.pos d.
Proof.
  induction d as [|d IH] using Pos.peano_ind.
  - cbn [Pos.iter]. lia.
  - rewrite Pos.iter_succ. rewrite Pos2Z.inj_xO, IH, Pos2Z.inj_succ.
    rewrite Z.pow_succ_r by lia. lia.
Qed.

Lemma shl_align_spec (m : positive) (e e' : Z) :
  let '(m', e'') := shl_align m e e' in
  e'' = Z.min e e' /\ Z.pos m' = Z.pos m * 2 ^ (e - e'').
Proof.
  unfold shl_align. destruct (e' - e) as [|d|d] eqn:E.
  - rewrite Z.min_l by lia. rewrite Z.sub_diag. cbn. lia.
  - rewrite Z.min_l by lia. rewrite Z.sub_diag. cbn. lia.
  - rewrite Z.min_r by lia. split; [reflexivity|]. rewrite iter_xO. f_equal. f_equal. lia.
Qed.

Lemma Zdigits2_mul_pow2 (m n : Z) :
  0 < m -> 0 <= n -> Zdigits2 (m * 2 ^ n) = Zdigits2 m + n.
Proof.
  intros Hm Hn. pose proof (Zdigits2_pos m Hm) as [Hlo Hhi].
  pose proof (Zdigits2_ge1 m Hm) as Hd.
  assert (0 < 2 ^ n) as Hp by (apply Z.pow_pos_nonneg; lia).
  apply Zdigits2_unique; [|nia].
  replace (Zdigits2 m + n - 1) with ((Zdigits2 m - 1) + n) by lia.
  rewrite !Z.pow_add_r by lia. split; nia.
Qed.

Section RoundedProducts.
Local Open Scope R_scope.

(** [binary_round]: padding, then rounding. *)
Lemma binary_round_faithful (s : bool) (m : positive) (e : Z) :
  IZR (Z.pos m) * bpow e <= bpow 1023 ->
  exists y : R,
    0 <= y /\ Rabs (y - IZR (Z.pos m) * bpow e) <= eps * (IZR (Z.pos m) * bpow e) + eta /\
    SFfinite (binary_round prec emax s m e) = true /\
    SF2R (binary_round prec emax s m e) = (if s then -1 else 1) * y /\
    (forall G k : Z, (-1074 <= k)%Z -> IZR (Z.pos m) * bpow e < bpow (k + 53) ->
       IZR G * bpow k <= IZR (Z.pos m) * bpow e -> IZR G * bpow k <= y).
Proof.
  intros Hbig. unfold binary_round.
  pose proof (shl_align_spec m e (fexp prec emax (Z.pos (digits2_pos m) + e))) as Hsh.
  destruct (shl_align m e (fexp prec emax (Z.pos (digits2_pos m) + e))) as [mz ez].
  destruct Hsh as [Hez Hmz].
  change (Z.pos (digits2_pos m)) with (Zdigits2 (Z.pos m)) in Hez.
  rewrite fexp_eq in Hez.
  assert (0 <= e - ez)%Z as Hs by lia.
  assert (IZR (Z.pos mz) * bpow ez = IZR (Z.pos m) * bpow e) as Hval.
  { rewrite Hmz, mult_IZR. rewrite <- bpow_IZR by lia. rewrite Rmult_assoc, <- bpow_add.
    do 2 f_equal. lia. }
  rewrite <- Hval in *.
  apply binary_round_aux_faithful.
  - lia.
  - rewrite fexp_eq. rewrite Hmz. rewrite Zdigits2_mul_pow2 by lia. lia.
  - rewrite plus_IZR. pose proof (bpow_pos ez). lra.
  - exact Hbig.
Qed.

Lemma binary_normalize_faithful (m e : Z) :
  Rabs (IZR m * bpow e) <= bpow 1023 ->
  SFfinite (binary_normalize prec emax m e false) = true /\
  Rabs (SF2R (binary_normalize prec emax m e false) - IZR m * bpow e)
  <= eps * Rabs (IZR m * bpow e) + eta.
Proof.
  intros Hbig. pose proof (bpow_pos e) as Hpe.
  destruct m as [|p|p]; cbn [binary_normalize].
  - cbn [SFfinite SF2R]. split; [reflexivity|].
    rewrite Rmult_0_l, Rminus_0_r, Rabs_R0. pose proof eta_pos. lra.
  - assert (0 < IZR (Z.pos p)) by (apply IZR_lt; lia).
    rewrite (Rabs_right (IZR (Z.pos p) * bpow e)) in * by nra.
    destruct (binary_round_faithful false p e Hbig) as (y & Hy0 & Herr & Hfin & Hv & Hmon).
    split; [exact Hfin|]. rewrite Hv. rewrite Rmult_1_l. exact Herr.
  - assert (IZR (Z.neg p) = - IZR (Z.pos p)) as Hneg by (rewrite <- opp_IZR; reflexivity).
    assert (0 < IZR (Z.pos p)) by (apply IZR_lt; lia).
    rewrite Hneg in *. rewrite (Rabs_left (- IZR (Z.pos p) * bpow e)) in * by nra.
    replace (- (- IZR (Z.pos p) * bpow e)) with (IZR (Z.pos p) * bpow e) in * by lra.
    destruct (binary_round_faithful true p e Hbig) as (y & Hy0 & Herr & Hfin & Hv & Hmon).
    split; [exact Hfin|]. rewrite Hv.
    replace (-1 * y - - IZR (Z.pos p) * bpow e) with (- (y - IZR (Z.pos p) * bpow e)) by lra.
    rewrite Rabs_Ropp. exact Herr.
Qed.

(** *** Multiplication *)
Lemma SFmul_faithful (x y : spec_float) :
  SpecFloat.valid_binary prec emax x = true -> SpecFloat.valid_binary prec emax y = true ->
  SFfinite x = true -> SFfinite y = true ->
  Rabs (SF2R x * SF2R y) <= bpow 1023 ->
  SFfinite (SF64mul x y) = true /\
  Rabs (SF2R (SF64mul x y) - SF2R x * SF2R y) <= eps * Rabs (SF2R x * SF2R y) + eta.
Proof.
  intros Vx Vy Fx Fy Hbig. pose proof eta_pos as Heta.
  destruct x as [sx|sx| |sx mx ex]; try discriminate;
    destruct y as [sy|sy| |sy my ey]; try discriminate;
    unfold SF64mul; cbn [SFmul];
    try (cbn [SFfinite SF2R]; split; [reflexivity|];
         rewrite ?Rmult_0_l, ?Rmult_0_r, Rminus_0_r, Rabs_R0; lra).
  pose proof (valid_digits _ _ _ Vx) as (Hdx & Hex & Hcx).
  pose proof (valid_digits _ _ _ Vy) as (Hdy & Hey & Hcy).
  set (X := IZR (Z.pos (mx * my)) * bpow (ex + ey)).
  assert (Rabs (SF2R (S754_finite sx mx ex) * SF2R (S754_finite sy my ey)) = X) as Habs.
  { rewrite Rabs_mult, !SF2R_finite_abs. subst X. rewrite Pos2Z.inj_mul, mult_IZR, bpow_add. ring. }
  rewrite Habs in *.
  assert (SF2R (S754_finite sx mx ex) * SF2R (S754_finite sy my ey)
          = (if xorb sx sy then -1 else 1) * X) as Hsgn.
  { subst X. cbn [SF2R]. rewrite Pos2Z.inj_mul, mult_IZR, bpow_add.
    destruct sx, sy; cbn [xorb]; ring. }
  destruct (binary_round_aux_faithful (xorb sx sy) (Z.pos (mx * my)) (ex + ey) loc_Exact X)
    as (y & Hy0 & Herr & Hfin & Hv & Hmon).
  - lia.
  - rewrite fexp_eq.
    pose proof (Zdigits2_pos (Z.pos mx) ltac:(lia)) as [Hlx _].
    pose proof (Zdigits2_pos (Z.pos my) ltac:(lia)) as [Hly _].
    assert (Zdigits2 (Z.pos mx) + Zdigits2 (Z.pos my) - 1 <= Zdigits2 (Z.pos (mx * my)))%Z as Hd.
    { apply Zdigits2_ge; [|lia].
      replace (Zdigits2 (Z.pos mx) + Zdigits2 (Z.pos my) - 1 - 1)%Z
        with ((Zdigits2 (Z.pos mx) - 1) + (Zdigits2 (Z.pos my) - 1))%Z by lia.
      rewrite Z.pow_add_r by lia. rewrite Pos2Z.inj_mul.
      assert (0 < 2 ^ (Zdigits2 (Z.pos mx) - 1))%Z by (apply Z.pow_pos_nonneg; lia).
      assert (0 < 2 ^ (Zdigits2 (Z.pos my) - 1))%Z by (apply Z.pow_pos_nonneg; lia).
      nia. }
    lia.
  - subst X. rewrite plus_IZR. pose proof (bpow_pos (ex + ey)). lra.
  - exact Hbig.
  - split; [exact Hfin|]. rewrite Hv, Hsgn.
    replace ((if xorb sx sy then -1 else 1) * y - (if xorb sx sy then -1 else 1) * X)
      with ((if xorb sx sy then -1 else 1) * (y - X)) by ring.
    rewrite Rabs_mult.
    assert (Rabs (if xorb sx sy then -1 else 1) = 1) as ->.
    { destruct (xorb sx sy); [rewrite Rabs_left|rewrite Rabs_right]; lra. }
    lra.
Qed.
End RoundedProducts.

Section RoundedSums.
Local Open Scope R_scope.

Lemma Rabs_sign (s : bool) (y : R) : Rabs ((if s then -1 else 1) * y) = Rabs y.
Proof.
  rewrite Rabs_mult. destruct s; [rewrite Rabs_left|rewrite Rabs_right]; lra.
Qed.

Lemma error_zero (x : R) : Rabs (x - x) <= eps * Rabs x + eta.
Proof.
  rewrite Rminus_diag, Rabs_R0. pose proof eta_pos. pose proof eps_bounds.
  pose proof (Rabs_pos x). nra.
Qed.

(** *** Addition and subtraction *)

Lemma aligned_sum (sx sy : bool) (mx my : positive) (ex ey : Z) (sgn : R) :
  let ez := Z.min ex ey in
  (IZR (cond_Zopp sx (Z.pos (fst (shl_align mx ex ez))))
   + sgn * IZR (cond_Zopp sy (Z.pos (fst (shl_align my ey ez))))) * bpow ez
  = SF2R (S754_finite sx mx ex) + sgn * SF2R (S754_finite sy my ey).
Proof.
  intros ez.
  pose proof (shl_align_spec mx ex ez) as Hx. pose proof (shl_align_spec my ey ez) as Hy.
  destruct (shl_align mx ex ez) as [mx' ex']. destruct (shl_align my ey ez) as [my' ey'].
  destruct Hx as [Hex Hmx]. destruct Hy as [Hey Hmy]. cbn [fst].
  assert (ex' = ez) as -> by (subst ez; lia). assert (ey' = ez) as -> by (subst ez; lia).
  assert (0 <= ex - ez)%Z by (subst ez; lia). assert (0 <= ey - ez)%Z by (subst ez; lia).
  assert (IZR (Z.pos mx') * bpow ez = IZR (Z.pos mx) * bpow ex) as Vx.
  { rewrite Hmx, mult_IZR, <- bpow_IZR by lia. rewrite Rmult_assoc, <- bpow_add.
    do 2 f_equal. lia. }
  assert (IZR (Z.pos my') * bpow ez = IZR (Z.pos my) * bpow ey) as Vy.
  { rewrite Hmy, mult_IZR, <- bpow_IZR by lia. rewrite Rmult_assoc, <- bpow_add.
    do 2 f_equal. lia. }
  cbn [SF2R]. unfold cond_Zopp.
  rewrite <- Vx, <- Vy. destruct sx, sy; rewrite ?opp_IZR; ring.
Qed.

Lemma SFadd_faithful (x y : spec_float) :
  SFfinite x = true -> SFfinite y = true ->
  Rabs (SF2R x + SF2R y) <= bpow 1023 ->
  SFfinite (SF64add x y) = true /\
  Rabs (SF2R (SF64add x y) - (SF2R x + SF2R y)) <= eps * Rabs (SF2R x + SF2R y) + eta.
Proof.
  intros Fx Fy Hbig.
  destruct x as [sx|sx| |sx mx ex]; try discriminate;
    destruct y as [sy|sy| |sy my ey]; try discriminate;
    unfold SF64add; cbn [SFadd].
  - assert (SF2R (if sx then if sy then S754_zero sx else S754_zero false
                  else if sy then S754_zero false else S754_zero sx) = 0) as E
      by (destruct sx, sy; reflexivity).
    split; [destruct sx, sy; reflexivity|].
    destruct sx, sy; cbn [SF2R]; rewrite Rplus_0_l; apply error_zero.
  - split; [reflexivity|]. cbn [SF2R]. rewrite Rplus_0_l. apply error_zero.
  - split; [reflexivity|]. cbn [SF2R]. rewrite Rplus_0_r. apply error_zero.
  - pose proof (aligned_sum sx sy mx my ex ey 1) as Hs. cbv zeta in Hs.
    rewrite !Rmult_1_l in Hs. rewrite <- plus_IZR in Hs.
    rewrite <- Hs in *. apply binary_normalize_faithful. exact Hbig.
Qed.

Lemma SFsub_faithful (x y : spec_float) :
  SFfinite x = true -> SFfinite y = true ->
  Rabs (SF2R x - SF2R y) <= bpow 1023 ->
  SFfinite (SF64sub x y) = true /\
  Rabs (SF2R (SF64sub x y) - (SF2R x - SF2R y)) <= eps * Rabs (SF2R x - SF2R y) + eta.
Proof.
  intros Fx Fy Hbig.
  destruct x as [sx|sx| |sx mx ex]; try discriminate;
    destruct y as [sy|sy| |sy my ey]; try discriminate;
    unfold SF64sub; cbn [SFsub].
  - split; [destruct sx, sy; reflexivity|].
    destruct sx, sy; cbn [SF2R]; rewrite Rminus_0_r; apply error_zero.
  - split; [reflexivity|].
    assert (SF2R (S754_finite (negb sy) my ey) = SF2R (S754_zero sx) - SF2R (S754_finite sy my ey)) as ->
      by (cbn [SF2R]; destruct sy; cbn [negb]; lra).
    apply error_zero.
  - split; [reflexivity|]. cbn [SF2R]. rewrite Rminus_0_r. apply error_zero.
  - pose proof (aligned_sum sx sy mx my ex ey (-1)) as Hs. cbv zeta in Hs.
    assert (forall a b : Z, IZR a + -1 * IZR b = IZR (a - b)) as Hm
      by (intros a b; rewrite minus_IZR; lra).
    rewrite Hm in Hs.
    replace (SF2R (S754_finite sx mx ex) + -1 * SF2R (S754_finite sy my ey))
      with (SF2R (S754_finite sx mx ex) - SF2R (S754_finite sy my ey)) in Hs by lra.
    rewrite <- Hs in *. apply binary_normalize_faithful. exact Hbig.
Qed.

(** *** Division *)

Lemma SFdiv_core_spec (mx my : positive) (ex ey : Z) :
  let '(q, e', l) := SFdiv_core_binary prec emax (Z.pos mx) ex (Z.pos my) ey in
  (0 <= q)%Z /\ (e' <= fexp prec emax (Zdigits2 q + e'))%Z /\
  IZR q * bpow e' <= (IZR (Z.pos mx) * bpow ex) / (IZR (Z.pos my) * bpow ey)
                  < IZR (q + 1) * bpow e'.
Proof.
  unfold SFdiv_core_binary.
  set (d1 := Zdigits2 (Z.pos mx)). set (d2 := Zdigits2 (Z.pos my)).
  rewrite !fexp_eq.
  assert (exists e', e' = Z.min (Z.max (d1 + ex - (d2 + ey) - 53) (-1074)) (ex - ey))
    as [e' He'] by eauto.
  rewrite <- He'.
  assert (exists s, s = (ex - ey - e')%Z) as [s Hs] by eauto. rewrite <- Hs.
  assert (0 <= s)%Z as Hs0 by lia.
  assert (match s with Z.pos _ => Z.shiftl (Z.pos mx) s | 0%Z => Z.pos mx | Z.neg _ => 0%Z end
          = (Z.pos mx * 2 ^ s)%Z) as ->.
  { destruct s as [|p|p]; [lia| |lia]. apply Z.shiftl_mul_pow2. lia. }
  assert (0 < 2 ^ s)%Z as Hp by (apply Z.pow_pos_nonneg; lia).
  pose proof (Z.div_mod (Z.pos mx * 2 ^ s) (Z.pos my) ltac:(lia)) as Hdm.
  pose proof (Z.mod_pos_bound (Z.pos mx * 2 ^ s) (Z.pos my) ltac:(lia)) as Hmod.
  unfold Z.div, Z.modulo in Hdm, Hmod.
  destruct (Z.div_eucl (Z.pos mx * 2 ^ s) (Z.pos my)) as [q r]. cbn [fst snd] in Hdm, Hmod.
  assert (0 <= q)%Z as Hq by nia.
  split; [exact Hq|].
  pose proof (Zdigits2_pos (Z.pos mx) ltac:(lia)) as [Hlx Hhx].
  pose proof (Zdigits2_pos (Z.pos my) ltac:(lia)) as [Hly Hhy].
  pose proof (Zdigits2_ge1 (Z.pos mx) ltac:(lia)) as Hdx.
  pose proof (Zdigits2_ge1 (Z.pos my) ltac:(lia)) as Hdy.
  fold d1 in Hlx, Hhx, Hdx. fold d2 in Hly, Hhy, Hdy.
  split.
  - rewrite fexp_eq. destruct (Z.le_gt_cases e' (-1074)%Z) as [Hle|Hgt]; [lia|].
    assert (e' <= d1 + ex - (d2 + ey) - 53)%Z as He'' by lia.
    assert (exists K, K = (d1 + ex - (d2 + ey) - 1 - e')%Z) as [K HK] by eauto.
    assert (2 ^ K <= q)%Z as HqK.
    { assert (2 ^ K * 2 ^ d2 <= Z.pos mx * 2 ^ s)%Z as Hprod.
      { rewrite <- Z.pow_add_r by lia.
        replace (K + d2)%Z with ((d1 - 1) + s)%Z by lia.
        rewrite Z.pow_add_r by lia. nia. }
      assert (0 < 2 ^ K)%Z by (apply Z.pow_pos_nonneg; lia).
      destruct (Z.le_gt_cases (2 ^ K) q) as [|Hlt]; [assumption|exfalso].
      assert (q + 1 <= 2 ^ K)%Z as Hq1 by lia.
      assert (Z.pos mx * 2 ^ s < (q + 1) * Z.pos my)%Z by nia.
      assert ((q + 1) * Z.pos my <= 2 ^ K * Z.pos my)%Z by nia.
      assert (2 ^ K * Z.pos my < 2 ^ K * 2 ^ d2)%Z by nia.
      lia. }
    assert (0 < q)%Z as Hqpos.
    { assert (0 < 2 ^ K)%Z by (apply Z.pow_pos_nonneg; lia). lia. }
    pose proof (Zdigits2_ge q (K + 1) ltac:(replace (K + 1 - 1)%Z with K by lia; exact HqK) Hqpos).
    lia.
  - assert (0 < IZR (Z.pos my)) as Hmy by (apply IZR_lt; lia).
    pose proof (bpow_pos ey) as Hpey. pose proof (bpow_pos e') as Hpe'.
    assert (bpow ex = IZR (2 ^ s) * bpow e' * bpow ey) as Hbx.
    { rewrite <- bpow_IZR by lia. rewrite <- !bpow_add. f_equal. lia. }
    assert ((IZR (Z.pos mx) * bpow ex) / (IZR (Z.pos my) * bpow ey)
            = IZR (Z.pos mx * 2 ^ s) / IZR (Z.pos my) * bpow e') as ->.
    { rewrite Hbx, mult_IZR. field. lra. }
    assert (IZR q <= IZR (Z.pos mx * 2 ^ s) / IZR (Z.pos my) < IZR (q + 1)) as [Hlo Hhi].
    { split.
      - apply Rmult_le_reg_r with (r := IZR (Z.pos my)); [exact Hmy|].
        replace (IZR (Z.pos mx * 2 ^ s) / IZR (Z.pos my) * IZR (Z.pos my))
          with (IZR (Z.pos mx * 2 ^ s)) by (field; lra).
        rewrite <- mult_IZR. apply IZR_le. nia.
      - apply Rmult_lt_reg_r with (r := IZR (Z.pos my)); [exact Hmy|].
        replace (IZR (Z.pos mx * 2 ^ s) / IZR (Z.pos my) * IZR (Z.pos my))
          with (IZR (Z.pos mx * 2 ^ s)) by (field; lra).
        rewrite <- mult_IZR. apply IZR_lt. nia. }
    split; nra.
Qed.

Lemma SFdiv_faithful (x y : spec_float) :
  SFfinite x = true -> SFfinite y = true -> SF2R y <> 0 ->
  Rabs (SF2R x / SF2R y) <= bpow 1023 ->
  SFfinite (SF64div x y) = true /\
  Rabs (SF2R (SF64div x y) - SF2R x / SF2R y) <= eps * Rabs (SF2R x / SF2R y) + eta.
Proof.
  intros Fx Fy Hy0 Hbig.
  destruct y as [sy|sy| |sy my ey]; try discriminate; [cbn [SF2R] in Hy0; lra|].
  destruct x as [sx|sx| |sx mx ex]; try discriminate; unfold SF64div; cbn [SFdiv].
  - split; [reflexivity|]. cbn [SF2R].
    replace (0 / _) with 0 by (unfold Rdiv; ring). apply error_zero.
  - pose proof (SFdiv_core_spec mx my ex ey) as Hc.
    destruct (SFdiv_core_binary prec emax (Z.pos mx) ex (Z.pos my) ey) as [[q e'] l].
    destruct Hc as (Hq & Hn & Hx).
    set (X := (IZR (Z.pos mx) * bpow ex) / (IZR (Z.pos my) * bpow ey)) in *.
    assert (0 < IZR (Z.pos my) * bpow ey) as Hden.
    { apply Rmult_lt_0_compat; [apply IZR_lt; lia|apply bpow_pos]. }
    assert (SF2R (S754_finite sx mx ex) / SF2R (S754_finite sy my ey)
            = (if xorb sx sy then -1 else 1) * X) as Hsgn.
    { subst X. cbn [SF2R].
      assert (0 < IZR (Z.pos my)) by (apply IZR_lt; lia). pose proof (bpow_pos ey).
      destruct sx, sy; cbn [xorb]; field; repeat split; lra. }
    assert (0 <= X) as HX0.
    { subst X. apply Rmult_le_pos.
      - apply Rmult_le_pos; [apply IZR_le; lia|pose proof (bpow_pos ex); lra].
      - apply Rlt_le, Rinv_0_lt_compat. exact Hden. }
    rewrite Hsgn in *. rewrite Rabs_sign in *. rewrite (Rabs_right X) in * by lra.
    destruct (binary_round_aux_faithful (xorb sx sy) q e' l X Hq Hn Hx Hbig)
      as (y & Hy & Herr & Hfin & Hv & Hmon).
    split; [exact Hfin|]. rewrite Hv.
    replace ((if xorb sx sy then -1 else 1) * y - (if xorb sx sy then -1 else 1) * X)
      with ((if xorb sx sy then -1 else 1) * (y - X)) by ring.
    rewrite Rabs_sign. exact Herr.
Qed.
End RoundedSums.

Section RoundedRoots.
Local Open Scope R_scope.

(** *** Square root *)

Lemma SFsqrt_core_spec (m : positive) (e : Z) :
  let '(q, e', l) := SFsqrt_core_binary prec emax (Z.pos m) e in
  (0 <= q)%Z /\ (e' <= fexp prec emax (Zdigits2 q + e'))%Z /\
  IZR q * bpow e' <= R_sqrt.sqrt (IZR (Z.pos m) * bpow e) < IZR (q + 1) * bpow e'.
Proof.
  unfold SFsqrt_core_binary.
  set (d := Zdigits2 (Z.pos m)). rewrite !fexp_eq. rewrite !Z.div2_div.
  assert (exists M, M = ((d + e + 1) / 2)%Z) as [M HM] by eauto. rewrite <- HM.
  assert (exists h, h = (e / 2)%Z) as [h Hh] by eauto. rewrite <- Hh.
  pose proof (Z.div_mod (d + e + 1) 2 ltac:(lia)) as HMd.
  pose proof (Z.mod_pos_bound (d + e + 1) 2 ltac:(lia)) as HMm. rewrite <- HM in HMd.
  pose proof (Z.div_mod e 2 ltac:(lia)) as Hhd.
  pose proof (Z.mod_pos_bound e 2 ltac:(lia)) as Hhm. rewrite <- Hh in Hhd.
  assert (exists e', e' = Z.min (Z.max (M - 53) (-1074)) h) as [e' He'] by eauto.
  rewrite <- He'.
  assert (exists s, s = (e - 2 * e')%Z) as [s Hs] by eauto. rewrite <- Hs.
  assert (0 <= s)%Z as Hs0 by lia.
  assert (match s with Z.pos _ => Z.shiftl (Z.pos m) s | 0%Z => Z.pos m | Z.neg _ => 0%Z end
          = (Z.pos m * 2 ^ s)%Z) as ->.
  { destruct s as [|p|p]; [lia| |lia]. apply Z.shiftl_mul_pow2. lia. }
  assert (0 < 2 ^ s)%Z as Hp by (apply Z.pow_pos_nonneg; lia).
  pose proof (Z.sqrtrem_spec (Z.pos m * 2 ^ s) ltac:(lia)) as Hsq.
  destruct (Z.sqrtrem (Z.pos m * 2 ^ s)) as [q r]. destruct Hsq as [Hsq Hr].
  assert (0 <= q)%Z as Hq by lia.
  split; [exact Hq|].
  pose proof (Zdigits2_pos (Z.pos m) ltac:(lia)) as [Hlo Hhi].
  pose proof (Zdigits2_ge1 (Z.pos m) ltac:(lia)) as Hd. fold d in Hlo, Hhi, Hd.
  clearbody d.
  split.
  - rewrite fexp_eq. destruct (Z.le_gt_cases e' (-1074)%Z) as [Hle|Hgt]; [lia|].
    assert (e' <= M - 53)%Z as He'' by lia.
    assert (exists K, K = (M - 1 - e')%Z) as [K HK] by eauto.
    assert (0 <= K)%Z as HK0 by lia.
    assert (0 < 2 ^ K)%Z as HpK by (apply Z.pow_pos_nonneg; lia).
    assert (2 ^ K * 2 ^ K <= Z.pos m * 2 ^ s)%Z as Hprod.
    { rewrite <- Z.pow_add_r by lia.
      assert (K + K <= d - 1 + s)%Z as T2 by lia.
      pose proof (Z.pow_le_mono_r 2 (K + K) (d - 1 + s) ltac:(lia) T2) as H1.
      rewrite (Z.pow_add_r 2 (d - 1) s) in H1 by lia. nia. }
    assert (2 ^ K <= q)%Z as HqK.
    { destruct (Z.le_gt_cases (2 ^ K) q) as [|Hlt]; [assumption|exfalso].
      assert (q + 1 <= 2 ^ K)%Z as Hq1 by lia.
      assert ((q + 1) * (q + 1) <= 2 ^ K * 2 ^ K)%Z by nia. nia. }
    assert (0 < q)%Z as Hqpos by lia.
    pose proof (Zdigits2_ge q (K + 1) ltac:(replace (K + 1 - 1)%Z with K by lia; exact HqK) Hqpos).
    lia.
  - pose proof (bpow_pos e') as Hpe'.
    assert (IZR (Z.pos m) * bpow e = IZR (Z.pos m * 2 ^ s) * (bpow e' * bpow e')) as HX.
    { rewrite mult_IZR, <- bpow_IZR by lia. rewrite Rmult_assoc, <- !bpow_add.
      do 2 f_equal. lia. }
    rewrite HX. rewrite Hsq.
    assert (0 <= IZR q) as Hq0 by (apply IZR_le; lia).
    assert (0 <= IZR r <= 2 * IZR q) as Hr'.
    { destruct Hr as [Hr1 Hr2]. apply IZR_le in Hr1, Hr2. rewrite mult_IZR in Hr2. lra. }
    rewrite plus_IZR, mult_IZR.
    set (a := IZR q * bpow e').
    set (b := (IZR q + 1) * bpow e').
    assert (0 <= a) as Ha by (subst a; nra).
    assert (0 < b) as Hb by (subst b; nra).
    assert (a * a <= (IZR q * IZR q + IZR r) * (bpow e' * bpow e') < b * b) as [H1 H2].
    { subst a b. split; nra. }
    split.
    + rewrite <- (sqrt_square a Ha). apply sqrt_le_1_alt. exact H1.
    + rewrite plus_IZR. fold b. rewrite <- (sqrt_square b (Rlt_le _ _ Hb)) at 1.
      apply sqrt_lt_1_alt. split; [nra|exact H2].
Qed.

Lemma SFsqrt_faithful (x : spec_float) :
  SpecFloat.valid_binary prec emax x = true ->
  SFfinite x = true -> 0 <= SF2R x ->
  SFfinite (SF64sqrt x) = true /\
  Rabs (SF2R (SF64sqrt x) - R_sqrt.sqrt (SF2R x)) <= eps * R_sqrt.sqrt (SF2R x) + eta.
Proof.
  intros Vx Fx Hx0. pose proof eta_pos as Heta.
  destruct x as [sx|sx| |sx mx ex]; try discriminate; unfold SF64sqrt; cbn [SFsqrt].
  - split; [reflexivity|]. cbn [SF2R]. rewrite sqrt_0, Rminus_diag, Rabs_R0. lra.
  - assert (0 < IZR (Z.pos mx) * bpow ex) as Hpos.
    { apply Rmult_lt_0_compat; [apply IZR_lt; lia|apply bpow_pos]. }
    destruct sx; [cbn [SF2R] in Hx0; lra|].
    pose proof (SFsqrt_core_spec mx ex) as Hc.
    destruct (SFsqrt_core_binary prec emax (Z.pos mx) ex) as [[q e'] l].
    destruct Hc as (Hq & Hn & Hx).
    assert (SF2R (S754_finite false mx ex) = IZR (Z.pos mx) * bpow ex) as ->
      by (cbn [SF2R]; lra).
    set (X := R_sqrt.sqrt (IZR (Z.pos mx) * bpow ex)) in *.
    assert (X <= bpow 1023) as Hbig.
    { pose proof (SF2R_bound _ Vx) as Hb. rewrite SF2R_finite_abs in Hb.
      assert (bpow 1024 <= bpow 1023 * bpow 1023) as H2.
      { rewrite <- bpow_add. apply bpow_le. lia. }
      pose proof (bpow_pos 1023) as Hp.
      subst X. rewrite <- (sqrt_square (bpow 1023)) by lra.
      apply sqrt_le_1_alt. lra. }
    destruct (binary_round_aux_faithful false q e' l X Hq Hn Hx Hbig)
      as (y & Hy & Herr & Hfin & Hv & Hmon).
    split; [exact Hfin|]. rewrite Hv, Rmult_1_l. exact Herr.
Qed.

(** *** Comparison *)

Lemma canonical_lt (s1 s2 : bool) (m1 m2 : positive) (e1 e2 : Z) :
  SpecFloat.valid_binary prec emax (S754_finite s1 m1 e1) = true ->
  SpecFloat.valid_binary prec emax (S754_finite s2 m2 e2) = true ->
  (e1 < e2)%Z -> IZR (Z.pos m1) * bpow e1 < IZR (Z.pos m2) * bpow e2.
Proof.
  intros V1 V2 He.
  pose proof (valid_digits _ _ _ V1) as (Hd1 & He1 & Hc1).
  pose proof (valid_digits _ _ _ V2) as (Hd2 & He2 & Hc2).
  assert (Zdigits2 (Z.pos m2) = 53)%Z as D2 by lia.
  pose proof (Zdigits2_pos (Z.pos m1) ltac:(lia)) as [_ Hhi].
  pose proof (Zdigits2_pos (Z.pos m2) ltac:(lia)) as [Hlo _]. rewrite D2 in Hlo.
  assert (Z.pos m1 < 2 ^ 53)%Z as Hm1.
  { eapply Z.lt_le_trans; [exact Hhi|]. apply Z.pow_le_mono_r; lia. }
  apply IZR_lt in Hm1. rewrite <- bpow_IZR in Hm1 by lia.
  apply IZR_le in Hlo. rewrite <- bpow_IZR in Hlo by lia.
  change (53 - 1)%Z with 52%Z in Hlo.
  assert (bpow (e1 + 1) <= bpow e2) as Hbe by (apply bpow_le; lia).
  rewrite bpow_succ in Hbe.
  pose proof (bpow_pos e1). pose proof (bpow_pos e2).
  assert (bpow 53 = 2 * bpow 52) as E by (change 53%Z with (52 + 1)%Z; apply bpow_succ).
  pose proof (bpow_pos 52). rewrite E in Hm1.
  assert (IZR (Z.pos m1) * bpow e1 < 2 * bpow 52 * bpow e1) by nra.
  assert (bpow 52 * (2 * bpow e1) <= bpow 52 * bpow e2) by nra.
  assert (bpow 52 * bpow e2 <= IZR (Z.pos m2) * bpow e2) by nra.
  lra.
Qed.

Lemma pos_compare_cont_Eq (m1 m2 : positive) :
  Pos.compare_cont Eq m1 m2 = (m1 ?= m2)%positive.
Proof. reflexivity. Qed.

Lemma compare_magnitudes (s1 s2 : bool) (m1 m2 : positive) (e1 e2 : Z) :
  SpecFloat.valid_binary prec emax (S754_finite s1 m1 e1) = true ->
  SpecFloat.valid_binary prec emax (S754_finite s2 m2 e2) = true ->
  match (match (e1 ?= e2)%Z with
         | Lt => Lt | Gt => Gt | Eq => Pos.compare_cont Eq m1 m2
         end) with
  | Lt => IZR (Z.pos m1) * bpow e1 < IZR (Z.pos m2) * bpow e2
  | Eq => IZR (Z.pos m1) * bpow e1 = IZR (Z.pos m2) * bpow e2
  | Gt => IZR (Z.pos m2) * bpow e2 < IZR (Z.pos m1) * bpow e1
  end.
Proof.
  intros V1 V2. destruct (Z.compare_spec e1 e2) as [->|Hlt|Hgt].
  - rewrite pos_compare_cont_Eq. pose proof (bpow_pos e2).
    destruct (Pos.compare_spec m1 m2) as [->|H1|H1].
    + reflexivity.
    + apply Rmult_lt_compat_r; [lra|]. apply IZR_lt. lia.
    + apply Rmult_lt_compat_r; [lra|]. apply IZR_lt. lia.
  - apply (canonical_lt s1 s2); assumption.
  - apply (canonical_lt s2 s1); assumption.
Qed.

Lemma SFcompare_spec (a b : spec_float) :
  SpecFloat.valid_binary prec emax a = true -> SpecFloat.valid_binary prec emax b = true ->
  SFfinite a = true -> SFfinite b = true ->
  match SFcompare a b with
  | Some Lt => SF2R a < SF2R b
  | Some Eq => SF2R a = SF2R b
  | Some Gt => SF2R b < SF2R a
  | None => False
  end.
Proof.
  intros Va Vb Fa Fb.
  destruct a as [sa|sa| |sa ma ea]; try discriminate;
    destruct b as [sb|sb| |sb mb eb]; try discriminate; cbn [SFcompare].
  - reflexivity.
  - cbn [SF2R]. pose proof (bpow_pos eb). assert (0 < IZR (Z.pos mb)) by (apply IZR_lt; lia).
    destruct sb; nra.
  - cbn [SF2R]. pose proof (bpow_pos ea). assert (0 < IZR (Z.pos ma)) by (apply IZR_lt; lia).
    destruct sa; nra.
  - pose proof (compare_magnitudes sa sb ma mb ea eb Va Vb) as Hc.
    cbn [SF2R]. pose proof (bpow_pos ea). pose proof (bpow_pos eb).
    assert (0 < IZR (Z.pos ma)) by (apply IZR_lt; lia).
    assert (0 < IZR (Z.pos mb)) by (apply IZR_lt; lia).
    destruct sa, sb.
    + destruct (ea ?= eb)%Z; [destruct (Pos.compare_cont Eq ma mb)| |]; cbn [CompOpp]; lra.
    + nra.
    + nra.
    + destruct (ea ?= eb)%Z; [destruct (Pos.compare_cont Eq ma mb)| |]; lra.
Qed.
End RoundedRoots.

(** ** The primitive operations on finite doubles *)

Section Primitive.
Local Open Scope R_scope.

Lemma mul_faithful (x y : float) :
  is_finite x = true -> is_finite y = true ->
  Rabs (B2R x * B2R y) <= bpow 1023 ->
  is_finite (x * y)%float = true /\
  Rabs (B2R (x * y)%float - B2R x * B2R y) <= eps * Rabs (B2R x * B2R y) + eta.
Proof.
  unfold is_finite, B2R. rewrite mul_spec. intros.
  apply SFmul_faithful; auto using Prim2SF_valid.
Qed.

Lemma add_faithful (x y : float) :
  is_finite x = true -> is_finite y = true ->
  Rabs (B2R x + B2R y) <= bpow 1023 ->
  is_finite (x + y)%float = true /\
  Rabs (B2R (x + y)%float - (B2R x + B2R y)) <= eps * Rabs (B2R x + B2R y) + eta.
Proof.
  unfold is_finite, B2R. rewrite add_spec. intros. apply SFadd_faithful; auto.
Qed.

Lemma sub_faithful (x y : float) :
  is_finite x = true -> is_finite y = true ->
  Rabs (B2R x - B2R y) <= bpow 1023 ->
  is_finite (x - y)%float = true /\
  Rabs (B2R (x - y)%float - (B2R x - B2R y)) <= eps * Rabs (B2R x - B2R y) + eta.
Proof.
  unfold is_finite, B2R. rewrite sub_spec. intros. apply SFsub_faithful; auto.
Qed.

Lemma div_faithful (x y : float) :
  is_finite x = true -> is_finite y = true -> B2R y <> 0 ->
  Rabs (B2R x / B2R y) <= bpow 1023 ->
  is_finite (x / y)%float = true /\
  Rabs (B2R (x / y)%float - B2R x / B2R y) <= eps * Rabs (B2R x / B2R y) + eta.
Proof.
  unfold is_finite, B2R. rewrite div_spec. intros. apply SFdiv_faithful; auto.
Qed.

Lemma sqrt_faithful (x : float) :
  is_finite x = true -> 0 <= B2R x ->
  is_finite (PrimFloat.sqrt x) = true /\
  Rabs (B2R (PrimFloat.sqrt x) - R_sqrt.sqrt (B2R x)) <= eps * R_sqrt.sqrt (B2R x) + eta.
Proof.
  unfold is_finite, B2R. rewrite sqrt_spec. intros.
  apply SFsqrt_faithful; auto using Prim2SF_valid.
Qed.

Lemma ltb_finite (x y : float) :
  is_finite x = true -> is_finite y = true ->
  (x <? y)%float = true <-> B2R x < B2R y.
Proof.
  unfold is_finite, B2R. intros Fx Fy. rewrite ltb_spec. unfold SFltb.
  pose proof (SFcompare_spec _ _ (Prim2SF_valid x) (Prim2SF_valid y) Fx Fy) as H.
  destruct (SFcompare (Prim2SF x) (Prim2SF y)) as [[]|]; split; intros; try discriminate;
    try reflexivity; try lra; contradiction.
Qed.

Lemma eqb_finite (x y : float) :
  is_finite x = true -> is_finite y = true ->
  (x =? y)%float = true <-> B2R x = B2R y.
Proof.
  unfold is_finite, B2R. intros Fx Fy. rewrite FloatAxioms.eqb_spec. unfold SFeqb.
  pose proof (SFcompare_spec _ _ (Prim2SF_valid x) (Prim2SF_valid y) Fx Fy) as H.
  destruct (SFcompare (Prim2SF x) (Prim2SF y)) as [[]|]; split; intros; try discriminate;
    try reflexivity; try lra; contradiction.
Qed.

Lemma B2R_bound (x : float) : Rabs (B2R x) < bpow 1024.
Proof. apply SF2R_bound, Prim2SF_valid. Qed.
End Primitive.

(** ** Constants of the program *)

Section Constants.
Local Open Scope R_scope.

Lemma bpow_neg (n : Z) : (0 <= n)%Z -> bpow (- n) = / IZR (2 ^ n).
Proof. intros Hn. unfold bpow. rewrite powerRZ_neg'. f_equal. apply bpow_IZR. exact Hn. Qed.

Lemma SF_dyadic_spec (f : spec_float) (n k : Z) :
  (0 <= k)%Z -> SF_dyadic f n k = true ->
  SFfinite f = true /\ SF2R f = IZR n / IZR (2 ^ k).
Proof.
  intros Hk. assert (0 < IZR (2 ^ k)) as Hpk.
  { apply IZR_lt. apply Z.pow_pos_nonneg; lia. }
  destruct f as [s|s| |s m e]; cbn [SF_dyadic SFfinite SF2R]; try discriminate.
  - intros H. apply Z.eqb_eq in H. subst n. split; [reflexivity|]. unfold Rdiv. ring.
  - assert (IZR (cond_Zopp s (Z.pos m)) = (if s then -1 else 1) * IZR (Z.pos m)) as Hs.
    { destruct s; cbn [cond_Zopp]; [rewrite opp_IZR|]; ring. }
    destruct (Z.ltb_spec e 0) as [He|He]; intros H; apply Z.eqb_eq in H;
      (split; [reflexivity|]); apply (f_equal IZR) in H; rewrite !mult_IZR, Hs in H.
    + replace e with (- (- e))%Z at 1 by lia. rewrite bpow_neg by lia.
      assert (0 < IZR (2 ^ (- e))) as Hpe by (apply IZR_lt; apply Z.pow_pos_nonneg; lia).
      apply Rmult_eq_reg_r with (r := IZR (2 ^ k)); [|lra].
      replace (IZR n / IZR (2 ^ k) * IZR (2 ^ k)) with (IZR n) by (field; lra).
      apply Rmult_eq_reg_r with (r := IZR (2 ^ (- e))); [|lra].
      rewrite <- H. field. lra.
    + rewrite bpow_IZR by lia. rewrite <- H. field. lra.
Qed.

Lemma is_dyadic_spec (x : float) (n k : Z) :
  (0 <= k)%Z -> is_dyadic x n k = true -> is_finite x = true /\ B2R x = IZR n / IZR (2 ^ k).
Proof. apply SF_dyadic_spec. Qed.

Lemma ofZ_check_ok : ofZ_check = true.
Proof. vm_compute. reflexivity. Qed.

Lemma float_ofZ_exact (c : Z) :
  (0 <= c <= 765)%Z -> is_finite (float_ofZ c) = true /\ B2R (float_ofZ c) = IZR c.
Proof.
  intros Hc.
  pose proof (forallb_seqZ _ 0 766 c ofZ_check_ok ltac:(lia)) as H. cbv beta in H.
  apply is_dyadic_spec in H as [Hf Hv]; [|lia]. split; [exact Hf|].
  rewrite Hv. change (IZR (2 ^ 0)) with 1. field.
Qed.

Lemma lit_half : is_finite (lit (A:=Float64) 0.5) = true /\ B2R (lit (A:=Float64) 0.5) = 1 / 2.
Proof.
  assert (is_dyadic (lit (A:=Float64) 0.5) 1 1 = true) as H by (vm_compute; reflexivity).
  apply is_dyadic_spec in H as [Hf Hv]; [|lia]. split; [exact Hf|].
  rewrite Hv. change (IZR (2 ^ 1)) with 2. reflexivity.
Qed.

Lemma lit_int (q : Q) (c : Z) :
  lit (A:=Float64) q = float_ofZ c -> (0 <= c <= 765)%Z ->
  is_finite (lit (A:=Float64) q) = true /\ B2R (lit (A:=Float64) q) = IZR c.
Proof. intros -> Hc. apply float_ofZ_exact. exact Hc. Qed.

Lemma lit_255 : is_finite (lit (A:=Float64) 255) = true /\ B2R (lit (A:=Float64) 255) = 255.
Proof. apply lit_int; [vm_compute; reflexivity|lia]. Qed.

Lemma lit_1 : is_finite (lit (A:=Float64) 1.0) = true /\ B2R (lit (A:=Float64) 1.0) = 1.
Proof. apply lit_int; [vm_compute; reflexivity|lia]. Qed.

Lemma lit_0 : is_finite (lit (A:=Float64) 0) = true /\ B2R (lit (A:=Float64) 0) = 0.
Proof. apply lit_int; [vm_compute; reflexivity|lia]. Qed.

Lemma max_strength_val : is_finite max_strength = true /\ B2R max_strength = bpow 500.
Proof.
  split; [vm_compute; reflexivity|].
  unfold B2R. replace (Prim2SF max_strength) with (S754_finite false 4503599627370496 448)
    by (vm_compute; reflexivity).
  cbn [SF2R]. change 4503599627370496%Z with (2 ^ 52)%Z. rewrite <- bpow_IZR by lia.
  rewrite Rmult_1_l, <- bpow_add. reflexivity.
Qed.
End Constants.

(** ** Comparisons of the program on finite doubles *)

Section Comparisons.
Local Open Scope R_scope.

Lemma float_nlt (x y : float) :
  is_finite x = true -> is_finite y = true ->
  nlt (Arith:=Float64) x y = true <-> B2R x < B2R y.
Proof. apply ltb_finite. Qed.


Lemma float_nle (x y : float) :
  is_finite x = true -> is_finite y = true ->
  nle (A:=Float64) x y = true <-> B2R x <= B2R y.
Proof.
  intros Fx Fy. unfold nle. rewrite orb_true_iff.
  change (neq (Arith:=Float64) x y) with (x =? y)%float.
  rewrite (float_nlt x y Fx Fy), (eqb_finite x y Fx Fy). lra.
Qed.

Lemma float_nle_false (x y : float) :
  is_finite x = true -> is_finite y = true ->
  nle (A:=Float64) x y = false <-> B2R y < B2R x.
Proof.
  intros Fx Fy. pose proof (float_nle x y Fx Fy) as H.
  destruct (nle (A:=Float64) x y); split; intros Hf; try discriminate; try reflexivity.
  - assert (B2R x <= B2R y) by (apply H; reflexivity). lra.
  - destruct (Rle_or_lt (B2R x) (B2R y)) as [Hle|Hlt]; [|exact Hlt].
    apply H in Hle. discriminate.
Qed.

Lemma float_isNaN (x : float) : is_finite x = true -> isNaN (A:=Float64) x = false.
Proof.
  intros Fx. unfold isNaN. change (neq (Arith:=Float64) x x) with (x =? x)%float.
  rewrite (proj2 (eqb_finite x x Fx Fx) eq_refl). reflexivity.
Qed.

(** A strength within the analysed range is finite. *)
Lemma strength_in_range (strength : float) :
  (PrimFloat.abs strength <=? max_strength)%float = true ->
  is_finite strength = true /\ Rabs (B2R strength) <= bpow 500.
Proof.
  rewrite leb_spec, abs_spec. unfold is_finite, B2R.
  pose proof (Prim2SF_valid strength) as Hv.
  replace (Prim2SF max_strength) with (S754_finite false 4503599627370496 448)
    by (vm_compute; reflexivity).
  pose proof max_strength_val as [_ Hmax]. unfold B2R in Hmax.
  replace (Prim2SF max_strength) with (S754_finite false 4503599627370496 448) in Hmax
    by (vm_compute; reflexivity).
  destruct (Prim2SF strength) as [s|s| |s m e]; cbn [SFabs]; unfold SFleb; cbn [SFcompare];
    try discriminate.
  - intros _. split; [reflexivity|]. cbn [SF2R]. rewrite Rabs_R0. pose proof (bpow_pos 500). lra.
  - intros H. split; [reflexivity|]. rewrite SF2R_finite_abs.
    assert (SpecFloat.valid_binary prec emax (S754_finite false m e) = true) as Hv' by exact Hv.
    assert (SpecFloat.valid_binary prec emax (S754_finite false 4503599627370496 448) = true)
      as Hvm by (vm_compute; reflexivity).
    pose proof (compare_magnitudes false false m 4503599627370496 e 448 Hv' Hvm) as Hc.
    cbn [SF2R] in Hmax. rewrite Rmult_1_l in Hmax. rewrite Hmax in Hc.
    destruct (e ?= 448)%Z; [destruct (Pos.compare_cont Eq m 4503599627370496)| |];
      try discriminate; lra.
Qed.
End Comparisons.

(** ** Stores of finite doubles *)

Section FloatStore.
Local Open Scope R_scope.

Lemma float_floor_bits (k : nat) (acc : Z) (v : float) :
  is_finite v = true ->
  (0 <= acc)%Z -> (acc + 2 ^ Z.of_nat k <= 256)%Z ->
  IZR acc <= B2R v < IZR (acc + 2 ^ Z.of_nat k) ->
  let f := floor_bits (A:=Float64) k acc v in
  IZR f <= B2R v < IZR f + 1 /\ (acc <= f < acc + 2 ^ Z.of_nat k)%Z.
Proof.
  intros Fv. revert acc. induction k as [|k IH]; intros acc Hacc Hmax Hx.
  - cbn [floor_bits]. change (2 ^ Z.of_nat 0)%Z with 1%Z in *.
    rewrite plus_IZR in Hx. split; [lra|lia].
  - cbn [floor_bits].
    rewrite Nat2Z.inj_succ, Z.pow_succ_r in Hx, Hmax |- * by lia.
    assert (0 < 2 ^ Z.of_nat k)%Z as Hp by (apply Z.pow_pos_nonneg; lia).
    destruct (float_ofZ_exact (acc + 2 ^ Z.of_nat k) ltac:(lia)) as [Fc Vc].
    change (ofZ (Arith:=Float64)) with float_ofZ.
    destruct (nle (A:=Float64) (float_ofZ (acc + 2 ^ Z.of_nat k)) v) eqn:E.
    + apply float_nle in E; [|assumption..]. rewrite Vc in E.
      destruct (IH (acc + 2 ^ Z.of_nat k)%Z ltac:(lia) ltac:(lia)) as [H1 H2].
      { split; [exact E|].
        replace (acc + 2 ^ Z.of_nat k + 2 ^ Z.of_nat k)%Z
          with (acc + 2 * 2 ^ Z.of_nat k)%Z by lia. lra. }
      split; [exact H1|lia].
    + apply float_nle_false in E; [|assumption..]. rewrite Vc in E.
      destruct (IH acc Hacc ltac:(lia)) as [H1 H2]; [lra|].
      split; [exact H1|lia].
Qed.

End FloatStore.

(** ** Error bounds with numeric constants *)

Section Numeric.
Local Open Scope R_scope.

(** One operation loses at most [|x| / 10^15 + 1 / 10^21]. *)
Lemma error_numeric (y x : R) :
  Rabs (y - x) <= eps * Rabs x + eta ->
  - (Rabs x / 10 ^ 15 + / 10 ^ 21) <= y - x <= Rabs x / 10 ^ 15 + / 10 ^ 21.
Proof.
  intros H. apply Rabs_le_bounds in H.
  pose proof eps_bounds as He. pose proof eta_small as Ht. pose proof (Rabs_pos x) as Hx.
  assert (eps * Rabs x <= Rabs x / 10 ^ 15) as H1 by nra.
  assert (eta <= / 10 ^ 21) as H2 by nra.
  lra.
Qed.

Lemma big_values :
  1 <= bpow 500 /\ bpow 502 = 4 * bpow 500 /\ bpow 502 * bpow 502 = bpow 1004 /\
  16 * bpow 1004 <= bpow 1023 /\ 1024 <= bpow 1004 /\ bpow 502 <= bpow 1004.
Proof.
  assert (bpow 0 = 1) as E0 by reflexivity.
  split; [rewrite <- E0; apply bpow_le; lia|].
  split; [change 502%Z with (500 + 1 + 1)%Z; rewrite !bpow_succ; ring|].
  split; [rewrite <- bpow_add; reflexivity|].
  split.
  - assert (bpow 1008 <= bpow 1023) as H by (apply bpow_le; lia).
    change 1008%Z with (1004 + 1 + 1 + 1 + 1)%Z in H. rewrite !bpow_succ in H. lra.
  - split; [|apply bpow_le; lia].
    assert (bpow 10 <= bpow 1004) as H by (apply bpow_le; lia).
    rewrite (bpow_IZR 10) in H by lia. change (IZR (2 ^ 10)) with 1024 in H. exact H.
Qed.
End Numeric.

(** ** The smoothed height in binary64 *)

Lemma luminance_range_check_ok : luminance_range_check = true.
Proof. vm_compute. reflexivity. Qed.

Section SmoothHeight.
Local Open Scope R_scope.

Lemma luminance_range (s : Z) :
  (0 <= s <= 765)%Z ->
  let l := (float_ofZ s / lit (A:=Float64) 765.0)%float in
  is_finite l = true /\ 0 <= B2R l <= 1.
Proof.
  intros Hs l.
  pose proof (forallb_seqZ _ 0 766 s luminance_range_check_ok ltac:(lia)) as H.
  cbv beta zeta in H. fold l in H.
  apply andb_true_iff in H as [H H1]. apply andb_true_iff in H as [Hf H0].
  destruct lit_0 as [F0 V0]. destruct lit_1 as [F1 V1].
  apply float_nle in H0; [|assumption..]. apply float_nle in H1; [|assumption..].
  change (lit (A:=Float64) 1) with (lit (A:=Float64) 1.0) in H1.
  rewrite V0 in H0. rewrite V1 in H1. split; [exact Hf|lra].
Qed.

(** Adding up values of magnitude at most 1. *)
Lemma sum_bounded (l : list float) (acc : float) :
  Forall (fun v => is_finite v = true /\ Rabs (B2R v) <= 1) l ->
  is_finite acc = true ->
  Rabs (B2R acc) + 1001 / 1000 * INR (length l) <= 20 ->
  is_finite (fold_left PrimFloat.add l acc) = true /\
  Rabs (B2R (fold_left PrimFloat.add l acc)) <= Rabs (B2R acc) + 1001 / 1000 * INR (length l).
Proof.
  intros Hl. revert acc. induction Hl as [|v l [Fv Bv] Hl IH]; intros acc Fa Hb.
  - cbn [fold_left length INR]. split; [exact Fa|lra].
  - cbn [fold_left]. cbn [length] in Hb |- *. rewrite S_INR in Hb |- *.
    pose proof (pos_INR (length l)) as Hn.
    pose proof (Rabs_triang (B2R acc) (B2R v)) as Ht.
    pose proof (Rabs_pos (B2R acc)) as Hpa.
    destruct (add_faithful acc v Fa Fv) as [Fs Es].
    { pose proof big_values as (H1 & _ & _ & H2 & H3 & _). lra. }
    apply error_numeric in Es.
    assert (Rabs (B2R (acc + v)%float) <= Rabs (B2R acc) + 1001 / 1000) as Hs.
    { apply Rabs_le.
      pose proof (Rabs_le_bounds _ _ (Rle_refl (Rabs (B2R acc + B2R v)))) as Hab. lra. }
    destruct (IH (acc + v)%float Fs ltac:(lra)) as [F2 B2].
    split; [exact F2|lra].
Qed.

Context (img : ImageData).
Hypothesis Hbytes : bytes_ok img.

Lemma lum_at_range (p : Z * Z) :
  is_finite (lum_at (A:=Float64) img p) = true /\ Rabs (B2R (lum_at (A:=Float64) img p)) <= 1.
Proof.
  rewrite (lum_at_sum img Hbytes).
  set (s := pixel_sum img _ _).
  assert (0 <= s <= 765)%Z as Hs.
  { subst s. unfold pixel_sum.
    pose proof (channel0_byte img Hbytes (clamp_coord (width img) (fst p))
                  (clamp_coord (height img) (snd p)) 0).
    pose proof (channel0_byte img Hbytes (clamp_coord (width img) (fst p))
                  (clamp_coord (height img) (snd p)) 1).
    pose proof (channel0_byte img Hbytes (clamp_coord (width img) (fst p))
                  (clamp_coord (height img) (snd p)) 2).
    lia. }
  destruct (luminance_range s Hs) as [Hf Hr].
  split; [exact Hf|]. apply Rabs_le.
  change (ofZ (Arith:=Float64) s / lit (A:=Float64) 765.0)%J
    with (float_ofZ s / lit (A:=Float64) 765.0)%float. lra.
Qed.

(** The smoothed height is a finite double of magnitude at most 1.01. *)
Lemma smooth_height_range (X Y : Z) :
  is_finite (smooth_height (A:=Float64) img X Y) = true /\
  Rabs (B2R (smooth_height (A:=Float64) img X Y)) <= 101 / 100.
Proof.
  unfold smooth_height, mean.
  set (l := List.map (lum_at (A:=Float64) img) (neighbourhood X Y)).
  assert (@length float l = 9%nat) as Hlen by reflexivity.
  assert (Forall (fun v => is_finite v = true /\ Rabs (B2R v) <= 1) l) as Hl.
  { subst l. apply List.Forall_forall. intros v Hin. apply in_map_iff in Hin as (p & <- & _).
    apply lum_at_range. }
  destruct lit_0 as [F0 V0].
  destruct (sum_bounded l (lit (A:=Float64) 0) Hl F0) as [Ft Bt].
  { rewrite V0, Rabs_R0, Hlen. cbn [INR]. lra. }
  rewrite V0, Rabs_R0, Hlen in Bt.
  replace (INR 9) with 9 in Bt by (cbn [INR]; lra).
  change (Z.of_nat (length l)) with 9%Z.
  destruct (float_ofZ_exact 9 ltac:(lia)) as [F9 V9].
  change (fold_left (nadd (Arith:=Float64)) l (lit 0)) with (fold_left PrimFloat.add l (lit (A:=Float64) 0)).
  set (t := fold_left PrimFloat.add l (lit (A:=Float64) 0)) in *.
  change (ofZ (Arith:=Float64) 9) with (float_ofZ 9).
  change (ndiv (Arith:=Float64) t (float_ofZ 9)) with (t / float_ofZ 9)%float.
  apply Rabs_le_bounds in Bt.
  assert (Rabs (B2R t / 9) <= 1002 / 1000) as Hq by (apply Rabs_le; lra).
  destruct (div_faithful t (float_ofZ 9) Ft F9) as [Fh Eh].
  { rewrite V9. lra. }
  { rewrite V9. pose proof big_values as (H1 & _ & _ & H2 & H3 & _). lra. }
  rewrite V9 in Eh. apply error_numeric in Eh.
  split; [exact Fh|]. apply Rabs_le. pose proof (Rabs_le_bounds _ _ Hq) as Hq'.
  pose proof (Rabs_pos (B2R t / 9)). lra.
Qed.

(** A gradient scaled by a strength of the analysed range is a finite
    double below 2^502 in magnitude. *)
Lemma gradient_range (strength : float) (X1 Y1 X2 Y2 : Z) :
  (PrimFloat.abs strength <=? max_strength)%float = true ->
  let d := ((smooth_height (A:=Float64) img X1 Y1 - smooth_height (A:=Float64) img X2 Y2)
            * strength)%float in
  is_finite d = true /\ Rabs (B2R d) <= bpow 502.
Proof.
  intros Hs d. apply strength_in_range in Hs as [Fs Bs].
  destruct (smooth_height_range X1 Y1) as [F1 B1].
  destruct (smooth_height_range X2 Y2) as [F2 B2].
  set (h1 := smooth_height (A:=Float64) img X1 Y1) in *.
  set (h2 := smooth_height (A:=Float64) img X2 Y2) in *.
  pose proof big_values as (Hb1 & Hb2 & Hb3 & Hb4 & Hb5 & Hb6).
  apply Rabs_le_bounds in B1, B2.
  assert (Rabs (B2R h1 - B2R h2) <= 202 / 100) as Hd by (apply Rabs_le; lra).
  destruct (sub_faithful h1 h2 F1 F2) as [Fd Ed]; [lra|].
  apply error_numeric in Ed.
  assert (Rabs (B2R (h1 - h2)%float) <= 203 / 100) as Bd.
  { apply Rabs_le. pose proof (Rabs_le_bounds _ _ Hd) as Hd'.
    pose proof (Rabs_pos (B2R h1 - B2R h2)). lra. }
  assert (Rabs (B2R (h1 - h2)%float * B2R strength) <= 203 / 100 * bpow 500) as Bp.
  { rewrite Rabs_mult. pose proof (Rabs_pos (B2R (h1 - h2)%float)).
    pose proof (Rabs_pos (B2R strength)). nra. }
  destruct (mul_faithful (h1 - h2)%float strength Fd Fs) as [Fm Em]; [lra|].
  apply error_numeric in Em.
  split; [exact Fm|]. subst d. apply Rabs_le.
  pose proof (Rabs_le_bounds _ _ (Rle_refl (Rabs (B2R (h1 - h2)%float * B2R strength)))) as Hab.
  pose proof (Rabs_pos (B2R (h1 - h2)%float * B2R strength)). lra.
Qed.
End SmoothHeight.

(** ** The normal vector in binary64 *)

Section NormalVector.
Local Open Scope R_scope.

(** The length [Math.sqrt(dx * dx + dy * dy + dz * dz)] as computed is
    within 8 parts in 10^15 of the length of [(dx, dy, 1)]. *)
Lemma length_analysis (dx dy : float) :
  is_finite dx = true -> is_finite dy = true ->
  Rabs (B2R dx) <= bpow 502 -> Rabs (B2R dy) <= bpow 502 ->
  let len := PrimFloat.sqrt (dx * dx + dy * dy + lit (A:=Float64) 1.0 * lit (A:=Float64) 1.0)%float in
  let L := R_sqrt.sqrt (B2R dx * B2R dx + B2R dy * B2R dy + 1) in
  is_finite len = true /\ 1 <= L /\
  L * (1 - 8 / 10 ^ 15) <= B2R len <= L * (1 + 8 / 10 ^ 15).
Proof.
  intros Fx Fy Bx By len L.
  pose proof big_values as (Hb1 & Hb2 & Hb3 & Hb4 & Hb5 & Hb6).
  set (X := B2R dx) in *. set (Y := B2R dy) in *.
  assert (0 <= X * X <= bpow 1004) as Hx2.
  { apply Rabs_le_bounds in Bx. pose proof (bpow_pos 502). rewrite <- Hb3. split; nra. }
  assert (0 <= Y * Y <= bpow 1004) as Hy2.
  { apply Rabs_le_bounds in By. pose proof (bpow_pos 502). rewrite <- Hb3. split; nra. }
  (* dx * dx and dy * dy *)
  destruct (mul_faithful dx dx Fx Fx) as [Fa Ea].
  { fold X. rewrite Rabs_right by lra. lra. }
  destruct (mul_faithful dy dy Fy Fy) as [Fb Eb].
  { fold Y. rewrite Rabs_right by lra. lra. }
  apply error_numeric in Ea, Eb. fold X in Ea. fold Y in Eb.
  rewrite (Rabs_right (X * X)) in Ea by lra. rewrite (Rabs_right (Y * Y)) in Eb by lra.
  set (a := (dx * dx)%float) in *. set (b := (dy * dy)%float) in *.
  (* their sum *)
  assert (Rabs (B2R a + B2R b) <= 3 * bpow 1004) as Hab by (apply Rabs_le; lra).
  destruct (add_faithful a b Fa Fb) as [Ft1 Et1]; [lra|].
  apply error_numeric in Et1.
  pose proof (Rabs_pos (B2R a + B2R b)) as Hab0.
  assert (Rabs (B2R a + B2R b) <= (X * X + Y * Y) * (1 + 1 / 10 ^ 15) + 2 / 10 ^ 21) as Hab'
    by (apply Rabs_le; lra).
  set (t1 := (a + b)%float) in *.
  (* plus dz * dz *)
  destruct lit_1 as [F1 V1].
  assert (Rabs (B2R t1 + B2R (lit (A:=Float64) 1.0)) <= 5 * bpow 1004) as Ht1.
  { rewrite V1. apply Rabs_le. lra. }
  destruct (add_faithful t1 (lit (A:=Float64) 1.0) Ft1 F1) as [Ft2 Et2]; [lra|].
  apply error_numeric in Et2. rewrite V1 in Et2.
  pose proof (Rabs_pos (B2R t1 + 1)) as Ht10.
  set (Sq := X * X + Y * Y + 1).
  assert (1 <= Sq) as HS by (subst Sq; lra).
  assert (Rabs (B2R t1 + 1) <= Sq * (1 + 3 / 10 ^ 15)) as Ht1'
    by (apply Rabs_le; subst Sq; lra).
  set (t2 := (t1 + lit (A:=Float64) 1.0)%float) in *.
  assert (Sq * (1 - 5 / 10 ^ 15) <= B2R t2 <= Sq * (1 + 5 / 10 ^ 15)) as HT2
    by (subst Sq; lra).
  (* the square root *)
  assert (0 <= B2R t2) as HT20 by (clear -HT2 HS; lra).
  destruct (sqrt_faithful t2 Ft2 HT20) as [Fl El].
  pose proof (sqrt_pos (B2R t2)) as Hsq0.
  assert (Rabs (R_sqrt.sqrt (B2R t2)) = R_sqrt.sqrt (B2R t2)) as Habs
    by (apply Rabs_right; lra).
  rewrite <- Habs in El at 2. apply error_numeric in El. rewrite Habs in El.
  change (PrimFloat.sqrt t2) with len in Fl, El. fold Sq. fold L.
  assert (L * L = Sq) as HL2 by (subst L; apply sqrt_sqrt; lra).
  assert (1 <= L) as HL1.
  { subst L. rewrite <- sqrt_1 at 1. apply sqrt_le_1_alt. exact HS. }
  assert (L * (1 - 5 / 10 ^ 15) <= R_sqrt.sqrt (B2R t2) <= L * (1 + 5 / 10 ^ 15)) as Hsq.
  { split.
    - rewrite <- (sqrt_square (L * (1 - 5 / 10 ^ 15))) by nra.
      apply sqrt_le_1_alt. nra.
    - rewrite <- (sqrt_square (L * (1 + 5 / 10 ^ 15))) by nra.
      apply sqrt_le_1_alt. nra. }
  split; [exact Fl|]. split; [exact HL1|]. lra.
Qed.



End NormalVector.

(** ** The decoded normal vector *)

Section DecodedNormal64.
Local Open Scope R_scope.


End DecodedNormal64.


(** Outside the analysed range the invariant fails: with strength 2^1023
    the squares of the gradients overflow, the length is infinite and every
    component is stored as 128, a vector of norm sqrt 3 / 255; with a NaN
    strength every component is NaN and is stored as 0, a vector of norm
    sqrt 3. *)
Lemma decoded_normal_strength_limits :
  let img := mkImageData 2 1 [0; 0; 0; 255; 255; 255; 255; 255] in
  let huge := generateNormalMap (A:=Float64) img 0x1p1023%float in
  let none := generateNormalMap (A:=Float64) img PrimFloat.nan in
  (channel huge 0 0 0 = Some 128 /\ channel huge 0 0 1 = Some 128 /\
   channel huge 0 0 2 = Some 128 /\ (decoded_norm 128 128 128 < 1 / 100)%R) /\
  (channel none 0 0 0 = Some 0 /\ channel none 0 0 1 = Some 0 /\
   channel none 0 0 2 = Some 0 /\ (17 / 10 < decoded_norm 0 0 0)%R).
Proof.
  cbv zeta. split.
  - split; [vm_compute; reflexivity|]. split; [vm_compute; reflexivity|].
    split; [vm_compute; reflexivity|].
    unfold decoded_norm.
    assert ((decode 128)² + (decode 128)² + (decode 128)² = 3 / 65025)%R as ->
      by (unfold decode, Rsqr; field).
    assert (R_sqrt.sqrt (3 / 65025) < R_sqrt.sqrt ((1 / 100)²))%R as Hlt
      by (apply sqrt_lt_1_alt; unfold Rsqr; lra).
    rewrite sqrt_Rsqr in Hlt by lra. exact Hlt.
  - split; [vm_compute; reflexivity|]. split; [vm_compute; reflexivity|].
    split; [vm_compute; reflexivity|].
    unfold decoded_norm.
    assert ((decode 0)² + (decode 0)² + (decode 0)² = 3)%R as ->
      by (unfold decode, Rsqr; field).
    assert (R_sqrt.sqrt ((17 / 10)²) < R_sqrt.sqrt 3)%R as Hlt
      by (apply sqrt_lt_1_alt; unfold Rsqr; lra).
    rewrite sqrt_Rsqr in Hlt by lra. exact Hlt.
Qed.

(** ** Rounding never crosses a representable number

    If a multiple [G * 2^k] of [2^k] is at most the exact result of an
    operation, and the exact result is below [2^(k+53)], then the multiple
    is at most the rounded result as well. *)

Section Monotone.
Local Open Scope R_scope.

Lemma binary_normalize_monotone (m e G k : Z) :
  0 <= IZR m * bpow e <= bpow 1023 ->
  (-1074 <= k)%Z -> IZR m * bpow e < bpow (k + 53) ->
  IZR G * bpow k <= IZR m * bpow e ->
  IZR G * bpow k <= SF2R (binary_normalize prec emax m e false).
Proof.
  intros [H0 Hbig] Hk Hlt HG. pose proof (bpow_pos e) as Hpe.
  destruct m as [|p|p]; cbn [binary_normalize].
  - cbn [SF2R]. lra.
  - destruct (binary_round_faithful false p e Hbig) as (y & _ & _ & _ & Hv & Hmon).
    rewrite Hv, Rmult_1_l. apply (Hmon G k); assumption.
  - exfalso. assert (IZR (Z.neg p) < 0) by (apply IZR_lt; lia). nra.
Qed.

Lemma SFmul_monotone (x y : spec_float) (G k : Z) :
  SpecFloat.valid_binary prec emax x = true -> SpecFloat.valid_binary prec emax y = true ->
  SFfinite x = true -> SFfinite y = true ->
  0 <= SF2R x * SF2R y <= bpow 1023 ->
  (-1074 <= k)%Z -> SF2R x * SF2R y < bpow (k + 53) ->
  IZR G * bpow k <= SF2R x * SF2R y ->
  IZR G * bpow k <= SF2R (SF64mul x y).
Proof.
  intros Vx Vy Fx Fy [H0 Hbig] Hk Hlt HG.
  destruct x as [sx|sx| |sx mx ex]; try discriminate;
    destruct y as [sy|sy| |sy my ey]; try discriminate;
    unfold SF64mul; cbn [SFmul];
    try (cbn [SF2R] in *; rewrite ?Rmult_0_l, ?Rmult_0_r in HG; exact HG).
  pose proof (valid_digits _ _ _ Vx) as (Hdx & Hex & Hcx).
  pose proof (valid_digits _ _ _ Vy) as (Hdy & Hey & Hcy).
  set (X := IZR (Z.pos (mx * my)) * bpow (ex + ey)).
  assert (0 < X) as HX.
  { subst X. apply Rmult_lt_0_compat; [apply IZR_lt; lia|apply bpow_pos]. }
  assert (SF2R (S754_finite sx mx ex) * SF2R (S754_finite sy my ey)
          = (if xorb sx sy then -1 else 1) * X) as Hsgn.
  { subst X. cbn [SF2R]. rewrite Pos2Z.inj_mul, mult_IZR, bpow_add.
    destruct sx, sy; cbn [xorb]; ring. }
  rewrite Hsgn in *.
  destruct (xorb sx sy) eqn:Es; [exfalso; lra|]. rewrite Rmult_1_l in *.
  destruct (binary_round_aux_faithful false (Z.pos (mx * my)) (ex + ey) loc_Exact X)
    as (r & _ & _ & _ & Hv & Hmon).
  - lia.
  - rewrite fexp_eq.
    pose proof (Zdigits2_pos (Z.pos mx) ltac:(lia)) as [Hlx _].
    pose proof (Zdigits2_pos (Z.pos my) ltac:(lia)) as [Hly _].
    assert (Zdigits2 (Z.pos mx) + Zdigits2 (Z.pos my) - 1 <= Zdigits2 (Z.pos (mx * my)))%Z as Hd.
    { apply Zdigits2_ge; [|lia].
      replace (Zdigits2 (Z.pos mx) + Zdigits2 (Z.pos my) - 1 - 1)%Z
        with ((Zdigits2 (Z.pos mx) - 1) + (Zdigits2 (Z.pos my) - 1))%Z by lia.
      rewrite Z.pow_add_r by lia. rewrite Pos2Z.inj_mul.
      assert (0 < 2 ^ (Zdigits2 (Z.pos mx) - 1))%Z by (apply Z.pow_pos_nonneg; lia).
      assert (0 < 2 ^ (Zdigits2 (Z.pos my) - 1))%Z by (apply Z.pow_pos_nonneg; lia).
      nia. }
    lia.
  - subst X. rewrite plus_IZR. pose proof (bpow_pos (ex + ey)). lra.
  - exact Hbig.
  - rewrite Hv, Rmult_1_l. apply (Hmon G k); assumption.
Qed.

Lemma SFadd_monotone (x y : spec_float) (G k : Z) :
  SFfinite x = true -> SFfinite y = true ->
  0 <= SF2R x + SF2R y <= bpow 1023 ->
  (-1074 <= k)%Z -> SF2R x + SF2R y < bpow (k + 53) ->
  IZR G * bpow k <= SF2R x + SF2R y ->
  IZR G * bpow k <= SF2R (SF64add x y).
Proof.
  intros Fx Fy Hr Hk Hlt HG.
  destruct x as [sx|sx| |sx mx ex]; try discriminate;
    destruct y as [sy|sy| |sy my ey]; try discriminate;
    unfold SF64add; cbn [SFadd].
  - cbn [SF2R] in HG. destruct sx, sy; cbn [SF2R]; lra.
  - cbn [SF2R] in HG |- *. lra.
  - cbn [SF2R] in HG |- *. lra.
  - pose proof (aligned_sum sx sy mx my ex ey 1) as Hs. cbv zeta in Hs.
    rewrite !Rmult_1_l in Hs. rewrite <- plus_IZR in Hs.
    rewrite <- Hs in *. apply binary_normalize_monotone; assumption.
Qed.

Lemma SFdiv_nonneg (x y : spec_float) :
  SFfinite x = true -> SFfinite y = true -> SF2R y <> 0 ->
  0 <= SF2R x / SF2R y <= bpow 1023 ->
  0 <= SF2R (SF64div x y).
Proof.
  intros Fx Fy Hy0 [H0 Hbig].
  destruct y as [sy|sy| |sy my ey]; try discriminate; [cbn [SF2R] in Hy0; lra|].
  destruct x as [sx|sx| |sx mx ex]; try discriminate; unfold SF64div; cbn [SFdiv].
  - cbn [SF2R]. lra.
  - pose proof (SFdiv_core_spec mx my ex ey) as Hc.
    destruct (SFdiv_core_binary prec emax (Z.pos mx) ex (Z.pos my) ey) as [[q e'] l].
    destruct Hc as (Hq & Hn & Hx).
    set (X := (IZR (Z.pos mx) * bpow ex) / (IZR (Z.pos my) * bpow ey)) in *.
    assert (0 < IZR (Z.pos my) * bpow ey) as Hden.
    { apply Rmult_lt_0_compat; [apply IZR_lt; lia|apply bpow_pos]. }
    assert (SF2R (S754_finite sx mx ex) / SF2R (S754_finite sy my ey)
            = (if xorb sx sy then -1 else 1) * X) as Hsgn.
    { subst X. cbn [SF2R].
      assert (0 < IZR (Z.pos my)) by (apply IZR_lt; lia). pose proof (bpow_pos ey).
      destruct sx, sy; cbn [xorb]; field; repeat split; lra. }
    assert (0 < X) as HX0.
    { subst X. apply Rmult_lt_0_compat.
      - apply Rmult_lt_0_compat; [apply IZR_lt; lia|apply bpow_pos].
      - apply Rinv_0_lt_compat. exact Hden. }
    rewrite Hsgn in *.
    destruct (xorb sx sy) eqn:Es; [exfalso; lra|]. rewrite Rmult_1_l in *.
    destruct (binary_round_aux_faithful false q e' l X Hq Hn Hx Hbig)
      as (r & Hr & _ & _ & Hv & _).
    rewrite Hv. lra.
Qed.
End Monotone.

Section PrimitiveMonotone.
Local Open Scope R_scope.

Lemma mul_monotone (x y : float) (G k : Z) :
  is_finite x = true -> is_finite y = true ->
  0 <= B2R x * B2R y <= bpow 1023 ->
  (-1074 <= k)%Z -> B2R x * B2R y < bpow (k + 53) ->
  IZR G * bpow k <= B2R x * B2R y ->
  IZR G * bpow k <= B2R (x * y)%float.
Proof.
  unfold is_finite, B2R. rewrite mul_spec. intros.
  apply SFmul_monotone; auto using Prim2SF_valid.
Qed.

Lemma add_monotone (x y : float) (G k : Z) :
  is_finite x = true -> is_finite y = true ->
  0 <= B2R x + B2R y <= bpow 1023 ->
  (-1074 <= k)%Z -> B2R x + B2R y < bpow (k + 53) ->
  IZR G * bpow k <= B2R x + B2R y ->
  IZR G * bpow k <= B2R (x + y)%float.
Proof.
  unfold is_finite, B2R. rewrite add_spec. intros. apply SFadd_monotone; auto.
Qed.

Lemma div_nonneg (x y : float) :
  is_finite x = true -> is_finite y = true -> B2R y <> 0 ->
  0 <= B2R x / B2R y <= bpow 1023 ->
  0 <= B2R (x / y)%float.
Proof.
  unfold is_finite, B2R. rewrite div_spec. intros. apply SFdiv_nonneg; auto.
Qed.

(** A finite double of value at least 127.5 is stored as a byte of at
    least 128. *)
Lemma float_ToUint8Clamp_upper_half (v : float) :
  is_finite v = true -> 255 / 2 <= B2R v -> (128 <= ToUint8Clamp (A:=Float64) v)%Z.
Proof.
  intros Fv Hv.
  unfold ToUint8Clamp. rewrite (float_isNaN v Fv).
  destruct (float_ofZ_exact 0 ltac:(lia)) as [F0 V0].
  destruct (float_ofZ_exact 255 ltac:(lia)) as [F255 V255].
  change (ofZ (Arith:=Float64)) with float_ofZ.
  destruct (nle (A:=Float64) v (float_ofZ 0)) eqn:E0.
  { apply float_nle in E0; [|assumption..]. rewrite V0 in E0. lra. }
  destruct (nle (A:=Float64) (float_ofZ 255) v) eqn:E255; [lia|].
  apply float_nle_false in E255; [|assumption..]. rewrite V255 in E255.
  pose proof (float_floor_bits 8 0 v Fv ltac:(lia) ltac:(cbn; lia)) as Hf.
  change (0 + 2 ^ Z.of_nat 8)%Z with 256%Z in Hf.
  specialize (Hf ltac:(lra)). cbv zeta in Hf. destruct Hf as [Hf Hr].
  set (f := floor_bits (A:=Float64) 8 0 v) in *.
  cbv zeta.
  assert (127 <= f)%Z as Hf127.
  { destruct (Z.le_gt_cases 127%Z f) as [|Hlt]; [assumption|exfalso].
    assert (IZR f + 1 <= 127) as H.
    { rewrite <- plus_IZR. apply IZR_le. lia. }
    lra. }
  destruct (Z.eq_dec f 127%Z) as [E|Hne].
  - rewrite E.
    assert (is_dyadic (float_ofZ 127 + lit (A:=Float64) 0.5)%float 255 1 = true) as Hd
      by (vm_compute; reflexivity).
    apply is_dyadic_spec in Hd as [Fh Vh]; [|lia].
    change (IZR (2 ^ 1)) with 2 in Vh.
    change (nadd (Arith:=Float64)) with PrimFloat.add.
    set (h := (float_ofZ 127 + lit (A:=Float64) 0.5)%float) in *.
    destruct (nlt (Arith:=Float64) h v) eqn:Eup; [lia|].
    destruct (nlt (Arith:=Float64) v h) eqn:Edown.
    { apply float_nlt in Edown; [|assumption..]. lra. }
    cbn. lia.
  - destruct (nlt (Arith:=Float64) _ v); [lia|].
    destruct (nlt (Arith:=Float64) v _); [lia|].
    destruct (Z.even f); lia.
Qed.
End PrimitiveMonotone.

(** ** The blue channel of the normal map *)

Section BlueChannel.
Local Open Scope R_scope.

(** The blue value handed to the store is at least 127.5. *)
Lemma blue_value (len : float) (L : R) :
  is_finite len = true -> 1 <= L ->
  L * (1 - 8 / 10 ^ 15) <= B2R len <= L * (1 + 8 / 10 ^ 15) ->
  let v := (((lit (A:=Float64) 1.0 / len) * lit (A:=Float64) 0.5 + lit (A:=Float64) 0.5)
            * lit (A:=Float64) 255)%float in
  is_finite v = true /\ 255 / 2 <= B2R v.
Proof.
  intros Fl HL Hlen v.
  pose proof big_values as (Hb1 & Hb2 & Hb3 & Hb4 & Hb5 & Hb6).
  destruct lit_half as [Fh Vh]. destruct lit_255 as [F255 V255]. destruct lit_1 as [F1 V1].
  set (LEN := B2R len) in *.
  assert (99 / 100 <= LEN) as Hlen0 by nra.
  set (q := 1 / LEN).
  assert (q * LEN = 1) as Hq by (subst q; field; lra).
  assert (0 <= q <= 2) as Hq2 by (split; nra).
  assert (bpow 53 = 9007199254740992) as E53 by (rewrite bpow_IZR by lia; reflexivity).
  assert (bpow 52 = 4503599627370496) as E52 by (rewrite bpow_IZR by lia; reflexivity).
  assert (bpow (-1) = 1 / 2) as Eh.
  { change (-1)%Z with (- (1))%Z. rewrite bpow_neg by lia. change (IZR (2 ^ 1)) with 2. lra. }
  (* the division *)
  assert (B2R len <> 0) as Hne by (fold LEN; lra).
  assert (0 <= B2R (lit (A:=Float64) 1.0) / B2R len <= bpow 1023) as Hdr.
  { rewrite V1. fold LEN q. lra. }
  destruct (div_faithful (lit (A:=Float64) 1.0) len F1 Fl Hne) as [Fn En].
  { apply Rabs_le. lra. }
  pose proof (div_nonneg (lit (A:=Float64) 1.0) len F1 Fl Hne Hdr) as Hn0.
  rewrite V1 in En. fold LEN q in En. apply error_numeric in En.
  rewrite (Rabs_right q) in En by lra.
  set (n := (lit (A:=Float64) 1.0 / len)%float) in *.
  (* times 0.5 *)
  assert (0 <= B2R n * B2R (lit (A:=Float64) 0.5) <= bpow 1023) as Hr1 by (rewrite Vh; lra).
  destruct (mul_faithful n (lit (A:=Float64) 0.5) Fn Fh) as [F1' E1].
  { apply Rabs_le. lra. }
  pose proof (mul_monotone n (lit (A:=Float64) 0.5) 0 0 Fn Fh Hr1 ltac:(lia)) as M1.
  change (0 + 53)%Z with 53%Z in M1. rewrite E53, Rmult_0_l in M1.
  specialize (M1 ltac:(rewrite Vh; lra) ltac:(rewrite Vh; lra)).
  rewrite Vh in E1. apply error_numeric in E1.
  rewrite (Rabs_right (B2R n * (1 / 2))) in E1 by lra.
  set (p1 := (n * lit (A:=Float64) 0.5)%float) in *.
  (* plus 0.5 *)
  assert (0 <= B2R p1 + B2R (lit (A:=Float64) 0.5) <= bpow 1023) as Hr2 by (rewrite Vh; lra).
  destruct (add_faithful p1 (lit (A:=Float64) 0.5) F1' Fh) as [F2 E2].
  { apply Rabs_le. lra. }
  pose proof (add_monotone p1 (lit (A:=Float64) 0.5) 1 (-1) F1' Fh Hr2 ltac:(lia)) as M2.
  change (-1 + 53)%Z with 52%Z in M2. rewrite E52, Eh, Rmult_1_l in M2.
  specialize (M2 ltac:(rewrite Vh; lra) ltac:(rewrite Vh; lra)).
  rewrite Vh in E2. apply error_numeric in E2.
  rewrite (Rabs_right (B2R p1 + 1 / 2)) in E2 by lra.
  set (p2 := (p1 + lit (A:=Float64) 0.5)%float) in *.
  (* times 255 *)
  assert (0 <= B2R p2 * B2R (lit (A:=Float64) 255) <= bpow 1023) as Hr3 by (rewrite V255; lra).
  destruct (mul_faithful p2 (lit (A:=Float64) 255) F2 F255) as [F3 E3].
  { apply Rabs_le. lra. }
  pose proof (mul_monotone p2 (lit (A:=Float64) 255) 255 (-1) F2 F255 Hr3 ltac:(lia)) as M3.
  change (-1 + 53)%Z with 52%Z in M3. rewrite E52, Eh in M3.
  specialize (M3 ltac:(rewrite V255; lra) ltac:(rewrite V255; lra)).
  split; [exact F3|]. subst v. fold n p1 p2. lra.
Qed.

(** X10: in binary64, for every image of bytes and every finite strength
    of magnitude at most 2^500, the normal always points out of the
    surface: the blue channel of every pixel of the normal map is at least
    128. *)
Theorem normal_map_blue (img : ImageData) (strength : float) (x y : nat) :
  length (data img) = (4 * (width img * height img))%nat ->
  bytes_ok img ->
  (x < width img)%nat -> (y < height img)%nat ->
  (PrimFloat.abs strength <=? max_strength)%float = true ->
  exists b, channel (generateNormalMap (A:=Float64) img strength) x y 2 = Some b /\
            (128 <= b <= 255)%Z.
Proof.
  intros Hlen Hbytes Hx Hy Hs.
  pose proof (generateNormalMap_channels (A:=Float64) img strength x y Hlen Hx Hy)
    as (_ & _ & H2 & _).
  revert H2. unfold normal_vector. cbv zeta. cbn [fst snd].
  set (dx := nmul (Arith:=Float64) _ strength). set (dy := nmul (Arith:=Float64) _ strength).
  set (len := nsqrt (Arith:=Float64) _).
  intros H2.
  destruct (gradient_range img Hbytes strength (Z.of_nat x - 1) (Z.of_nat y)
              (Z.of_nat x + 1) (Z.of_nat y) Hs) as [Fx Bx].
  destruct (gradient_range img Hbytes strength (Z.of_nat x) (Z.of_nat y - 1)
              (Z.of_nat x) (Z.of_nat y + 1) Hs) as [Fy By].
  change (is_finite dx = true) in Fx. change (Rabs (B2R dx) <= bpow 502) in Bx.
  change (is_finite dy = true) in Fy. change (Rabs (B2R dy) <= bpow 502) in By.
  destruct (length_analysis dx dy Fx Fy Bx By) as (Fl & HL & Hl).
  change (PrimFloat.sqrt _) with len in Fl, Hl.
  destruct (blue_value len _ Fl HL Hl) as [Fv Hv].
  eexists. split; [exact H2|]. split; [|apply ToUint8Clamp_range].
  unfold encode. apply float_ToUint8Clamp_upper_half; assumption.
Qed.
End BlueChannel.

Lemma normal_map_blue_witness :
  exists b,
    channel (generateNormalMap (A:=Float64)
               (mkImageData 2 1 [0; 0; 0; 255; 255; 255; 255; 255]) (lit 2.5)) 0 0 2 = Some b /\
    128 <= b <= 255.
Proof.
  exact (normal_map_blue (mkImageData 2 1 [0; 0; 0; 255; 255; 255; 255; 255])
           (lit (A:=Float64) 2.5) 0 0 eq_refl
           ltac:(unfold bytes_ok; cbn [data]; repeat constructor; lia)
           ltac:(cbn; lia) ltac:(cbn; lia) eq_refl).
Defined.
